(** * sweep-dedupe: a shallow embedding of the duplicate-detection engine

    The development follows [src/index.js] (class [Dedupe], the current
    version of the file): the comparison and mutator registries,
    [validateStrategy], [compareViaStepMin] / [compareViaStepAvg], and the
    stages of [run] (sanity checks, normalisation, sweep, aggregation and
    action dispatch); of [src/test/analysis.js] it follows the settings and
    the counting loop.  The patterns of the two author mutators run on a
    backtracking matcher ([Regex]).

    Modelling conventions.
    - A JavaScript string is the list of its UTF-16 code units ([jsstring]).
    - A field value is a string or an array of strings ([fieldval]); an absent
      field is [None] ([undefined]).  An array carries the address of the
      object it is, because [===] compares arrays by identity.
    - A JavaScript number that holds a score is an exact rational or [NaN]
      ([jsnum]); rounding of IEEE doubles is outside the model.
    - A thrown exception is the [Throw] case of [result].
    - Objects used as maps (records, output records) are [gmap]s keyed by
      property name; the [mutators] object of a strategy, whose evaluation
      order is observable through exceptions, is an association list.
    - The working record that [run] builds keeps its four bookkeeping
      properties ([original], [index], [recNumber], [dedupe]) apart from the
      properties spread from the record.  A record (or a mutated field) that
      carries one of those names overrides the bookkeeping value, as the
      spread does; [original] is never read.  The fields and sort keys of
      steps are taken not to name the four properties, and no property name
      is a member of [Object.prototype] or a lodash path ([a.b], [a[0]]).
    - Event emission ([runMutated], the throttled [progress]) has no effect
      on the result and is left out. *)

From Stdlib Require Import ZArith NArith QArith List String Ascii Lia Lqa Sorted.
From stdpp Require Import base option list gmap strings pretty.
From Equations Require Import Equations.

Local Open Scope string_scope.
Local Open Scope list_scope.

(** ** Exceptions *)

Inductive error : Type :=
| TypeError
| Error (msg : string).

Inductive result (A : Type) : Type :=
| Ok (a : A)
| Throw (e : error).
Arguments Ok {A} a.
Arguments Throw {A} e.

#[global] Instance result_ret : MRet result := fun A a => Ok a.

#[global] Instance result_bind : MBind result := fun A B k r =>
  match r with
  | Ok a => k a
  | Throw e => Throw e
  end.

(** The double quote, for the messages that carry one. *)
Definition dquote : string := String (ascii_of_nat 34) EmptyString.

(** ** JavaScript strings and field values *)

Module JS.

(** A string is its sequence of UTF-16 code units. *)
Definition jsstring : Type := list N.

(** The code units of an ASCII literal. *)
Definition lit (s : string) : jsstring :=
  map N_of_ascii (list_ascii_of_string s).

Fixpoint jsstring_eqb (s t : jsstring) : bool :=
  match s, t with
  | [], [] => true
  | c :: s', d :: t' => N.eqb c d && jsstring_eqb s' t'
  | _, _ => false
  end.

(** [s < t] on strings: lexicographic on code units. *)
Fixpoint jsstring_ltb (s t : jsstring) : bool :=
  match s, t with
  | _, [] => false
  | [], _ :: _ => true
  | c :: s', d :: t' =>
      if N.ltb c d then true
      else if N.ltb d c then false
      else jsstring_ltb s' t'
  end.

(** [Array.prototype.join] on an array of strings. *)
Fixpoint join (sep : jsstring) (xs : list jsstring) : jsstring :=
  match xs with
  | [] => []
  | [x] => x
  | x :: xs' => x ++ sep ++ join sep xs'
  end.

Fixpoint starts_with (p s : jsstring) : bool :=
  match p, s with
  | [], _ => true
  | c :: p', d :: s' => N.eqb c d && starts_with p' s'
  | _ :: _, [] => false
  end.

(** A field value: a string, or an array of strings living at [addr]. *)
Inductive fieldval : Type :=
| FStr (s : jsstring)
| FArr (addr : nat) (elems : list jsstring).

(** The value of a property read: [None] is [undefined]. *)
Definition jsval : Type := option fieldval.

(** [ToString] (an array prints as its elements joined by a comma). *)
Definition to_string (v : fieldval) : jsstring :=
  match v with
  | FStr s => s
  | FArr _ xs => join (lit ",") xs
  end.

(** [v !== undefined]. *)
Definition defined (v : jsval) : bool :=
  match v with
  | Some _ => true
  | None => false
  end.

(** Truthiness of a read: [undefined] and the empty string are falsy,
    every array (also the empty one) is truthy. *)
Definition truthy (v : jsval) : bool :=
  match v with
  | None => false
  | Some (FStr []) => false
  | Some (FStr (_ :: _)) => true
  | Some (FArr _ _) => true
  end.

(** [a == b] (loose equality) on reads. *)
Definition loose_eq (a b : jsval) : bool :=
  match a, b with
  | None, None => true
  | Some (FStr s), Some (FStr t) => jsstring_eqb s t
  | Some (FStr s), Some (FArr _ ys) => jsstring_eqb s (join (lit ",") ys)
  | Some (FArr _ xs), Some (FStr t) => jsstring_eqb (join (lit ",") xs) t
  | Some (FArr p _), Some (FArr q _) => Nat.eqb p q
  | _, _ => false
  end.

(** [a === b] (strict equality) on reads. *)
Definition strict_eq (a b : jsval) : bool :=
  match a, b with
  | None, None => true
  | Some (FStr s), Some (FStr t) => jsstring_eqb s t
  | Some (FArr p _), Some (FArr q _) => Nat.eqb p q
  | _, _ => false
  end.

(** Numbers that hold scores. *)
Inductive jsnum : Type :=
| Num (q : Q)
| NaN.

(** What a comparison handler hands back: a number or a boolean. *)
Inductive jsscore : Type :=
| SNum (x : jsnum)
| SBool (b : bool).

(** [ToNumber]. *)
Definition to_number (s : jsscore) : jsnum :=
  match s with
  | SNum x => x
  | SBool true => Num 1
  | SBool false => Num 0
  end.

Definition num_ltb (x y : jsnum) : bool :=
  match x, y with
  | Num p, Num q => negb (Qle_bool q p)
  | _, _ => false
  end.

Definition num_leb (x y : jsnum) : bool :=
  match x, y with
  | Num p, Num q => Qle_bool p q
  | _, _ => false
  end.

(** [x < y], [x > y], [x >= y] after [ToNumber]; all false on [NaN]. *)
Definition score_lt (x y : jsscore) : bool := num_ltb (to_number x) (to_number y).
Definition score_gt (x y : jsscore) : bool := num_ltb (to_number y) (to_number x).
Definition score_ge (x y : jsscore) : bool := num_leb (to_number y) (to_number x).

(** [x / n] for an array length [n]: [0 / 0] is [NaN]; a non-zero number
    over zero is an infinity, which no caller below produces. *)
Definition div_length (x : jsnum) (n : nat) : jsnum :=
  match x, n with
  | NaN, _ => NaN
  | Num _, O => NaN
  | Num q, S _ => Num (q / inject_Z (Z.of_nat n))
  end.

Definition num_add (x y : jsnum) : jsnum :=
  match x, y with
  | Num p, Num q => Num (p + q)
  | _, _ => NaN
  end.

End JS.
Export JS.

(** ** [JSON.stringify] on an array of strings *)

Module JSON.

Definition hex_digit (d : N) : N :=
  if N.ltb d 10 then 48 + d else 87 + d.

(** [\uXXXX], four lower-case hexadecimal digits. *)
Definition unicode_escape (c : N) : jsstring :=
  [92; 117; hex_digit (N.shiftr c 12 mod 16); hex_digit (N.shiftr c 8 mod 16);
   hex_digit (N.shiftr c 4 mod 16); hex_digit (c mod 16)]%N.

Definition is_lead (c : N) : bool := N.leb 55296 c && N.leb c 56319.
Definition is_trail (c : N) : bool := N.leb 56320 c && N.leb c 57343.

(** The escape of one code unit that is not half of a surrogate pair. *)
Definition quote_unit (c : N) : jsstring :=
  if N.eqb c 8 then lit "\b"
  else if N.eqb c 9 then lit "\t"
  else if N.eqb c 10 then lit "\n"
  else if N.eqb c 12 then lit "\f"
  else if N.eqb c 13 then lit "\r"
  else if N.eqb c 34 then [92; 34]%N
  else if N.eqb c 92 then [92; 92]%N
  else if N.ltb c 32 || is_lead c || is_trail c then unicode_escape c
  else [c].

(** The body of [QuoteJSONString]: a well-formed surrogate pair is copied,
    a lone surrogate is escaped. *)
Fixpoint quote_body (s : jsstring) : jsstring :=
  match s with
  | [] => []
  | c :: s' =>
      match s' with
      | d :: s'' =>
          if is_lead c && is_trail d then c :: d :: quote_body s''
          else quote_unit c ++ quote_body s'
      | [] => quote_unit c
      end
  end.

Definition quote (s : jsstring) : jsstring :=
  [34%N] ++ quote_body s ++ [34%N].

Definition stringify (xs : list jsstring) : jsstring :=
  lit "[" ++ join (lit ",") (map quote xs) ++ lit "]".

End JSON.

(** ** Comparisons (the [comparisons] registry) *)

(** A handler is called as [(a, b)].  The first argument of the model is the
    number of handler calls made before this one: it is what the [random]
    comparison draws from, the other handlers ignore it. *)
Definition comparison_handler : Type := nat -> jsval -> jsval -> result jsscore.

Module Comparisons.

(** [exact]: two arrays are compared through [JSON.stringify] and the
    outcome of [==] is returned as it is (a boolean); anything else is
    compared with [==] and mapped to 1 or 0. *)
Definition exact (a b : jsval) : jsscore :=
  match a, b with
  | Some (FArr _ xs), Some (FArr _ ys) =>
      SBool (jsstring_eqb (JSON.stringify xs) (JSON.stringify ys))
  | _, _ => if loose_eq a b then SNum (Num 1) else SNum (Num 0)
  end.

(** [exactTruncate]: [substr] exists on strings only, and [length] cannot
    be read off [undefined]. *)
Definition exactTruncate (a b : jsval) : result jsscore :=
  match a, b with
  | Some (FStr s), Some (FStr t) =>
      let m := Nat.min (length s) (length t) in
      Ok (if jsstring_eqb (firstn m s) (firstn m t)
          then SNum (Num 1) else SNum (Num 0))
  | _, _ => Throw TypeError
  end.

Section Registry.

(** The [jaro-winkler] package and lodash's [_.random(0, 1, true)] are
    libraries outside the repository. *)
Variable jaroWinklerDistance : jsval -> jsval -> result jsscore.
Variable random_draw : nat -> Q.

Definition builtin (name : string) : option comparison_handler :=
  if String.eqb name "exact" then Some (fun _ a b => Ok (exact a b))
  else if String.eqb name "exactTruncate" then Some (fun _ a b => exactTruncate a b)
  else if String.eqb name "jaroWinkler" then Some (fun _ a b => jaroWinklerDistance a b)
  else if String.eqb name "random" then Some (fun k _ _ => Ok (SNum (Num (random_draw k))))
  else None.

End Registry.

End Comparisons.

(** ** Records *)

(** A reference as the caller hands it in: property name to field value. *)
Abbreviation record := (gmap string fieldval).

(** ** Mutators (the [mutators] registry) *)

(** A handler is called as [(v, ref)]; the tests also call it as [(v)], in
    which case [ref] is [undefined] ([None]). *)
Definition mutator_handler : Type := fieldval -> option record -> result fieldval.

Module Mutators.

Definition is_digit (c : N) : bool := N.leb 48 c && N.leb c 57.

Definition is_alpha (c : N) : bool :=
  (N.leb 65 c && N.leb c 90) || (N.leb 97 c && N.leb c 122).

(** The class [\s]: white space and line terminators. *)
Definition is_space (c : N) : bool :=
  (N.leb 9 c && N.leb c 13) || N.eqb c 32 || N.eqb c 160 || N.eqb c 5760
  || (N.leb 8192 c && N.leb c 8202) || N.eqb c 8232 || N.eqb c 8233
  || N.eqb c 8239 || N.eqb c 8287 || N.eqb c 12288 || N.eqb c 65279.

(** [s.replace(/[^...]+/g, rep)] for a character class given by its
    complement [keep]: every maximal run of code units outside [keep]
    becomes one [rep]. *)
Fixpoint replace_runs (keep : N -> bool) (rep : jsstring) (in_run : bool)
    (s : jsstring) : jsstring :=
  match s with
  | [] => []
  | c :: s' =>
      if keep c then c :: replace_runs keep rep false s'
      else if in_run then replace_runs keep rep true s'
      else rep ++ replace_runs keep rep true s'
  end.

(** [s.replace(/^http:/, 'https:')]. *)
Definition upgrade_scheme (s : jsstring) : jsstring :=
  if starts_with (lit "http:") s then lit "https:" ++ skipn 5 s else s.

(** [v => v.replace(/[^0-9A-Za-z\s]+/g, ' ')]; an array has no [replace]. *)
Definition alphaNumericOnly (v : fieldval) : result fieldval :=
  match v with
  | FStr s =>
      Ok (FStr (replace_runs (fun c => is_digit c || is_alpha c || is_space c)
                  (lit " ") false s))
  | FArr _ _ => Throw TypeError
  end.

(** [v => v.replace(/[\s]+/g, '')]. *)
Definition noSpace (v : fieldval) : result fieldval :=
  match v with
  | FStr s => Ok (FStr (replace_runs (fun c => negb (is_space c)) [] false s))
  | FArr _ _ => Throw TypeError
  end.

(** [v => v.replace(/[^0-9]+/g, '')]. *)
Definition numericOnly (v : fieldval) : result fieldval :=
  match v with
  | FStr s => Ok (FStr (replace_runs is_digit [] false s))
  | FArr _ _ => Throw TypeError
  end.

(** lodash's [deburredLetters]: the Latin-1 Supplement and Latin Extended-A
    letters, grouped by the basic Latin letters that replace them. *)
Definition deburredLetters : list (string * list N) := [
  ("A", [192; 193; 194; 195; 196; 197; 256; 258; 260]);
  ("a", [224; 225; 226; 227; 228; 229; 257; 259; 261]);
  ("C", [199; 262; 264; 266; 268]);
  ("c", [231; 263; 265; 267; 269]);
  ("D", [208; 270; 272]);
  ("d", [240; 271; 273]);
  ("E", [200; 201; 202; 203; 274; 276; 278; 280; 282]);
  ("e", [232; 233; 234; 235; 275; 277; 279; 281; 283]);
  ("I", [204; 205; 206; 207; 296; 298; 300; 302; 304]);
  ("i", [236; 237; 238; 239; 297; 299; 301; 303; 305]);
  ("N", [209; 323; 325; 327; 330]);
  ("n", [241; 324; 326; 328; 331]);
  ("O", [210; 211; 212; 213; 214; 216; 332; 334; 336]);
  ("o", [242; 243; 244; 245; 246; 248; 333; 335; 337]);
  ("U", [217; 218; 219; 220; 360; 362; 364; 366; 368; 370]);
  ("u", [249; 250; 251; 252; 361; 363; 365; 367; 369; 371]);
  ("Y", [221; 374; 376]);
  ("y", [253; 255; 375]);
  ("Ae", [198]);
  ("ae", [230]);
  ("Th", [222]);
  ("th", [254]);
  ("ss", [223]);
  ("G", [284; 286; 288; 290]);
  ("g", [285; 287; 289; 291]);
  ("H", [292; 294]);
  ("h", [293; 295]);
  ("J", [308]);
  ("j", [309]);
  ("K", [310]);
  ("k", [311; 312]);
  ("L", [313; 315; 317; 319; 321]);
  ("l", [314; 316; 318; 320; 322]);
  ("R", [340; 342; 344]);
  ("r", [341; 343; 345]);
  ("S", [346; 348; 350; 352]);
  ("s", [347; 349; 351; 353; 383]);
  ("T", [354; 356; 358]);
  ("t", [355; 357; 359]);
  ("W", [372]);
  ("w", [373]);
  ("Z", [377; 379; 381]);
  ("z", [378; 380; 382]);
  ("IJ", [306]);
  ("ij", [307]);
  ("Oe", [338]);
  ("oe", [339]);
  ("'n", [329])
]%N.

Definition deburrLetter (c : N) : jsstring :=
  match find (fun row => existsb (N.eqb c) (snd row)) deburredLetters with
  | Some row => lit (fst row)
  | None => [c]
  end.

(** lodash's [reComboMark]: combining diacritical marks, combining half
    marks and combining marks for symbols. *)
Definition is_combo_mark (c : N) : bool :=
  (N.leb 768 c && N.leb c 879) || (N.leb 65056 c && N.leb c 65071)
  || (N.leb 8400 c && N.leb c 8447).

(** [v => _.deburr(v)]: lodash turns its argument into a string, replaces
    the letters of the table and drops the combining marks. *)
Definition deburr (v : fieldval) : result fieldval :=
  Ok (FStr (List.filter (fun c => negb (is_combo_mark c))
              (flat_map deburrLetter (to_string v)))).

(** [/^https?:\/\/doi.org\//]: the dot of [doi.org] is unescaped and stands
    for any code unit but a line terminator. *)
Definition is_line_terminator (c : N) : bool :=
  N.eqb c 10 || N.eqb c 13 || N.eqb c 8232 || N.eqb c 8233.

Definition doi_after_scheme (s : jsstring) : bool :=
  starts_with (lit "://doi") s
  && match skipn 6 s with
     | c :: s' => negb (is_line_terminator c) && starts_with (lit "org/") s'
     | [] => false
     end.

Definition looks_like_doi_url (u : jsstring) : bool :=
  starts_with (lit "http") u
  && match skipn 4 u with
     | c :: s' => if N.eqb c 115 then doi_after_scheme s' else doi_after_scheme (c :: s')
     | [] => false
     end.

(** [doiRewrite(v, ref)]. *)
Definition doiRewrite (v : fieldval) (ref : option record) : result fieldval :=
  if truthy (Some v) then
    if starts_with (lit "https://") (to_string v) then Ok v
    else if starts_with (lit "http://") (to_string v) then
      match v with
      | FStr s => Ok (FStr (upgrade_scheme s))
      | FArr _ _ => Throw TypeError
      end
    else Ok (FStr (lit "https://doi.org/" ++ to_string v))
  else
    match ref with
    | None => Throw TypeError
    | Some r =>
        match r !! "urls" with
        | Some (FStr _) => Throw TypeError
        | urls =>
            let us := match urls with Some (FArr _ xs) => xs | _ => [] end in
            match find looks_like_doi_url us with
            | Some foundDoi => Ok (FStr (upgrade_scheme foundDoi))
            | None => Ok (FStr [])
            end
        end
    end.

(** The general category Dash_Punctuation ([\p{Pd}], Unicode 16) in the
    Basic Multilingual Plane. *)
Definition is_dash (c : N) : bool :=
  N.eqb c 45 || N.eqb c 1418 || N.eqb c 1470 || N.eqb c 5120 || N.eqb c 6150
  || (N.leb 8208 c && N.leb c 8213) || N.eqb c 11799 || N.eqb c 11802
  || N.eqb c 11834 || N.eqb c 11835 || N.eqb c 11840 || N.eqb c 11869
  || N.eqb c 12316 || N.eqb c 12336 || N.eqb c 12448 || N.eqb c 65073
  || N.eqb c 65074 || N.eqb c 65112 || N.eqb c 65123 || N.eqb c 65293.

(** [\p{Pd}+] under the [u] flag: the two dashes outside the plane,
    U+10D6E and U+10EAD, are surrogate pairs.  Returns the number of dashes
    and what follows them. *)
Fixpoint skip_dashes (s : jsstring) : nat * jsstring :=
  match s with
  | c :: s' =>
      if is_dash c then let '(k, r) := skip_dashes s' in (S k, r)
      else
        match s' with
        | d :: s'' =>
            if N.eqb c 55299 && (N.eqb d 56686 || N.eqb d 57005)
            then let '(k, r) := skip_dashes s'' in (S k, r)
            else (O, s)
        | [] => (O, s)
        end
  | [] => (O, s)
  end.

Fixpoint span (p : N -> bool) (s : jsstring) : jsstring * jsstring :=
  match s with
  | c :: s' => if p c then let '(a, r) := span p s' in (c :: a, r) else ([], s)
  | [] => ([], [])
  end.

(** The groups of the page pattern of [consistentPageNumbering], matched
    under the [u] flag against the whole string: digits ([from]), optional
    white space, and optionally one or more dashes, digits ([to]) and
    white space.  Every repetition is followed by something it cannot
    match, so the greedy reading is the only one.  [None] is a failed match;
    the second component is the group [to], [None] when the optional part
    took no part. *)
Definition page_groups (v : jsstring) : option (jsstring * option jsstring) :=
  let '(from, r1) := span is_digit v in
  match from with
  | [] => None
  | _ :: _ =>
      let '(_, r2) := span is_space r1 in
      match r2 with
      | [] => Some (from, None)
      | _ :: _ =>
          let '(k, r3) := skip_dashes r2 in
          match k with
          | O => None
          | S _ =>
              let '(to, r4) := span is_digit r3 in
              match to with
              | [] => None
              | _ :: _ =>
                  let '(_, r5) := span is_space r4 in
                  match r5 with
                  | [] => Some (from, Some to)
                  | _ :: _ => None
                  end
              end
          end
      end
  end.

(** [consistentPageNumbering]: [substring(0, offset)] with a negative
    [offset] is the empty string, as the truncated subtraction gives. *)
Definition consistentPageNumbering (v : fieldval) : result fieldval :=
  match page_groups (to_string v) with
  | Some (from, Some to) =>
      let offset := (length from - length to)%nat in
      let prefix := firstn offset from in
      Ok (FStr (from ++ lit "-" ++ prefix ++ to))
  | Some (from, None) => Ok (FStr from)
  | None => Ok (FStr [])
  end.

(** The handlers above, by name.  The registry is a field of the instance:
    the engine below runs on any registry, this one holds the handlers
    above; [Dedupe.mutators], further down, is the registry of the source
    with all its handlers. *)
Definition builtin (name : string) : option mutator_handler :=
  if String.eqb name "alphaNumericOnly" then Some (fun v _ => alphaNumericOnly v)
  else if String.eqb name "noSpace" then Some (fun v _ => noSpace v)
  else if String.eqb name "deburr" then Some (fun v _ => deburr v)
  else if String.eqb name "doiRewrite" then Some doiRewrite
  else if String.eqb name "numericOnly" then Some (fun v _ => numericOnly v)
  else if String.eqb name "consistentPageNumbering"
       then Some (fun v _ => consistentPageNumbering v)
  else None.

End Mutators.

(** ** Strategies *)

(** [step.sort]: one field name or a list of field names. *)
Inductive sortspec : Type :=
| SortField (f : string)
| SortList (fs : list string).

(** A step descriptor.  Every property may be missing, which is what
    [validateStrategy] looks for. *)
Record step : Type := {
  fields : option (list string);
  sort : option sortspec;
  comparison : option string;
  skipOmitted : option bool;
}.

(** The mutators of one field: one name or a list of names ([_.castArray]
    makes the former a list of one). *)
Inductive mutspec : Type :=
| MutOne (m : string)
| MutList (ms : list string).

Definition castArray (m : mutspec) : list string :=
  match m with
  | MutOne name => [name]
  | MutList names => names
  end.

Record strategy : Type := {
  title : option string;
  description : option string;
  mutators : option (list (string * mutspec));
  steps : option (list step);
}.

(** [!s] for a property that holds a string when present. *)
Definition missing (s : option string) : bool :=
  match s with
  | None => true
  | Some x => String.eqb x ""
  end.

(** The outcome of [validateStrategy]: [true] or the array of errors. *)
Inductive validation : Type :=
| VTrue
| VErrors (errs : list string).

(** The errors one step adds, in the order the source pushes them. *)
Definition step_errors (stepIndex : nat) (s : step) : list string :=
  let nr := pretty (stepIndex + 1)%nat in
  (match fields s with
   | None | Some [] => ["Step #" +:+ nr +:+ " contains no fields"]
   | Some (_ :: _) => []
   end)
  ++ (match sort s with
      | None | Some (SortField "") => ["Step #" +:+ nr +:+ " contains no sort field(s)"]
      | Some _ => []
      end)
  ++ (match sort s with
      | Some (SortList []) => ["Step #" +:+ nr +:+ " contains a blank sort field list"]
      | _ => []
      end)
  ++ (if missing (comparison s) then ["Step #" +:+ nr +:+ " contains no comparison"]
      else []).

Definition validateStrategy (s : strategy) : result validation :=
  let errs :=
    (if missing (title s) then ["Field title is missing"] else [])
    ++ (if missing (description s) then ["Field description is missing"] else [])
    ++ (match mutators s with None => ["Field mutators is missing"] | Some _ => [] end)
    ++ (match steps s with None => ["Field steps is missing"] | Some _ => [] end) in
  (* [strategy.steps.length]: reading [length] off [undefined] throws *)
  match steps s with
  | None => Throw TypeError
  | Some ss =>
      let errs := errs ++ (match ss with
                           | [] => ["Should contain at least one step"]
                           | _ :: _ => []
                           end) in
      let errs := errs ++ List.concat (imap step_errors ss) in
      Ok (match errs with [] => VTrue | _ :: _ => VErrors errs end)
  end.

(** [strategies/bramer.js]. *)
Module Strategies.

Definition exact_on (fs : list string) (key : string) : step :=
  {| fields := Some fs; sort := Some (SortField key);
     comparison := Some "exact"; skipOmitted := None |}.

Definition bramer : strategy := {|
  title := Some "Bramer et. al.";
  description :=
    Some ("<a href=" +:+ dquote
          +:+ "https://doi.org/10.3163/1536-5050.104.3.014" +:+ dquote
          +:+ ">Bramer et. al.</a> deduplication sweep strategy");
  mutators := Some [
    ("author", MutOne "authorRewrite");
    ("doi", MutOne "doiRewrite");
    ("title", MutList ["deburr"; "alphaNumericOnly"; "noCase"]);
    ("year", MutOne "numericOnly")
  ];
  steps := Some [
    exact_on ["doi"] "doi";
    exact_on ["author"; "year"; "title"; "journal"] "title";
    exact_on ["author"; "year"; "title"; "pages"] "pages";
    exact_on ["title"; "volume"; "pages"] "title";
    exact_on ["authors"; "volume"; "pages"] "title";
    exact_on ["year"; "volume"; "issue"; "pages"] "title";
    exact_on ["title"] "title";
    exact_on ["authors"; "year"] "title"
  ];
|}.

End Strategies.

(** The checks of the validation, as the specification lists them: a step
    has non-empty [fields], a [sort] that is a non-empty name or a non-empty
    list, and a named [comparison]; a strategy has a title, a description,
    mutators and at least one step, and every step passes. *)
Definition passes_step (s : step) : Prop :=
  (∃ f fs, fields s = Some (f :: fs))
  ∧ (∃ key, sort s = Some key ∧ key ≠ SortField "" ∧ key ≠ SortList [])
  ∧ missing (comparison s) = false.

Definition passes (s : strategy) : Prop :=
  missing (title s) = false
  ∧ missing (description s) = false
  ∧ is_Some (mutators s)
  ∧ ∃ s0 ss, steps s = Some (s0 :: ss) ∧ Forall passes_step (s0 :: ss).

(** ** Settings *)

Module ACTIONS.
Definition STATS : nat := 0.
Definition MARK : nat := 1.
Definition DELETE : nat := 2.
Definition values : list nat := [STATS; MARK; DELETE].
End ACTIONS.

Module DUPEREF.
Definition INDEX : nat := 0.
Definition RECNUMBER : nat := 1.
Definition values : list nat := [INDEX; RECNUMBER].
End DUPEREF.

Module FIELDWEIGHT.
Definition MINIMUM : nat := 0.
Definition AVERAGE : nat := 1.
End FIELDWEIGHT.

(** [markOk] / [markDupe]: a string, or a function called as [(ref)]. *)
Inductive mark : Type :=
| MarkValue (v : jsstring)
| MarkFunction (f : record -> jsstring).

Module Settings.
Record t : Type := {
  strategy : string;
  validateStrategy : bool;
  action : nat;
  actionField : string;
  threshold : Q;
  markOk : mark;
  markDupe : mark;
  dupeRef : nat;
  fieldWeight : nat;
  markOriginal : bool;
}.

(** The initial value of the [settings] field, after the constructor. *)
Definition default : t := {|
  strategy := "clark";
  validateStrategy := true;
  action := ACTIONS.STATS;
  actionField := "dedupe";
  threshold := 1 # 10;
  markOk := MarkValue (lit "OK");
  markDupe := MarkValue (lit "DUPE");
  dupeRef := DUPEREF.INDEX;
  fieldWeight := FIELDWEIGHT.MINIMUM;
  markOriginal := false;
|}.
End Settings.

(** ** Working records *)

(** How a record is referred to by [dupeOf]: a number ([index], or
    [index + 1] standing in for a record number) or the [refNumber] value
    of the record. *)
Inductive refid : Type :=
| RefNum (n : nat)
| RefVal (v : fieldval).

(** An entry of [dedupe.steps]. *)
Record step_result : Type := {
  score : jsscore;
  dupeOf : option refid;
}.

(** The [dedupe] property of a working record: the object [{steps}] that
    [run] creates, [steps] being a sparse array ([None] is a hole); or, when
    the record has a field of that name, the value of the field, which takes
    the object's place. *)
Inductive dedupe_slot : Type :=
| Steps (steps : list (option step_result))
| Overridden (v : fieldval).

(** The object [run] builds for each input record.  [props] holds the
    properties spread from the original and from the mutated values;
    [index] and [recNumber] are numbers unless a field of that name
    overrides them. *)
Record wref : Type := {
  original : record;
  index : refid;
  recNumber : refid;
  dedupe : dedupe_slot;
  props : record;
}.

(** [w.dedupe.steps] where it is an array: a field value has no [steps]. *)
Definition steps_of (w : wref) : list (option step_result) :=
  match dedupe w with
  | Steps l => l
  | Overridden _ => []
  end.

Definition overridden (w : wref) : bool :=
  match dedupe w with
  | Steps _ => false
  | Overridden _ => true
  end.

(** [a[i] = v] on a sparse array: an index past the end extends the array
    with holes. *)
Definition sparse_set {A : Type} (l : list (option A)) (i : nat) (v : A)
    : list (option A) :=
  if decide (i < length l)%nat then <[i := Some v]> l
  else l ++ replicate (i - length l) None ++ [Some v].

(** [a[i]]: a hole and an index past the end both read as [undefined]. *)
Definition sparse_get {A : Type} (l : list (option A)) (i : nat) : option A :=
  mjoin (l !! i).

Definition with_steps (w : wref) (l : list (option step_result)) : wref :=
  {| original := original w; index := index w; recNumber := recNumber w;
     dedupe := Steps l; props := props w |}.

(** ** Comparing two working records under a step *)

Section Compare.

(** The [comparisons] field of the instance. *)
Variable comparisons : string -> option comparison_handler.

(** [this.comparisons[step.comparison].handler]: a missing [comparison]
    reads the key ["undefined"], an unknown key has no [handler]. *)
Definition handler_of (s : step) : result comparison_handler :=
  match comparisons (default "undefined" (comparison s)) with
  | Some h => Ok h
  | None => Throw TypeError
  end.

(** The score of one field, with the number of handler calls so far
    threaded through:
    [(step.skipOmitted ?? true) && (!a[field] || !b[field]) ? 0 : handler(a[field], b[field])]. *)
Definition field_score (calls : nat) (a b : wref) (s : step) (field : string)
    : result (jsscore * nat) :=
  if default true (skipOmitted s)
     && (negb (truthy (props a !! field)) || negb (truthy (props b !! field)))
  then Ok (SNum (Num 0), calls)
  else
    h ← handler_of s;
    x ← h calls (props a !! field) (props b !! field);
    Ok (x, S calls).

(** The [forEach] of [compareViaStepMin], from the running [minimum]. *)
Fixpoint min_over (calls : nat) (a b : wref) (s : step) (fs : list string)
    (minimum : jsscore) : result (jsscore * nat) :=
  match fs with
  | [] => Ok (minimum, calls)
  | field :: fs' =>
      '(x, calls') ← field_score calls a b s field;
      min_over calls' a b s fs' (if score_lt x minimum then x else minimum)
  end.

Definition compareViaStepMin (calls : nat) (a b : wref) (s : step)
    : result (jsscore * nat) :=
  match fields s with
  | None => Throw TypeError
  | Some fs => min_over calls a b s fs (SNum (Num 1))
  end.

(** The [reduce] of [compareViaStepAvg]: the callback does not use its
    accumulator ([res] here), so each field replaces what came before. *)
Fixpoint reduce_over (calls : nat) (a b : wref) (s : step) (fs : list string)
    (res : jsscore) : result (jsscore * nat) :=
  match fs with
  | [] => Ok (res, calls)
  | field :: fs' =>
      '(x, calls') ← field_score calls a b s field;
      reduce_over calls' a b s fs' x
  end.

Definition compareViaStepAvg (calls : nat) (a b : wref) (s : step)
    : result (jsscore * nat) :=
  match fields s with
  | None => Throw TypeError
  | Some fs =>
      '(x, calls') ← reduce_over calls a b s fs (SNum (Num 0));
      Ok (SNum (div_length (to_number x) (length fs)), calls')
  end.

(** The per-field scores of a pair, in the order of [step.fields]. *)
Fixpoint field_scores (calls : nat) (a b : wref) (s : step) (fs : list string)
    : result (list jsscore * nat) :=
  match fs with
  | [] => Ok ([], calls)
  | field :: fs' =>
      '(x, calls1) ← field_score calls a b s field;
      '(xs, calls2) ← field_scores calls1 a b s fs';
      Ok (x :: xs, calls2)
  end.

End Compare.

(** ** lodash's [_.sortBy] *)

Module Lodash.

(** [value > other] on reads: [undefined] compares false with everything,
    strings and arrays compare as strings. *)
Definition greater (value other : jsval) : bool :=
  match value, other with
  | Some v, Some o => jsstring_ltb (to_string o) (to_string v)
  | _, _ => false
  end.

(** [compareAscending]: [undefined] sorts after every defined value. *)
Definition compareAscending (value other : jsval) : Z :=
  if strict_eq value other then 0
  else if greater value other || negb (defined value) then 1
  else if greater other value || negb (defined other) then (-1)
  else 0.

(** [compareMultiple] with no [orders]: the first criterion that tells the
    two apart decides, the position in the collection breaks ties. *)
Fixpoint compareMultiple (objCriteria othCriteria : list jsval)
    (objIndex othIndex : nat) : Z :=
  match objCriteria, othCriteria with
  | x :: xs, y :: ys =>
      let r := compareAscending x y in
      if Z.eqb r 0 then compareMultiple xs ys objIndex othIndex else r
  | _, _ => Z.of_nat objIndex - Z.of_nat othIndex
  end.

Definition comparer (object other : list jsval * nat) : Z :=
  compareMultiple (fst object) (fst other) (snd object) (snd other).

(** [array.sort(comparer)]: the comparer never answers 0 on two different
    elements, so the sorted order is the one an insertion sort finds. *)
Fixpoint insert_by (x : list jsval * nat) (l : list (list jsval * nat))
    : list (list jsval * nat) :=
  match l with
  | [] => [x]
  | y :: l' => if Z.leb (comparer x y) 0 then x :: l else y :: insert_by x l'
  end.

Definition baseSortBy (l : list (list jsval * nat)) : list (list jsval * nat) :=
  foldr insert_by [] l.

(** The criteria of one element.  A missing [sort] and an empty list of
    names make lodash compare the objects themselves, which never tells
    two of them apart: no criterion at all. *)
Definition criteria (s : option sortspec) (w : wref) : list jsval :=
  match s with
  | None => []
  | Some (SortField f) => [props w !! f]
  | Some (SortList fs) => map (fun f => props w !! f) fs
  end.

(** [_.sortBy(refs, sort)].  The sorted array holds the same objects as
    [refs]; here it is the list of their positions in [refs]. *)
Definition sortBy (refs : list wref) (s : option sortspec) : list nat :=
  snd <$> baseSortBy (imap (fun i w => (criteria s w, i)) refs).

End Lodash.

(** ** The sweep *)

(** What the sweep carries from one pair to the next: the working records
    (the array [refs], whose objects the scan mutates), the number of
    handler calls made so far, and the number of pairs compared so far
    (a ghost counter: the source does not keep it). *)
Record sweep_state : Type := {
  refs : list wref;
  calls : nat;
  pairs : nat;
}.

(** [refs[pos].dedupe.steps[stepIndex] = v], where [steps] is an array. *)
Definition set_entry (rs : list wref) (pos stepIndex : nat) (v : step_result)
    : list wref :=
  alter (fun w => with_steps w (sparse_set (steps_of w) stepIndex v)) pos rs.

(** [refs[pos].dedupe.steps[stepIndex]], where [steps] is an array. *)
Definition get_entry (rs : list wref) (pos stepIndex : nat) : option step_result :=
  w ← rs !! pos; sparse_get (steps_of w) stepIndex.

(** The property key [step.sort] turns into when it indexes an object, as
    in [sortedRefs[i][step.sort]]: an array is joined with commas. *)
Definition property_key (s : option sortspec) : string :=
  match s with
  | None => "undefined"
  | Some (SortField f) => f
  | Some (SortList fs) => String.concat "," fs
  end.

(** The cursors after one pair.  [same_anchor] is the path that runs
    [n++] (and moves to the next anchor when [n] reaches the end); the other
    path runs [i++; n = i + 1]. *)
Definition advance (len i n : nat) (same_anchor : bool) : nat * nat :=
  if same_anchor then
    if decide (len <= S n)%nat then (S i, S (S i)) else (i, S n)
  else (S i, S (S i)).

(** A measure of what the scan has left: it drops with every pair. *)
Definition cursor_measure (len i n : nat) : nat :=
  (len - i) * S len + (len - n).

Section Sweep.

Variable comparisons : string -> option comparison_handler.
Variable settings : Settings.t.

(** [fieldWeight == MINIMUM ? compareViaStepMin(..) : compareViaStepAvg(..)]. *)
Definition compareViaStep (cs : nat) (a b : wref) (s : step)
    : result (jsscore * nat) :=
  if Nat.eqb (Settings.fieldWeight settings) FIELDWEIGHT.MINIMUM
  then compareViaStepMin comparisons cs a b s
  else compareViaStepAvg comparisons cs a b s.

(** [dupeRef == RECNUMBER ? sortedRefs[i].recNumber : sortedRefs[i].index]. *)
Definition reference_to (a : wref) : refid :=
  if Nat.eqb (Settings.dupeRef settings) DUPEREF.RECNUMBER
  then recNumber a else index a.

Section Step.

Variable s : step.
Variable stepIndex : nat.
(** [sortedRefs], as positions in [refs]. *)
Variable sortedRefs : list nat.

(** [sortedRefs[i]]; property reads off [undefined] throw. *)
Definition sorted_ref (rs : list wref) (i : nat) : result (nat * wref) :=
  match sortedRefs !! i with
  | Some pos =>
      match rs !! pos with
      | Some w => Ok (pos, w)
      | None => Throw TypeError
      end
  | None => Throw TypeError
  end.

(** The body of the [while] loop for the pair [(i, n)]: the new state and
    whether the cursors stay on the anchor [i].  [sortedRefs[i][step.sort]]
    is read off the properties spread into the working record: a sort key
    that names [index], [recNumber], [original] or [dedupe] is outside the
    model (see the conventions at the head of the file). *)
Definition scan_pair (st : sweep_state) (i n : nat) : result (sweep_state * bool) :=
  '(pi, a) ← sorted_ref (refs st) i;
  '(pn, b) ← sorted_ref (refs st) n;
  '(dupeScore, calls') ← compareViaStep (calls st) a b s;
  if score_gt dupeScore (SNum (Num 0)) then
    (* [.dedupe.steps[stepIndex]] is read off both records *)
    if overridden a || overridden b then Throw TypeError else
    let rs1 :=
      match get_entry (refs st) pi stepIndex with
      | None =>
          set_entry (refs st) pi stepIndex
            {| score := if Settings.markOriginal settings then dupeScore
                        else SNum (Num 0);
               dupeOf := None |}
      | Some _ => refs st
      end in
    let link := {| score := dupeScore; dupeOf := Some (reference_to a) |} in
    let rs2 :=
      match get_entry rs1 pn stepIndex with
      | None => set_entry rs1 pn stepIndex link
      | Some old =>
          if score_ge dupeScore (score old) then set_entry rs1 pn stepIndex link
          else rs1
      end in
    Ok ({| refs := rs2; calls := calls'; pairs := S (pairs st) |}, true)
  else
    Ok ({| refs := refs st; calls := calls'; pairs := S (pairs st) |},
        strict_eq (props a !! property_key (sort s))
                  (props b !! property_key (sort s))).

(** [while (n < sortedRefs.length) { ... }]. *)
Equations? scan (st : sweep_state) (i n : nat) : result sweep_state
    by wf (cursor_measure (length sortedRefs) i n) lt :=
  scan st i n with decide (n < length sortedRefs)%nat => {
    | right _ => Ok st
    | left Hn with scan_pair st i n => {
        | Throw e => Throw e
        | Ok (st', same) =>
            scan st' (advance (length sortedRefs) i n same).1
                     (advance (length sortedRefs) i n same).2 } }.
Proof.
  clear scan. unfold advance, cursor_measure.
  destruct same; [case_decide|]; simpl; try lia.
  all: destruct (decide (i < length sortedRefs)%nat); [nia|].
  all: replace (length sortedRefs - i)%nat with 0%nat by lia.
  all: replace (length sortedRefs - S i)%nat with 0%nat by lia; lia.
Qed.

End Step.

End Sweep.

(** ** The stages of [run] *)

(** What the action attaches to an output record, next to the fields of
    the original. *)
Inductive outval : Type :=
| OField (v : fieldval)
| OStats (stats_score : jsnum) (stats_dupeOf : list refid)
| OMark (v : jsstring).

Abbreviation outrecord := (gmap string outval).

(** [!sortedBy || sortedBy != step.sort].  Two arrays are compared by
    identity; the model sorts again in that case, which finds the same
    order, since the scan writes [dedupe.steps] only. *)
Definition need_sort (sortedBy stepSort : option sortspec) : bool :=
  match sortedBy with
  | None => true
  | Some (SortField f) =>
      String.eqb f ""
      || match stepSort with
         | Some (SortField g) => negb (String.eqb f g)
         | Some (SortList gs) => negb (String.eqb f (String.concat "," gs))
         | None => true
         end
  | Some (SortList fs) =>
      match stepSort with
      | Some (SortField g) => negb (String.eqb (String.concat "," fs) g)
      | Some (SortList _) => true
      | None => true
      end
  end.

(** [_.sum]: [undefined] entries are skipped, and the sum of nothing is
    [undefined]. *)
Definition sum (xs : list (option jsscore)) : option jsscore :=
  fold_left
    (fun res current =>
       match current, res with
       | None, _ => res
       | Some c, None => Some c
       | Some c, Some r => Some (SNum (num_add (to_number r) (to_number c)))
       end)
    xs None.

(** The aggregator:
    [steps.length > 0 ? _.sum(steps.map(s => s.score)) / steps.length : 0]. *)
Definition dedupe_score (steps : list (option step_result)) : jsnum :=
  match steps with
  | [] => Num 0
  | _ :: _ =>
      match sum (map (fmap score) steps) with
      | Some x => div_length (to_number x) (length steps)
      | None => NaN
      end
  end.

(** [SameValueZero], which [_.uniq] compares with. *)
Definition same_value_zero (x y : option refid) : bool :=
  match x, y with
  | None, None => true
  | Some (RefNum a), Some (RefNum b) => Nat.eqb a b
  | Some (RefVal u), Some (RefVal v) => strict_eq (Some u) (Some v)
  | _, _ => false
  end.

(** [_.uniq]: the first occurrence of each value is kept. *)
Fixpoint uniq_from (seen : list (option refid)) (l : list (option refid))
    : list (option refid) :=
  match l with
  | [] => []
  | x :: l' =>
      if existsb (same_value_zero x) seen then uniq_from seen l'
      else x :: uniq_from (x :: seen) l'
  end.

(** [_(steps).map('dupeOf').uniq().filter(v => v !== undefined).value()]. *)
Definition dupeOf_list (w : wref) : list refid :=
  omap id (uniq_from [] (map (fun e => e ≫= dupeOf) (steps_of w))).

(** [_.isFunction(m) ? m(ref) : m]. *)
Definition mark_value (m : mark) (ref : record) : jsstring :=
  match m with
  | MarkValue v => v
  | MarkFunction f => f ref
  end.

(** [{...ref}] as an output record. *)
Definition spread (ref : record) : outrecord := OField <$> ref.

Section Run.

Variable comparisons : string -> option comparison_handler.
(** The [mutators] field of the instance. *)
Variable mutator_registry : string -> option mutator_handler.
(** [Dedupe.strategies]. *)
Variable strategies : gmap string strategy.
Variable settings : Settings.t.

(** [_.castArray(mutators).reduce((value, mutator) =>
    this.mutators[mutator].handler(value, original), value)]. *)
Fixpoint reduce_mutators (names : list string) (value : fieldval)
    (original : record) : result fieldval :=
  match names with
  | [] => Ok value
  | mutator :: names' =>
      match mutator_registry mutator with
      | None => Throw TypeError
      | Some handler =>
          value' ← handler value (Some original);
          reduce_mutators names' value' original
      end
  end.

(** [original[field] || '']. *)
Definition raw_value (original : record) (field : string) : fieldval :=
  match original !! field with
  | Some v => if truthy (Some v) then v else FStr []
  | None => FStr []
  end.

(** [_.mapValues(strategy.mutators, ...)], in the order of the keys. *)
Fixpoint mapValues (ms : list (string * mutspec)) (original : record)
    : result (list (string * fieldval)) :=
  match ms with
  | [] => Ok []
  | (field, spec) :: ms' =>
      v ← reduce_mutators (castArray spec) (raw_value original field) original;
      rest ← mapValues ms' original;
      Ok ((field, v) :: rest)
  end.

(** A bookkeeping property of the working record: the value [run] gives
    it, unless a property of that name is spread over it. *)
Definition bookkeeping {A : Type} (spread_props : record) (name : string)
    (over : fieldval -> A) (own : A) : A :=
  match spread_props !! name with
  | Some v => over v
  | None => own
  end.

(** The working record of one input record:
    [{original, index, recNumber: original.refNumber || index + 1,
      dedupe: {steps: []}, ...original, ...mutated}]. *)
Definition working (strat : strategy) (index : nat) (original : record)
    : result wref :=
  mutated ← mapValues (default [] (mutators strat)) original;
  let spread_props := list_to_map mutated ∪ original in
  Ok {| original := original;
        index := bookkeeping spread_props "index" RefVal (RefNum index);
        recNumber :=
          bookkeeping spread_props "recNumber" RefVal
            (match original !! "refNumber" with
             | Some v => if truthy (Some v) then RefVal v
                         else RefNum (index + 1)
             | None => RefNum (index + 1)
             end);
        dedupe := bookkeeping spread_props "dedupe" Overridden (Steps []);
        props := spread_props |}.

(** [refs.map((original, index) => ...)], from position [index] on. *)
Fixpoint normalise (strat : strategy) (index : nat) (input : list record)
    : result (list wref) :=
  match input with
  | [] => Ok []
  | original :: input' =>
      w ← working strat index original;
      ws ← normalise strat (S index) input';
      Ok (w :: ws)
  end.

(** [strategy.steps.forEach((step, stepIndex) => ...)], from step
    [stepIndex] on.  [sortedBy] and [sortedRefs] are the two variables the
    source keeps across steps. *)
Fixpoint sweep (ss : list step) (stepIndex : nat) (sortedBy : option sortspec)
    (sortedRefs : list nat) (st : sweep_state) : result sweep_state :=
  match ss with
  | [] => Ok st
  | s :: ss' =>
      let again := need_sort sortedBy (sort s) in
      let sortedRefs' :=
        if again then Lodash.sortBy (refs st) (sort s) else sortedRefs in
      let sortedBy' := if again then sort s else sortedBy in
      st' ← scan comparisons settings s stepIndex sortedRefs' st 0 1;
      sweep ss' (S stepIndex) sortedBy' sortedRefs' st'
  end.

(** The aggregation stage: each working record with its [dedupe.score].
    Reading [steps.length] throws when [dedupe] is a field value. *)
Fixpoint aggregate (rs : list wref) : result (list (wref * jsnum)) :=
  match rs with
  | [] => Ok []
  | w :: rs' =>
      match dedupe w with
      | Overridden _ => Throw TypeError
      | Steps l =>
          rest ← aggregate rs';
          Ok ((w, dedupe_score l) :: rest)
      end
  end.

(** What each action attaches, given the aggregated working record. *)
Definition stats_of (r : wref * jsnum) : outval :=
  OStats r.2 (dupeOf_list r.1).

(** [refs[refIndex].dedupe.score >= threshold ? markDupe : markOk]. *)
Definition mark_of (r : wref * jsnum) (ref : record) : outval :=
  if num_leb (Num (Settings.threshold settings)) r.2
  then OMark (mark_value (Settings.markDupe settings) ref)
  else OMark (mark_value (Settings.markOk settings) ref).

(** [refs[refIndex].dedupe.score < threshold]. *)
Definition kept (r : wref * jsnum) : bool :=
  num_ltb r.2 (Num (Settings.threshold settings)).

(** [output.map((ref, refIndex) => ({...ref, [actionField]: f(refs[refIndex], ref)}))],
    from position [refIndex] on. *)
Fixpoint decorate (f : wref * jsnum -> record -> outval)
    (rs : list (wref * jsnum)) (refIndex : nat) (output : list record)
    : result (list outrecord) :=
  match output with
  | [] => Ok []
  | ref :: output' =>
      match rs !! refIndex with
      | None => Throw TypeError
      | Some r =>
          rest ← decorate f rs (S refIndex) output';
          Ok (<[Settings.actionField settings := f r ref]> (spread ref) :: rest)
      end
  end.

(** [output.filter((ref, refIndex) => refs[refIndex].dedupe.score < threshold)],
    from position [refIndex] on. *)
Fixpoint filter_kept (rs : list (wref * jsnum)) (refIndex : nat)
    (output : list record) : result (list record) :=
  match output with
  | [] => Ok []
  | ref :: output' =>
      match rs !! refIndex with
      | None => Throw TypeError
      | Some r =>
          rest ← filter_kept rs (S refIndex) output';
          Ok (if kept r then ref :: rest else rest)
      end
  end.

(** The [switch] on [settings.action].  The last case is what the
    [switch] falls out with on any other value: [run] rejects those
    before it gets here. *)
Definition dispatch (rs : list (wref * jsnum)) (output : list record)
    : result (list outrecord) :=
  if Nat.eqb (Settings.action settings) ACTIONS.STATS then
    decorate (fun r _ => stats_of r) rs 0 output
  else if Nat.eqb (Settings.action settings) ACTIONS.MARK then
    decorate mark_of rs 0 output
  else if Nat.eqb (Settings.action settings) ACTIONS.DELETE then
    kept_refs ← filter_kept rs 0 output;
    Ok (map spread kept_refs)
  else Ok [].

(** The two checks on the settings that open [run]. *)
Definition check_settings : result unit :=
  if negb (existsb (Nat.eqb (Settings.action settings)) ACTIONS.values) then
    Throw (Error ("Invalid action " +:+ dquote
                  +:+ pretty (Settings.action settings) +:+ dquote
                  +:+ " - choose one action from Dedupe.ACTIONS"))
  else if negb (existsb (Nat.eqb (Settings.dupeRef settings)) DUPEREF.values) then
    Throw (Error ("Invalid dupeRef " +:+ dquote
                  +:+ pretty (Settings.dupeRef settings) +:+ dquote
                  +:+ " - choose one action from Dedupe.DUPEREF"))
  else Ok ().

(** The sanity checks on the strategy: it is registered and its [steps]
    is an array. *)
Definition check_strategy : result (strategy * list step) :=
  match strategies !! Settings.strategy settings with
  | None => Throw (Error "Unknown strategy specified")
  | Some strat =>
      match steps strat with
      | None => Throw (Error "Invalid strategy schema")
      | Some ss => Ok (strat, ss)
      end
  end.

(** The validation stage. *)
Definition validate (strat : strategy) : result unit :=
  if Settings.validateStrategy settings then
    sErrs ← validateStrategy strat;
    match sErrs with
    | VTrue => Ok ()
    | VErrors errs =>
        Throw (Error ("Invalid strategy - " +:+ String.concat ", " errs))
    end
  else Ok ().

(** [run] up to the end of the sweep. *)
Definition run_sweep (input : list record) : result sweep_state :=
  _ ← check_settings;
  '(strat, ss) ← check_strategy;
  _ ← validate strat;
  rs ← normalise strat 0 input;
  sweep ss 0 None [] {| refs := rs; calls := 0; pairs := 0 |}.

(** [run(input)] on an array of records. *)
Definition run (input : list record) : result (list outrecord) :=
  st ← run_sweep input;
  scored ← aggregate (refs st);
  dispatch scored input.

End Run.

(** What a working record is apart from [dedupe.steps]: the scan never
    writes it. *)
Definition identity_of (w : wref) : refid * refid * record :=
  (index w, recNumber w, props w).

(** A step that cannot make the comparison of two working records throw:
    it has its [fields], and its comparison is registered with a handler
    that returns on every pair of values. *)
Definition never_throws (comparisons : string -> option comparison_handler)
    (s : step) : Prop :=
  is_Some (fields s)
  ∧ ∃ h, handler_of comparisons s = Ok h ∧ ∀ k a b, ∃ x, h k a b = Ok x.

(** The cursors after a pair that scores 0, in the words of the
    specification's summary of the scan: with equal sort-key values [n]
    advances by one and the anchor stays; otherwise [i] advances by one and
    [n] is reset to [i + 1]. *)
Definition stated_cursors (equal_keys : bool) (i n : nat) : nat * nat :=
  if equal_keys then (i, S n) else (S i, S (S i)).

(** Whether two working records have equal sort-key values under a step:
    the values that [_.sortBy] sorts by tell them apart or not. *)
Definition equal_sort_keys (s : step) (a b : wref) : bool :=
  bool_decide (Forall2 (fun x y => Lodash.compareAscending x y = 0%Z)
                 (Lodash.criteria (sort s) a) (Lodash.criteria (sort s) b)).

(** ** Further definitions *)

(** The two entries a hit writes: the anchor's, when it has none for the
    step, and the link of the other record to the anchor. *)
Definition anchor_entry (settings : Settings.t) (x : jsscore) : step_result :=
  {| score := if Settings.markOriginal settings then x else SNum (Num 0);
     dupeOf := None |}.

Definition link_entry (settings : Settings.t) (x : jsscore) (a : wref)
    : step_result :=
  {| score := x;
     dupeOf := Some (reference_to settings a) |}.

(** An entry as the scan writes it: a link carries a score above 0; an
    anchor carries 0, or, under [markOriginal], a score above 0. *)
Definition written_entry (settings : Settings.t) (e : step_result) : Prop :=
  match dupeOf e with
  | Some _ => score_gt (score e) (SNum (Num 0)) = true
  | None =>
      if Settings.markOriginal settings
      then score_gt (score e) (SNum (Num 0)) = true
      else score e = SNum (Num 0)
  end.

(** A [steps] array as the sweep leaves it: it does not end in a hole, and
    its entries are as the scan writes them. *)
Definition steps_wf (settings : Settings.t) (l : list (option step_result)) : Prop :=
  (l = [] ∨ ∃ e, last l = Some (Some e))
  ∧ ∀ e, Some e ∈ l → written_entry settings e.

(** The pairs [(i', n')] with [i' < n' < len] from [(i, n)] on, in the
    order the scan can visit them, doubled. *)
Definition pairs_left (len i n : nat) : nat :=
  2 * (len - n) + (len - S i) * (len - S (S i)).

(** How the entries of two states of the scan of a step relate: those of
    the other steps are the same, and an entry of the step is still there,
    with a score that is not lower. *)
Definition entries_grow (stepIndex : nat) (rs rs' : list wref) : Prop :=
  (∀ pos k, k ≠ stepIndex → get_entry rs' pos k = get_entry rs pos k)
  ∧ ∀ pos e,
      get_entry rs pos stepIndex = Some e →
      ∃ e', get_entry rs' pos stepIndex = Some e'
            ∧ (e' = e ∨ score_ge (score e') (score e) = true).

(** [set('action', value)]. *)
Definition set_action (value : nat) (settings : Settings.t) : Settings.t := {|
  Settings.strategy := Settings.strategy settings;
  Settings.validateStrategy := Settings.validateStrategy settings;
  Settings.action := value;
  Settings.actionField := Settings.actionField settings;
  Settings.threshold := Settings.threshold settings;
  Settings.markOk := Settings.markOk settings;
  Settings.markDupe := Settings.markDupe settings;
  Settings.dupeRef := Settings.dupeRef settings;
  Settings.fieldWeight := Settings.fieldWeight settings;
  Settings.markOriginal := Settings.markOriginal settings;
|}.

(** What MARK attaches to a record whose score is [q]. *)
Definition marked (settings : Settings.t) (ref : record) (q : Q) : outrecord :=
  <[Settings.actionField settings :=
      OMark (mark_value (if Qle_bool (Settings.threshold settings) q
                         then Settings.markDupe settings
                         else Settings.markOk settings) ref)]> (spread ref).

(** The records DELETE keeps, given the score of each. *)
Definition below_threshold (settings : Settings.t) (input : list record)
    (qs : list Q) : list record :=
  fst <$> List.filter (fun p => negb (Qle_bool (Settings.threshold settings) p.2))
            (zip input qs).

(** The number a score is, where it is one. *)
Definition number_of (x : jsnum) : Q :=
  match x with
  | Num q => q
  | NaN => 0
  end.

(** What [compareAscending] orders by: the string of a value, with
    [undefined] after every string. *)
Definition sort_rank (x : jsval) : option jsstring := to_string <$> x.

Definition rank_lt (r1 r2 : option jsstring) : Prop :=
  match r1, r2 with
  | Some s, Some t => jsstring_ltb s t = true
  | Some _, None => True
  | None, _ => False
  end.

(** Values that are [===] hold the same string. *)
Definition coherent (x y : jsval) : Prop :=
  strict_eq x y = true → sort_rank x = sort_rank y.

(** The order [_.sortBy] sorts into, said without its comparer: the
    strings of the sort-key values decide, field by field, [undefined]
    after every string; records that tie on every field stay in the order
    of their positions. *)
Fixpoint sorts_before (X Y : list jsval) (p q : nat) : Prop :=
  match X, Y with
  | x :: X', y :: Y' =>
      rank_lt (sort_rank x) (sort_rank y)
      ∨ (sort_rank x = sort_rank y ∧ sorts_before X' Y' p q)
  | _, _ => (p < q)%nat
  end.

(** A page number: one digit or more. *)
Definition page_number (s : jsstring) : Prop :=
  s ≠ [] ∧ Forall (fun c => Mutators.is_digit c = true) s.

(** Whether a tag opens where [<] is followed by [s]: the pattern asks for
    one code unit or more other than [>] and then for [>], so [s] must not
    begin with [>] and must hold a [>]. *)
Definition opens_tag (s : jsstring) : bool :=
  match s with
  | d :: _ => negb (N.eqb d 62) && existsb (N.eqb 62) s
  | [] => false
  end.

(** [s.replace(/(<([^>]+)>)/ig, "")], read from left to right.  Outside a
    tag, a [<] that opens one starts it and any other code unit is copied;
    inside a tag, everything up to and with the first [>] is dropped (the
    class [[^>]] cannot run past it, and the pattern is satisfied there). *)
Fixpoint strip_tags (in_tag : bool) (s : jsstring) : jsstring :=
  match s with
  | [] => []
  | c :: s' =>
      if in_tag then strip_tags (negb (N.eqb c 62)) s'
      else if N.eqb c 60 && opens_tag s' then strip_tags true s'
      else c :: strip_tags false s'
  end.

(** [v => v.replace(/(<([^>]+)>)/ig, "")]; an array has no [replace]. *)
Definition stripHtmlTags (v : fieldval) : result fieldval :=
  match v with
  | FStr s => Ok (FStr (strip_tags false s))
  | FArr _ _ => Throw TypeError
  end.

(** lodash's [reHasUnicode]: a zero-width joiner, a surrogate, a combining
    mark or a variation selector. *)
Definition is_unicode_unit (c : N) : bool :=
  N.eqb c 8205 || (N.leb 55296 c && N.leb c 57343) || Mutators.is_combo_mark c
  || N.eqb c 65038 || N.eqb c 65039.

Definition hasUnicode (s : jsstring) : bool := existsb is_unicode_unit s.

Section Trim.

(** lodash's [unicodeToArray] splits a string with such code units into
    symbols (a base character with its marks, a surrogate pair, a joined
    sequence); it is a library function outside the repository. *)
Variable unicodeToArray : jsstring -> list jsstring.

(** lodash's [stringToArray]. *)
Definition stringToArray (s : jsstring) : list jsstring :=
  if hasUnicode s then unicodeToArray s else map (fun c => [c]) s.

(** [baseIndexOf(chrSymbols, symbol, 0) > -1]. *)
Definition among (chrSymbols : list jsstring) (symbol : jsstring) : bool :=
  existsb (jsstring_eqb symbol) chrSymbols.

(** lodash's [charsStartIndex]: the index of the first symbol that is not
    among [chrSymbols] (the length, when there is none). *)
Fixpoint charsStartIndex (strSymbols chrSymbols : list jsstring) : nat :=
  match strSymbols with
  | symbol :: rest =>
      if among chrSymbols symbol then S (charsStartIndex rest chrSymbols) else 0
  | [] => 0
  end.

(** lodash's [charsEndIndex], plus one: one past the index of the last
    symbol that is not among [chrSymbols] (0, when there is none). *)
Definition charsEnd (strSymbols chrSymbols : list jsstring) : nat :=
  length strSymbols - charsStartIndex (reverse strSymbols) chrSymbols.

(** lodash's [_.trim(string, chars)] for a [chars] that is given and not
    empty. *)
Definition trim (string chars : jsstring) : jsstring :=
  match string with
  | [] => []
  | _ :: _ =>
      let strSymbols := stringToArray string in
      let chrSymbols := stringToArray chars in
      let start := charsStartIndex strSymbols chrSymbols in
      let end_ := charsEnd strSymbols chrSymbols in
      List.concat (firstn (end_ - start) (skipn start strSymbols))
  end.

(** [v => _.trim(v, '()[]{}')]; lodash makes a string of its argument. *)
Definition removeEnclosingBrackets (v : fieldval) : result fieldval :=
  Ok (FStr (trim (to_string v) (lit "()[]{}"))).

End Trim.

(** The six brackets. *)
Definition is_bracket (c : N) : bool :=
  N.eqb c 40 || N.eqb c 41 || N.eqb c 91 || N.eqb c 93 || N.eqb c 123 || N.eqb c 125.

(** A [steps] array whose scores are numbers at or below 1. *)
Definition steps_bounded (l : list (option step_result)) : Prop :=
  ∀ e, Some e ∈ l → ∃ q, to_number (score e) = Num q ∧ (q <= 1)%Q.

(** What [deburr] makes of the code units of a string. *)
Definition deburr_units (s : jsstring) : jsstring :=
  List.filter (fun c => negb (Mutators.is_combo_mark c))
    (flat_map Mutators.deburrLetter s).

(** ** Regular expressions *)

(** The patterns of [authorRewrite] and [authorRewriteSingle], and the
    backtracking matcher of the language on them: alternatives are tried in
    order, a greedy quantifier tries one more round before it tries the
    rest of the pattern, a lazy one the other way round. *)
Module Regex.

Inductive regex : Type :=
| Eps
| Chr (class : N -> bool)
| Seq (r1 r2 : regex)
| Opt (r : regex)
| Star (greedy : bool) (r : regex)
| Group (name : string) (r : regex)
| Bol
| Eol.

(** [r+] and [r+?]. *)
Definition Plus (greedy : bool) (r : regex) : regex := Seq r (Star greedy r).

(** A pattern written as the sequence of its terms. *)
Definition cat (rs : list regex) : regex := foldr Seq Eps rs.

(** The named groups that took part in a match, the last one bound
    first. *)
Definition captures : Type := list (string * jsstring).

Definition group (caps : captures) (name : string) : jsstring :=
  default [] (snd <$> List.find (fun c => String.eqb (fst c) name) caps).

Section Matcher.

Variable input : jsstring.

(** The matcher of [r] at [pos], with the continuation [k] for the rest of
    the pattern.  A round of a quantifier that matches nothing is turned
    down, as the language does; so each round moves on, and the rounds left
    are bounded by the code units left. *)
Fixpoint matcher (r : regex) (pos : nat) (caps : captures)
    (k : nat -> captures -> option (nat * captures)) : option (nat * captures) :=
  match r with
  | Eps => k pos caps
  | Chr class =>
      match input !! pos with
      | Some c => if class c then k (S pos) caps else None
      | None => None
      end
  | Seq r1 r2 =>
      matcher r1 pos caps (fun pos' caps' => matcher r2 pos' caps' k)
  | Opt r1 =>
      match matcher r1 pos caps
              (fun pos' caps' => if decide (pos < pos')%nat then k pos' caps' else None)
      with
      | Some m => Some m
      | None => k pos caps
      end
  | Star greedy r1 =>
      (fix rounds (left : nat) (pos : nat) (caps : captures)
         : option (nat * captures) :=
         match left with
         | O => k pos caps
         | S left' =>
             let another :=
               matcher r1 pos caps
                 (fun pos' caps' =>
                    if decide (pos < pos')%nat then rounds left' pos' caps'
                    else None) in
             if greedy then
               match another with
               | Some m => Some m
               | None => k pos caps
               end
             else
               match k pos caps with
               | Some m => Some m
               | None => another
               end
         end) (S (length input - pos)) pos caps
  | Group name r1 =>
      matcher r1 pos caps
        (fun pos' caps' =>
           k pos' ((name, firstn (pos' - pos) (skipn pos input)) :: caps'))
  | Bol => if decide (pos = 0)%nat then k pos caps else None
  | Eol => if decide (pos = length input) then k pos caps else None
  end.

(** A match that starts at [pos]: where it ends, and its groups. *)
Definition match_at (r : regex) (pos : nat) : option (nat * captures) :=
  matcher r pos [] (fun e caps => Some (e, caps)).

(** [r.exec(input)] for a pattern without the flags [g] and [y]: the first
    start, from 0 on, at which the pattern matches. *)
Definition exec (r : regex) : option captures :=
  snd <$> head (omap (match_at r) (seq 0 (S (length input)))).

(** [r.test(input)]. *)
Definition test (r : regex) : bool := bool_decide (is_Some (exec r)).

(** The loop of [input.split(r)]: [p] is where the piece under way starts,
    [q] where a separator is looked for.  A separator that ends at [p]
    is passed over. *)
Fixpoint split_from (r : regex) (left p q : nat) : list jsstring :=
  match left with
  | O => [skipn p input]
  | S left' =>
      if decide (q < length input)%nat then
        match match_at r q with
        | None => split_from r left' p (S q)
        | Some (e, _) =>
            let e := Nat.min e (length input) in
            if decide (e = p) then split_from r left' p (S q)
            else firstn (q - p) (skipn p input) :: split_from r left' e e
        end
      else [skipn p input]
  end.

(** [input.split(r)] for a pattern without groups.  Of two rounds of the
    loop one at least moves [q] on, which bounds the rounds. *)
Definition split (r : regex) : list jsstring :=
  match input with
  | [] => match match_at r 0 with
          | Some _ => []
          | None => [[]]
          end
  | _ :: _ => split_from r (2 * S (length input)) 0 0
  end.

End Matcher.

(** The classes of the patterns. *)
Definition upper : regex := Chr (fun c => N.leb 65 c && N.leb c 90).
Definition lower : regex := Chr (fun c => N.leb 97 c && N.leb c 122).
Definition space : regex := Chr Mutators.is_space.
(** [.]: any code unit but a line terminator. *)
Definition any : regex := Chr (fun c => negb (Mutators.is_line_terminator c)).
(** One character of a literal. *)
Definition chr (c : string) : regex :=
  Chr (fun x => existsb (N.eqb x) (lit c)).
(** One letter under the flag [i]: either case (a code unit beyond ASCII
    is never taken for an ASCII letter). *)
Definition letter (small capital : string) : regex :=
  Chr (fun x => existsb (N.eqb x) (lit small ++ lit capital)).

(** [[A-Z][a-z]+]. *)
Definition word : regex := Seq upper (Plus true lower).

End Regex.

(** ** The mutators that rewrite names and case *)

Module Dedupe.

Import Regex.

(** [/;/], [/\s*;\s*/] and [/\s*,\s*/]. *)
Definition semicolon : regex := chr ";".
Definition semicolons : regex := cat [Star true space; chr ";"; Star true space].
Definition commas : regex := cat [Star true space; chr ","; Star true space].

(** [/^et\.?\s*al/i]. *)
Definition et_al : regex :=
  cat [Bol; letter "e" "E"; letter "t" "T"; Opt (chr "."); Star true space;
       letter "a" "A"; letter "l" "L"].

(** [/^(?<last>[A-Z][a-z]+),?\s+(?<first>[A-Z])/]. *)
Definition last_comma_first : regex :=
  cat [Bol; Group "last" word; Opt (chr ","); Plus true space;
       Group "first" upper].

(** [/^(?<first>[A-Z][a-z]+)\s+(?<last>[A-Z][a-z]+)$/]. *)
Definition first_last : regex :=
  cat [Bol; Group "first" word; Plus true space; Group "last" word; Eol].

(** [/^(?<first>[A-Z])\.?\s+(?<middle>.*?)\s*(?<last>[A-Z][a-z]+)$/]. *)
Definition initial_last : regex :=
  cat [Bol; Group "first" upper; Opt (chr "."); Plus true space;
       Group "middle" (Star false any); Star true space; Group "last" word; Eol].

(** [/^(?<first>[A-Z][a-z]+?)\s+(?<middle>.*?)\s*(?<last>[A-Z][a-z]+)$/]. *)
Definition first_middle_last : regex :=
  cat [Bol; Group "first" (Seq upper (Plus false lower)); Plus true space;
       Group "middle" (Star false any); Star true space; Group "last" word; Eol].

(** [/^(?<last>[A-Z][a-z]+)\s+(?<middle>.*?)\s*(?<first>[A-Z]\.?)/]. *)
Definition last_initial : regex :=
  cat [Bol; Group "last" word; Plus true space; Group "middle" (Star false any);
       Star true space; Group "first" (Seq upper (Opt (chr ".")))].

(** [/^(?<last>[A-Za-z\s]+),+\s+(?<first>[A-Z])/]. *)
Definition names_comma_first : regex :=
  cat [Bol;
       Group "last"
         (Plus true (Chr (fun c => Mutators.is_alpha c || Mutators.is_space c)));
       Plus true (chr ","); Plus true space; Group "first" upper].

(** [formats.reduce((found, re) => found || re.exec(name), false)]. *)
Fixpoint first_match (formats : list regex) (name : jsstring) : option captures :=
  match formats with
  | [] => None
  | re :: formats' =>
      match exec name re with
      | Some caps => Some caps
      | None => first_match formats' name
      end
  end.

(** lodash's [_.dropRightWhile]: the list without the elements at its end
    that [p] holds of. *)
Definition dropRightWhile {A : Type} (p : A -> bool) (l : list A) : list A :=
  foldr (fun x kept =>
           match kept with
           | [] => if p x then [] else [x]
           | _ :: _ => x :: kept
           end) [] l.

Definition is_ascii (s : jsstring) : bool := forallb (fun c => N.ltb c 128) s.

Section Language.

(** The case mappings of the language on a string with a code unit beyond
    ASCII, and lodash's [unicodeToArray]: they lie outside the
    repository. *)
Variable upper_beyond_ascii : jsstring -> jsstring.
Variable lower_beyond_ascii : jsstring -> jsstring.
Variable unicodeToArray : jsstring -> list jsstring.

(** [s.toUpperCase()] and [s.toLowerCase()]: on ASCII, the letters change
    case and nothing else changes. *)
Definition toUpperCase (s : jsstring) : jsstring :=
  if is_ascii s
  then map (fun c => if N.leb 97 c && N.leb c 122 then (c - 32)%N else c) s
  else upper_beyond_ascii s.

Definition toLowerCase (s : jsstring) : jsstring :=
  if is_ascii s
  then map (fun c => if N.leb 65 c && N.leb c 90 then (c + 32)%N else c) s
  else lower_beyond_ascii s.

(** lodash's [_.upperFirst]: the first symbol in upper case, then the
    rest. *)
Definition upperFirst (s : jsstring) : jsstring :=
  if hasUnicode s then
    let symbols := unicodeToArray s in
    toUpperCase (default [] (head symbols)) ++ List.concat (skipn 1 symbols)
  else toUpperCase (firstn 1 s) ++ skipn 1 s.

(** [format.groups.first.substr(0, 1).toUpperCase() + '. '
     + _.upperFirst(format.groups.last)]. *)
Definition initial_and_last (format : captures) : jsstring :=
  toUpperCase (firstn 1 (group format "first")) ++ lit ". "
  ++ upperFirst (group format "last").

(** [authorRewrite]: the names are split at semicolons when there is one,
    at commas otherwise; what looks like [et al] is dropped from the end;
    each name that fits a format becomes [F. Last]. *)
Definition authorRewrite (v : fieldval) : result fieldval :=
  let s := to_string v in
  let semi := test s semicolon in
  let names :=
    dropRightWhile (fun name => test name et_al)
      (split s (if semi then semicolons else commas)) in
  let formats :=
    if semi then [last_comma_first]
    else [first_last; initial_last; first_middle_last; last_initial] in
  Ok (FStr (join (lit ", ")
              (map (fun name =>
                      match first_match formats name with
                      | Some format => initial_and_last format
                      | None => name
                      end) names))).

(** [authorRewriteSingle]: one name; a value that fits no format is
    returned as it is. *)
Definition authorRewriteSingle (v : fieldval) : result fieldval :=
  match first_match
          [names_comma_first; first_last; initial_last; first_middle_last;
           last_initial] (to_string v) with
  | Some format => Ok (FStr (initial_and_last format))
  | None => Ok v
  end.

(** [v => v.toLowerCase()]; an array has no [toLowerCase]. *)
Definition noCase (v : fieldval) : result fieldval :=
  match v with
  | FStr s => Ok (FStr (toLowerCase s))
  | FArr _ _ => Throw TypeError
  end.

(** The [mutators] field of an instance: every handler of the source, by
    name. *)
Definition mutators (name : string) : option mutator_handler :=
  if String.eqb name "authorRewrite" then Some (fun v _ => authorRewrite v)
  else if String.eqb name "authorRewriteSingle"
       then Some (fun v _ => authorRewriteSingle v)
  else if String.eqb name "noCase" then Some (fun v _ => noCase v)
  else if String.eqb name "removeEnclosingBrackets"
       then Some (fun v _ => removeEnclosingBrackets unicodeToArray v)
  else if String.eqb name "stripHtmlTags" then Some (fun v _ => stripHtmlTags v)
  else Mutators.builtin name.

End Language.

End Dedupe.

(** ** The analysis of [test/analysis.js] *)

Module Analysis.

(** The settings the analysis runs a strategy with. *)
Definition settings (strategy : string) : Settings.t := {|
  Settings.strategy := strategy;
  Settings.validateStrategy := false;
  Settings.action := ACTIONS.STATS;
  Settings.actionField := "result";
  Settings.threshold := 1 # 100;
  Settings.markOk := MarkValue (lit "OK");
  Settings.markDupe := MarkValue (lit "DUPE");
  Settings.dupeRef := DUPEREF.INDEX;
  Settings.fieldWeight := FIELDWEIGHT.MINIMUM;
  Settings.markOriginal := true;
|}.

(** The threshold of the analysis. *)
Definition threshold : Q := 1 # 100.

(** What the analysis reads of a reference of the output: [ref.caption]
    and [ref.result] ([None] is [undefined]). *)
Record analysed : Type := {
  caption : option outval;
  result : option outval;
}.

Definition read (o : outrecord) : analysed :=
  {| caption := o !! "caption"; result := o !! "result" |}.

(** What the body of the [forEach] can throw: the [TypeError] of a read
    off [undefined], and the error of the last branch, whose message prints
    the caption and the result. *)
Inductive thrown : Type :=
| ReadOfUndefined
| Mismatched (c r : option outval).

Definition bind {A B : Type} (r : thrown + A) (k : A -> thrown + B) : thrown + B :=
  match r with
  | inl e => inl e
  | inr a => k a
  end.

(** [ref.caption == 'Duplicate']; an object is [==] to no string. *)
Definition is_duplicate (ref : analysed) : bool :=
  match caption ref with
  | Some (OField v) => loose_eq (Some v) (Some (FStr (lit "Duplicate")))
  | Some (OMark v) => jsstring_eqb v (lit "Duplicate")
  | Some (OStats _ _) => false
  | None => false
  end.

(** [!ref.caption]. *)
Definition no_caption (ref : analysed) : bool :=
  match caption ref with
  | Some (OField v) => negb (truthy (Some v))
  | Some (OMark v) => negb (truthy (Some (FStr v)))
  | Some (OStats _ _) => false
  | None => true
  end.

(** [ref.result.score]: the read off a missing [result] throws; a string
    or an array has no [score], and [undefined] compares like [NaN]. *)
Definition score_of (ref : analysed) : thrown + jsnum :=
  match result ref with
  | None => inl ReadOfUndefined
  | Some (OStats x _) => inr x
  | Some (OField _) => inr NaN
  | Some (OMark _) => inr NaN
  end.

(** [ref.result.dupeOf] ([None] is [undefined]). *)
Definition dupeOf_of (ref : analysed) : thrown + option (list refid) :=
  match result ref with
  | None => inl ReadOfUndefined
  | Some (OStats _ ds) => inr (Some ds)
  | Some (OField _) => inr None
  | Some (OMark _) => inr None
  end.

(** [ref.result == 'DUPE']. *)
Definition result_is_dupe (ref : analysed) : bool :=
  match result ref with
  | Some (OField v) => loose_eq (Some v) (Some (FStr (lit "DUPE")))
  | Some (OMark v) => jsstring_eqb v (lit "DUPE")
  | Some (OStats _ _) => false
  | None => false
  end.

(** [ref.result.score > threshold] and [ref.result.score < threshold]. *)
Definition above (ref : analysed) : thrown + bool :=
  bind (score_of ref) (fun x => inr (num_ltb (Num threshold) x)).

Definition below (ref : analysed) : thrown + bool :=
  bind (score_of ref) (fun x => inr (num_ltb x (Num threshold))).

(** [c && k]: [k] is read only when [c] holds. *)
Definition guarded (c : bool) (k : thrown + bool) : thrown + bool :=
  if c then k else inr false.

(** Whether a value of a [dupeOf] list is truthy. *)
Definition refid_truthy (d : refid) : bool :=
  match d with
  | RefNum n => negb (Nat.eqb n 0)
  | RefVal v => truthy (Some v)
  end.

Section Count.

(** [v == index] for a string or an array [v] and the number [index]: the
    language makes a number of [v] first. *)
Variable equals_number : fieldval -> nat -> bool.

(** [reference.result.dupeOf && (reference.result.dupeOf[0] == index)]. *)
Definition names (index : nat) (reference : analysed) : thrown + bool :=
  bind (dupeOf_of reference) (fun ds =>
    inr match ds with
        | None => false
        | Some ds =>
            match head ds with
            | Some (RefNum n) => Nat.eqb n index
            | Some (RefVal v) => equals_number v index
            | None => false
            end
        end).

(** [refs.find(reference => ...)], for what it can throw: nothing uses
    what it finds. *)
Fixpoint find_names (index : nat) (refs : list analysed) : thrown + unit :=
  match refs with
  | [] => inr tt
  | reference :: refs' =>
      bind (names index reference) (fun found =>
        if found then inr tt else find_names index refs')
  end.

(** The look-up of what a false positive is a duplicate of:
    [ref.result.dupeOf && ref.result.dupeOf[0]] picks [refs[...]],
    anything else searches [refs]. *)
Definition look_up (refs : list analysed) (index : nat) (ref : analysed)
    : thrown + unit :=
  bind (dupeOf_of ref) (fun ds =>
    if match ds with
       | Some ds => default false (refid_truthy <$> head ds)
       | None => false
       end
    then inr tt
    else find_names index refs).

Record stats : Type := {
  nonDupeCorrect : nat;
  nonDupeWrong : nat;
  dupeCorrect : nat;
  dupeWrong : nat;
}.

(** The body of the [forEach], called as [(ref, index, refs)]. *)
Definition count (refs : list analysed) (index : nat) (st : stats)
    (ref : analysed) : thrown + stats :=
  bind (guarded (is_duplicate ref) (above ref)) (fun dupe_above =>
  if dupe_above then
    inr {| nonDupeCorrect := nonDupeCorrect st; nonDupeWrong := nonDupeWrong st;
           dupeCorrect := S (dupeCorrect st); dupeWrong := dupeWrong st |}
  else
  bind (guarded (no_caption ref) (above ref)) (fun plain_above =>
  if plain_above then
    bind (look_up refs index ref) (fun _ =>
    inr {| nonDupeCorrect := nonDupeCorrect st; nonDupeWrong := S (nonDupeWrong st);
           dupeCorrect := dupeCorrect st; dupeWrong := dupeWrong st |})
  else
  bind (guarded (no_caption ref) (below ref)) (fun plain_below =>
  if plain_below then
    inr {| nonDupeCorrect := S (nonDupeCorrect st); nonDupeWrong := nonDupeWrong st;
           dupeCorrect := dupeCorrect st; dupeWrong := dupeWrong st |}
  else
  bind (guarded (is_duplicate ref) (below ref)) (fun dupe_below =>
  if dupe_below then
    inr {| nonDupeCorrect := nonDupeCorrect st; nonDupeWrong := nonDupeWrong st;
           dupeCorrect := dupeCorrect st; dupeWrong := S (dupeWrong st) |}
  else if result_is_dupe ref then inl (Mismatched (caption ref) (result ref))
  else inr st)))).

(** [refs.forEach(...)] from the reference at [index] on. *)
Fixpoint tally_from (refs rest : list analysed) (index : nat) (st : stats)
    : thrown + stats :=
  match rest with
  | [] => inr st
  | ref :: rest' =>
      bind (count refs index st ref) (tally_from refs rest' (S index))
  end.

Definition tally (refs : list analysed) : thrown + stats :=
  tally_from refs refs 0
    {| nonDupeCorrect := 0; nonDupeWrong := 0; dupeCorrect := 0; dupeWrong := 0 |}.

End Count.

(** [a / b || 0] on two counts: [0 / 0] is [NaN], which [||] turns into 0. *)
Definition ratio (a b : nat) : Q :=
  match b with
  | O => 0
  | S _ => inject_Z (Z.of_nat a) / inject_Z (Z.of_nat b)
  end.

Definition accuracy (st : stats) : Q :=
  ratio (dupeCorrect st + nonDupeCorrect st)
    (dupeCorrect st + nonDupeCorrect st + dupeWrong st + nonDupeWrong st).

Definition precision (st : stats) : Q :=
  ratio (dupeCorrect st) (dupeCorrect st + nonDupeWrong st).

Definition recall (st : stats) : Q :=
  ratio (dupeCorrect st) (dupeCorrect st + dupeWrong st).

(** [2 * ((precision * recall) / (precision + recall)) || 0]. *)
Definition f1 (st : stats) : Q :=
  if Qeq_bool (precision st + recall st) 0 then 0
  else 2 * ((precision st * recall st) / (precision st + recall st)).

(** The references the analysis counts: those it can tell duplicate or
    not, with a score on one side of the threshold. *)
Definition counted (ref : analysed) : bool :=
  match score_of ref with
  | inr x =>
      (is_duplicate ref || no_caption ref)
      && (num_ltb (Num threshold) x || num_ltb x (Num threshold))
  | inl _ => false
  end.

End Analysis.

(** The references counted, over the four counters. *)
Definition counted_total (st : Analysis.stats) : nat :=
  Analysis.nonDupeCorrect st + Analysis.nonDupeWrong st
  + Analysis.dupeCorrect st + Analysis.dupeWrong st.

(** ** Concrete references, steps and strategies used below *)

Module Examples.

(** A working record as [run] builds it when no mutator applies. *)
Definition plain (i : nat) (r : record) : wref :=
  {| original := r; index := RefNum i; recNumber := RefNum (i + 1);
     dedupe := Steps []; props := r |}.

Definition exact_step (fs : list string) (key : sortspec) : step :=
  {| fields := Some fs; sort := Some key; comparison := Some "exact";
     skipOmitted := None |}.

Definition averaging : Settings.t := {|
  Settings.strategy := "clark";
  Settings.validateStrategy := true;
  Settings.action := ACTIONS.STATS;
  Settings.actionField := "dedupe";
  Settings.threshold := 1 # 10;
  Settings.markOk := MarkValue (lit "OK");
  Settings.markDupe := MarkValue (lit "DUPE");
  Settings.dupeRef := DUPEREF.INDEX;
  Settings.fieldWeight := FIELDWEIGHT.AVERAGE;
  Settings.markOriginal := false;
|}.

(** Two references that agree on title and year. *)
Definition sweep2020 : record :=
  {[ "title" := FStr (lit "Sweep"); "year" := FStr (lit "2020") ]}.

Definition title_and_year : step :=
  exact_step ["title"; "year"] (SortField "title").

(** Two references with one title and two DOIs, under a strategy whose
    first step looks at the DOI and whose second step looks at the title. *)
Definition paper_a : record :=
  {[ "doi" := FStr (lit "10.1000/1"); "title" := FStr (lit "Sweep") ]}.
Definition paper_b : record :=
  {[ "doi" := FStr (lit "10.1000/2"); "title" := FStr (lit "Sweep") ]}.

Definition doi_then_title : strategy := {|
  title := Some "DOI, then title";
  description := Some "Two exact steps";
  mutators := Some [("doi", MutOne "doiRewrite")];
  steps := Some [exact_step ["doi"] (SortField "doi");
                 exact_step ["title"] (SortField "title")];
|}.

Definition catalog : gmap string strategy := {[ "clark" := doi_then_title ]}.

(** Three references with three titles, swept by a step whose sort key is
    a list of field names. *)
Definition by_title_and_year : step :=
  exact_step ["doi"] (SortList ["title"; "year"]).

Definition alpha : record := {[ "title" := FStr (lit "Alpha") ]}.
Definition beta : record := {[ "title" := FStr (lit "Beta") ]}.
Definition gamma : record := {[ "title" := FStr (lit "Gamma") ]}.

Definition three_titles : sweep_state :=
  {| refs := [plain 0 alpha; plain 1 beta; plain 2 gamma]; calls := 0;
     pairs := 0 |}.

(** The built-in comparisons, with the two library handlers stood in for
    by constants (no example below calls them). *)
Definition registry : string -> option comparison_handler :=
  Comparisons.builtin (fun _ _ => Ok (SNum (Num 0))) (fun _ => 0%Q).

(** Marking with the threshold at one half. *)
Definition marking : Settings.t := {|
  Settings.strategy := "clark";
  Settings.validateStrategy := true;
  Settings.action := ACTIONS.MARK;
  Settings.actionField := "dedupe";
  Settings.threshold := 1 # 2;
  Settings.markOk := MarkValue (lit "OK");
  Settings.markDupe := MarkValue (lit "DUPE");
  Settings.dupeRef := DUPEREF.INDEX;
  Settings.fieldWeight := FIELDWEIGHT.MINIMUM;
  Settings.markOriginal := false;
|}.

(** The two papers as working records, before the title step. *)
Definition two_papers : sweep_state :=
  {| refs := [plain 0 paper_a; plain 1 paper_b]; calls := 0; pairs := 0 |}.

Definition by_title : step := exact_step ["title"] (SortField "title").

Definition doi_by_title : step := exact_step ["doi"] (SortField "title").

(** A strategy object with no [steps]. *)
Definition no_steps : strategy := {|
  title := Some "Incomplete";
  description := Some "Has no steps";
  mutators := Some [];
  steps := None;
|}.

(** A strategy with everything but a step. *)
Definition stepless : strategy := {|
  title := Some "No step";
  description := Some "An empty list of steps";
  mutators := Some [];
  steps := Some [];
|}.

Definition stepless_catalog : gmap string strategy := {[ "clark" := stepless ]}.

(** A reference that has a field named [dedupe]. *)
Definition tagged : record :=
  {[ "title" := FStr (lit "Sweep"); "dedupe" := FStr (lit "DUPE") ]}.

(** The default settings with the Bramer strategy chosen. *)
Definition with_bramer : Settings.t := {|
  Settings.strategy := "bramer";
  Settings.validateStrategy := true;
  Settings.action := ACTIONS.STATS;
  Settings.actionField := "dedupe";
  Settings.threshold := 1 # 10;
  Settings.markOk := MarkValue (lit "OK");
  Settings.markDupe := MarkValue (lit "DUPE");
  Settings.dupeRef := DUPEREF.INDEX;
  Settings.fieldWeight := FIELDWEIGHT.MINIMUM;
  Settings.markOriginal := false;
|}.

Definition bramer_catalog : gmap string strategy :=
  {[ "bramer" := Strategies.bramer ]}.



(** The mutators of the source, with the case mappings beyond ASCII and
    lodash's symbol splitting stood in for by functions that no example
    below calls. *)
Definition mutators : string -> option mutator_handler :=
  Dedupe.mutators (fun s => s) (fun s => s) (fun s => [s]).

(** One paper as two libraries hold it. *)
Definition gates_a : record :=
  {[ "author" := FStr (lit "Gates B., Balmer S.");
     "doi" := FStr (lit "10.1000/182");
     "title" := FStr (lit "Sweep: Dedupe!");
     "year" := FStr (lit "2020") ]}.
Definition gates_b : record :=
  {[ "author" := FStr (lit "Bill Gates, Steven Anthony Balmer");
     "doi" := FStr (lit "http://doi.org/10.1000/182");
     "title" := FStr (lit "SWEEP - dedupe");
     "year" := FStr (lit "2020 Jan") ]}.

End Examples.

(** * Properties *)

(** ** Comparisons *)

(** On two arrays [exact] hands back a boolean, whatever the arrays. *)
Lemma exact_on_arrays p xs q ys :
  ∃ b, Comparisons.exact (Some (FArr p xs)) (Some (FArr q ys)) = SBool b.
Proof. by eexists. Qed.

(** On anything else [exact] is the number 1 or the number 0, as [==]
    decides. *)
Lemma exact_off_arrays a b :
  (∀ p xs q ys, ¬ (a = Some (FArr p xs) ∧ b = Some (FArr q ys))) →
  Comparisons.exact a b = if loose_eq a b then SNum (Num 1) else SNum (Num 0).
Proof.
  intros Hne. destruct a as [[s|p xs]|], b as [[t|q ys]|]; try reflexivity.
  exfalso. eapply Hne; eauto.
Qed.

(** C4: on the two structurally equal arrays [["x"]] and [["x"]] the [exact]
    comparison returns the boolean [true], not the number 1 (and on the
    arrays [["x"]] and [["y"]] the boolean [false], not the number 0). *)
Theorem exact_equal_arrays_is_true :
  Comparisons.exact (Some (FArr 0 [lit "x"])) (Some (FArr 1 [lit "x"])) = SBool true
  ∧ Comparisons.exact (Some (FArr 0 [lit "x"])) (Some (FArr 1 [lit "x"])) ≠ SNum (Num 1)
  ∧ Comparisons.exact (Some (FArr 0 [lit "x"])) (Some (FArr 1 [lit "y"])) = SBool false.
Proof. split; [reflexivity | split; [discriminate | reflexivity]]. Qed.

(** ** Strategy validation *)

(** With [steps] present (also empty), [validateStrategy] returns. *)
Lemma validateStrategy_with_steps s ss :
  steps s = Some ss →
  ∃ v, validateStrategy s = Ok v.
Proof. intros Hs. unfold validateStrategy. rewrite Hs. by eexists. Qed.

Lemma step_errors_none stepIndex s :
  step_errors stepIndex s = [] ↔ passes_step s.
Proof.
  unfold step_errors, passes_step.
  destruct (fields s) as [[|f fs]|], (sort s) as [[[|c f']|[|g gs]]|],
    (missing (comparison s)); simpl; split; try done.
  all: try (intros ((? & ? & ?) & _); done).
  all: try (intros (_ & (? & ? & ? & ?) & _); congruence).
  all: try (intros (_ & _ & ?); done).
  all: intros _; repeat split; eauto.
Qed.

Lemma imap_step_errors_none ss k :
  List.concat (imap (fun i => step_errors (k + i)) ss) = []
  ↔ Forall passes_step ss.
Proof.
  revert k. induction ss as [|s ss IH]; intros k; simpl.
  { split; [by constructor|done]. }
  rewrite Nat.add_0_r. split.
  - intros [Hs Hss]%app_eq_nil. constructor; [by eapply step_errors_none|].
    apply (IH (S k)). rewrite <- Hss. f_equal. apply imap_ext.
    intros i x _. simpl. f_equal. lia.
  - intros Hall. inversion Hall as [|? ? Hs Hss]; subst.
    rewrite (proj2 (step_errors_none k s) Hs). simpl.
    apply (IH (S k)) in Hss. rewrite <- Hss. f_equal. apply imap_ext.
    intros i x _. simpl. f_equal. lia.
Qed.

(** [validateStrategy] returns [true] exactly on the strategies that pass
    every check. *)
Lemma validateStrategy_true s :
  validateStrategy s = Ok VTrue ↔ passes s.
Proof.
  unfold validateStrategy, passes.
  destruct (steps s) as [ss|] eqn:Hss.
  2:{ split; [done|]. by intros (_ & _ & _ & ? & ? & ? & _). }
  pose proof (imap_step_errors_none ss 0) as Hsteps.
  simpl in Hsteps.
  destruct (missing (title s)), (missing (description s)), (mutators s),
    ss as [|s0 ss]; simpl; split; try done.
  all: try (intros (? & ? & ? & _); done).
  all: try (intros (_ & _ & [? ?] & _); done).
  all: try (intros (_ & _ & _ & ? & ? & ? & _); done).
  - destruct (step_errors 0 s0 ++ _) eqn:Herrs; [|done]. intros _.
    repeat split; eauto. exists s0, ss. split; [done|]. by apply Hsteps.
  - intros (_ & _ & _ & s1 & ss1 & [= <- <-] & Hall).
    apply Hsteps in Hall.
    change (step_errors 0 s0 ++ List.concat (imap (step_errors ∘ S) ss) = [])
      in Hall.
    by rewrite Hall.
Qed.

(** The Bramer strategy is valid. *)
Lemma bramer_is_valid : validateStrategy Strategies.bramer = Ok VTrue.
Proof. reflexivity. Qed.

(** Without [steps], [validateStrategy] throws. *)
Lemma validateStrategy_without_steps s :
  steps s = None → validateStrategy s = Throw TypeError.
Proof. intros Hs. unfold validateStrategy. by rewrite Hs. Qed.

(** C5: on a strategy object that has a title, a description and mutators
    but no [steps], [validateStrategy] raises a [TypeError] instead of
    returning the list of errors. *)
Theorem validateStrategy_missing_steps_throws :
  validateStrategy Examples.no_steps = Throw TypeError.
Proof. reflexivity. Qed.

(** ** Mutators *)

(** C9: the seven input/output pairs of the mutators.  The argument of
    [deburr] is the string of the five letters U+00D5, U+00D1, U+00CE,
    U+00D4, U+00D1. *)
Theorem mutator_examples :
  Mutators.alphaNumericOnly (FStr (lit "one$two_three()"))
    = Ok (FStr (lit "one two three "))
  ∧ Mutators.deburr (FStr [213; 209; 206; 212; 209]%N) = Ok (FStr (lit "ONION"))
  ∧ Mutators.numericOnly (FStr (lit "one1two2three3")) = Ok (FStr (lit "123"))
  ∧ Mutators.consistentPageNumbering (FStr (lit "244-58"))
    = Ok (FStr (lit "244-258"))
  ∧ Mutators.consistentPageNumbering (FStr (lit "")) = Ok (FStr (lit ""))
  ∧ Mutators.doiRewrite (FStr (lit "10.1000/182")) None
    = Ok (FStr (lit "https://doi.org/10.1000/182"))
  ∧ Mutators.doiRewrite (FStr (lit ""))
      (Some {[ "urls" := FArr 0 [lit "http://doi.org/10.1000/182"] ]})
    = Ok (FStr (lit "https://doi.org/10.1000/182")).
Proof. repeat split; vm_compute; reflexivity. Qed.

(** ** The score of a step *)

Section StepScore.

Variable jaroWinklerDistance : jsval -> jsval -> result jsscore.
Variable random_draw : nat -> Q.

Local Abbreviation registry :=
  (Comparisons.builtin jaroWinklerDistance random_draw).

(** What [compareViaStepMin] folds over the per-field scores. *)
Lemma min_over_scores comparisons cs a b s fs minimum :
  min_over comparisons cs a b s fs minimum
  = ('(xs, cs') ← field_scores comparisons cs a b s fs;
     Ok (fold_left (fun m x => if score_lt x m then x else m) xs minimum, cs')).
Proof.
  revert cs minimum. induction fs as [|field fs IH]; intros cs minimum; simpl; [done|].
  destruct (field_score _ _ _ _ _ _) as [[x cs1]|]; [|done]. simpl.
  rewrite IH. by destruct (field_scores _ _ _ _ _ _) as [[xs cs2]|].
Qed.

Lemma last_cons {A : Type} (xs : list A) (x d : A) :
  List.last (x :: xs) d = List.last xs x.
Proof.
  revert x d. induction xs as [|y ys IH]; intros x d; [done|].
  change (List.last (x :: y :: ys) d) with (List.last (y :: ys) d).
  by rewrite (IH y d), (IH y x).
Qed.

(** What [compareViaStepAvg] keeps of the per-field scores: the last one. *)
Lemma reduce_over_scores comparisons cs a b s fs res :
  reduce_over comparisons cs a b s fs res
  = ('(xs, cs') ← field_scores comparisons cs a b s fs;
     Ok (List.last xs res, cs')).
Proof.
  revert cs res. induction fs as [|field fs IH]; intros cs res; simpl; [done|].
  destruct (field_score _ _ _ _ _ _) as [[x cs1]|]; [|done]. simpl.
  rewrite IH. destruct (field_scores _ _ _ _ _ _) as [[xs cs2]|]; [|done].
  change (Ok (List.last xs x, cs2) = Ok (List.last (x :: xs) res, cs2)).
  by rewrite last_cons.
Qed.

(** A field that either record lacks (or holds as the empty string)
    contributes 0 without a handler call, unless [skipOmitted] is off. *)
Lemma omitted_field_scores_zero comparisons cs a b s field :
  default true (skipOmitted s) = true →
  truthy (props a !! field) = false ∨ truthy (props b !! field) = false →
  field_score comparisons cs a b s field = Ok (SNum (Num 0), cs).
Proof.
  intros Hskip Hempty. unfold field_score. rewrite Hskip.
  by destruct Hempty as [-> | ->]; destruct (truthy _).
Qed.

(** The running minimum: with numbers for scores (no [NaN]), what the fold
    returns is at most the start value and at most every score, and it is
    the start value or one of the scores. *)
Lemma running_minimum xs minimum :
  Forall (fun x => ∃ q, to_number x = Num q) (minimum :: xs) →
  let r := fold_left (fun m x => if score_lt x m then x else m) xs minimum in
  num_leb (to_number r) (to_number minimum) = true
  ∧ Forall (fun x => num_leb (to_number r) (to_number x) = true) xs
  ∧ (r = minimum ∨ r ∈ xs).
Proof.
  revert minimum. induction xs as [|x xs IH]; intros minimum Hnum; simpl.
  { apply Forall_inv in Hnum as [q Hq]. rewrite Hq. simpl.
    repeat split; [|done|by left]. apply Qle_bool_iff, Qle_refl. }
  inversion Hnum as [|? ? [qm Hm] Hrest]; subst.
  inversion Hrest as [|? ? [qx Hx] Hxs]; subst.
  assert (∀ y z, num_leb (Num y) (Num z) = true ↔ (y <= z)%Q) as Hleb.
  { intros y z. simpl. apply Qle_bool_iff. }
  destruct (score_lt x minimum) eqn:Hlt.
  - destruct (IH x) as (Hr & Hall & Hin); [by constructor; eauto|].
    unfold score_lt in Hlt. rewrite Hx, Hm in Hlt. simpl in Hlt.
    apply negb_true_iff in Hlt.
    assert (qx < qm)%Q as Hqx.
    { apply Qnot_le_lt. intros Hle. apply Qle_bool_iff in Hle. congruence. }
    destruct (to_number (fold_left _ xs x)) as [qr|] eqn:Hqr; [|done].
    rewrite Hx in Hr. rewrite Hm. rewrite Hleb in Hr.
    repeat split.
    + apply Hleb. eapply Qle_trans; [exact Hr|by apply Qlt_le_weak].
    + constructor; [by rewrite Hx; apply Hleb|done].
    + right. destruct Hin as [->|Hin]; [by left|by right].
  - destruct (IH minimum) as (Hr & Hall & Hin); [by constructor; eauto|].
    unfold score_lt in Hlt. rewrite Hx, Hm in Hlt. simpl in Hlt.
    apply negb_false_iff in Hlt. apply Qle_bool_iff in Hlt.
    destruct (to_number (fold_left _ xs minimum)) as [qr|] eqn:Hqr; [|done].
    rewrite Hm in Hr. rewrite Hleb in Hr.
    repeat split.
    + rewrite Hm. by apply Hleb.
    + constructor; [|done]. rewrite Hx. apply Hleb.
      eapply Qle_trans; [exact Hr|exact Hlt].
    + destruct Hin as [->|Hin]; [by left|right; by right].
Qed.

(** Under MINIMUM the step score is the least of 1 and the per-field
    scores (when these are numbers or booleans, not [NaN]). *)
Lemma compareViaStepMin_least comparisons cs a b s fs xs cs' :
  fields s = Some fs →
  field_scores comparisons cs a b s fs = Ok (xs, cs') →
  Forall (fun x => ∃ q, to_number x = Num q) xs →
  ∃ r,
    compareViaStepMin comparisons cs a b s = Ok (r, cs')
    ∧ num_leb (to_number r) (Num 1) = true
    ∧ Forall (fun x => num_leb (to_number r) (to_number x) = true) xs
    ∧ (r = SNum (Num 1) ∨ r ∈ xs).
Proof.
  intros Hfs Hxs Hnum. unfold compareViaStepMin. rewrite Hfs, min_over_scores, Hxs.
  simpl. eexists. split; [done|].
  apply (running_minimum xs (SNum (Num 1))). constructor; [by exists 1%Q|done].
Qed.

(** Under AVERAGE the step score is the score of the last field over the
    number of fields. *)
Lemma compareViaStepAvg_last comparisons cs a b s fs xs cs' :
  fields s = Some fs →
  field_scores comparisons cs a b s fs = Ok (xs, cs') →
  compareViaStepAvg comparisons cs a b s
  = Ok (SNum (div_length (to_number (List.last xs (SNum (Num 0)))) (length fs)),
        cs').
Proof.
  intros Hfs Hxs. unfold compareViaStepAvg.
  by rewrite Hfs, reduce_over_scores, Hxs.
Qed.

(** C1: under the AVERAGE field weight, two references that agree on
    both fields of a two-field [exact] step score 1 on each field, and
    [compareViaStepAvg] returns 1/2: the last field's score over the number
    of fields, not the mean of the two scores (which is 1). *)
Theorem average_of_two_matches_is_half :
  let a := Examples.plain 0 Examples.sweep2020 in
  let b := Examples.plain 1 Examples.sweep2020 in
  field_score registry 0 a b Examples.title_and_year "title" = Ok (SNum (Num 1), 1%nat)
  ∧ field_score registry 1 a b Examples.title_and_year "year" = Ok (SNum (Num 1), 2%nat)
  ∧ compareViaStep registry Examples.averaging 0 a b Examples.title_and_year
    = Ok (SNum (Num (1 # 2)), 2%nat).
Proof. repeat split; vm_compute; reflexivity. Qed.

(** C2: under the strategy with a DOI step and a title step, two
    references that share a title but not a DOI leave the second reference
    with a hole at step 0 and the score 1 at step 1; the aggregator gives it
    1/2 (the sum over the length of the sparse array), not the mean of its
    populated scores (which is 1), and that is the score the STATS output
    carries. *)
Theorem score_divides_by_sparse_length :
  ∃ st,
    run_sweep registry Mutators.builtin Examples.catalog Settings.default
      [Examples.paper_a; Examples.paper_b] = Ok st
    ∧ map (fun w => (steps_of w, dedupe_score (steps_of w))) (refs st)
      = [([None; Some {| score := SNum (Num 0); dupeOf := None |}],
          Num (0 # 2));
         ([None; Some {| score := SNum (Num 1); dupeOf := Some (RefNum 0) |}],
          Num (1 # 2))]
    ∧ ∃ out,
        run registry Mutators.builtin Examples.catalog Settings.default
          [Examples.paper_a; Examples.paper_b] = Ok out
        ∧ map (fun o : outrecord => o !! "dedupe") out
          = [Some (OStats (Num (0 # 2)) []);
             Some (OStats (Num (1 # 2)) [RefNum 0])].
Proof.
  eexists. split; [vm_compute; reflexivity|]. split; [vm_compute; reflexivity|].
  eexists. split; vm_compute; reflexivity.
Qed.

End StepScore.

(** ** Sparse arrays and the entries of [dedupe.steps] *)

Lemma sparse_get_set {A : Type} (l : list (option A)) (i j : nat) (v : A) :
  sparse_get (sparse_set l i v) j
  = if decide (i = j) then Some v else sparse_get l j.
Proof.
  unfold sparse_get, sparse_set.
  destruct (decide (i < length l)%nat) as [Hi|Hi].
  - destruct (decide (i = j)) as [<-|Hne].
    + by rewrite list_lookup_insert_eq.
    + by rewrite list_lookup_insert_ne.
  - destruct (decide (j < length l)%nat) as [Hj|Hj].
    + rewrite lookup_app_l by done. destruct (decide (i = j)); [lia|done].
    + rewrite lookup_app_r by lia.
      rewrite (lookup_ge_None_2 l j) by lia. simpl.
      destruct (decide (i = j)) as [<-|Hne].
      * rewrite lookup_app_r by (rewrite length_replicate; lia).
        rewrite length_replicate, Nat.sub_diag. done.
      * destruct (decide (j - length l < i - length l)%nat) as [Hlt|Hge].
        -- rewrite lookup_app_l by (rewrite length_replicate; lia).
           by rewrite lookup_replicate_2.
        -- rewrite lookup_app_r by (rewrite length_replicate; lia).
           rewrite length_replicate.
           destruct (j - length l - (i - length l))%nat as [|k] eqn:Hk; [lia|done].
Qed.

Lemma length_set_entry rs pos k v : length (set_entry rs pos k v) = length rs.
Proof. unfold set_entry. apply length_alter. Qed.

Lemma get_entry_set_entry rs pos k v pos' k' :
  (pos < length rs)%nat →
  get_entry (set_entry rs pos k v) pos' k'
  = if decide (pos = pos' ∧ k = k') then Some v else get_entry rs pos' k'.
Proof.
  intros Hpos. unfold get_entry, set_entry.
  destruct (decide (pos = pos')) as [<-|Hne].
  - rewrite list_lookup_alter_eq.
    destruct (lookup_lt_is_Some_2 rs pos Hpos) as [w Hw]. rewrite Hw. simpl.
    unfold steps_of at 1. simpl. rewrite sparse_get_set.
    destruct (decide (k = k')) as [->|Hk]; case_decide as Hc;
      [done | exfalso; by apply Hc | by destruct Hc | done].
  - rewrite list_lookup_alter_ne by done.
    case_decide as Hc; [by destruct Hc | done].
Qed.

Lemma steps_set_entry rs pos k v :
  Forall (fun w => overridden w = false) rs →
  Forall (fun w => overridden w = false) (set_entry rs pos k v).
Proof.
  intros Hrs. unfold set_entry. apply Forall_lookup. intros j w.
  destruct (decide (pos = j)) as [<-|Hne].
  - rewrite list_lookup_alter_eq. destruct (rs !! pos); [|done].
    by intros [= <-].
  - rewrite list_lookup_alter_ne by done. intros Hw.
    by eapply (proj1 (Forall_lookup _ _) Hrs).
Qed.

Lemma entry_after_set rs pos k v pos' k' e :
  (pos < length rs)%nat →
  get_entry (set_entry rs pos k v) pos' k' = Some e →
  (pos = pos' ∧ k = k' ∧ e = v) ∨ get_entry rs pos' k' = Some e.
Proof.
  intros Hpos. rewrite get_entry_set_entry by done.
  case_decide as Hc; [|by right]. intros [= <-]. left. by destruct Hc.
Qed.

(** A write to [dedupe.steps] leaves the rest of every working record as
    it was. *)
Lemma identity_set_entry rs pos k v :
  identity_of <$> set_entry rs pos k v = identity_of <$> rs.
Proof.
  unfold set_entry. apply list_eq. intros j. rewrite !list_lookup_fmap.
  destruct (decide (pos = j)) as [<-|Hne].
  - rewrite list_lookup_alter_eq. by destruct (rs !! pos).
  - by rewrite list_lookup_alter_ne.
Qed.

(** ** The scan *)

Section Scan.

Variable comparisons : string -> option comparison_handler.
Variable settings : Settings.t.
Variable s : step.
Variable stepIndex : nat.
Variable sortedRefs : list nat.

Local Abbreviation len := (length sortedRefs).

(** The loop, unfolded once. *)
Lemma scan_once st i n :
  scan comparisons settings s stepIndex sortedRefs st i n
  = if decide (n < len)%nat then
      match scan_pair comparisons settings s stepIndex sortedRefs st i n with
      | Ok (st', same) =>
          scan comparisons settings s stepIndex sortedRefs st'
            (advance len i n same).1 (advance len i n same).2
      | Throw e => Throw e
      end
    else Ok st.
Proof.
  simp scan. destruct (decide (n < length sortedRefs)%nat); simpl; [|done].
  destruct (scan_pair _ _ _ _ _ _ _ _) as [[st' same]|e]; reflexivity.
Qed.

Lemma advance_decreases i n same :
  (n < len)%nat →
  (cursor_measure len (advance len i n same).1 (advance len i n same).2
   < cursor_measure len i n)%nat.
Proof.
  intros Hn. unfold advance, cursor_measure.
  destruct same; [case_decide|]; simpl; try lia.
  all: destruct (decide (i < len)%nat); [nia|].
  all: replace (len - i)%nat with 0%nat by lia.
  all: replace (len - S i)%nat with 0%nat by lia; lia.
Qed.

(** The anchor stays before the candidate. *)
Lemma advance_ordered i n same :
  (i < n)%nat → ((advance len i n same).1 < (advance len i n same).2)%nat.
Proof.
  intros Hin. unfold advance. destruct same; [case_decide|]; simpl; lia.
Qed.

(** An invariant of the state and the cursors that every pair keeps holds
    when the loop is left. *)
Lemma scan_invariant (Inv : sweep_state → nat → nat → Prop) :
  (∀ st i n st' same,
     Inv st i n → (n < len)%nat →
     scan_pair comparisons settings s stepIndex sortedRefs st i n = Ok (st', same) →
     Inv st' (advance len i n same).1 (advance len i n same).2) →
  ∀ st i n st',
    Inv st i n →
    scan comparisons settings s stepIndex sortedRefs st i n = Ok st' →
    ∃ i' n', Inv st' i' n' ∧ (len ≤ n')%nat.
Proof.
  intros Hkeep st i n.
  remember (cursor_measure len i n) as m eqn:Hm.
  revert st i n Hm. induction (lt_wf m) as [m _ IH]. intros st i n -> st' Hinv.
  rewrite scan_once. destruct (decide (n < len)%nat) as [Hn|Hn].
  - destruct (scan_pair _ _ _ _ _ _ _ _) as [[st1 same]|e] eqn:Hpair; [|done].
    intros Hscan. eapply (IH _ (advance_decreases i n same Hn)); eauto.
  - intros [= <-]. exists i, n. split; [done|lia].
Qed.

(** If, under an invariant, no pair throws, the loop returns. *)
Lemma scan_returns (Inv : sweep_state → nat → nat → Prop) :
  (∀ st i n,
     Inv st i n → (n < len)%nat →
     ∃ st' same,
       scan_pair comparisons settings s stepIndex sortedRefs st i n = Ok (st', same)
       ∧ Inv st' (advance len i n same).1 (advance len i n same).2) →
  ∀ st i n,
    Inv st i n →
    ∃ st', scan comparisons settings s stepIndex sortedRefs st i n = Ok st'.
Proof.
  intros Hkeep st i n.
  remember (cursor_measure len i n) as m eqn:Hm.
  revert st i n Hm. induction (lt_wf m) as [m _ IH]. intros st i n -> Hinv.
  rewrite scan_once. destruct (decide (n < len)%nat) as [Hn|Hn]; [|by eexists].
  destruct (Hkeep st i n Hinv Hn) as (st1 & same & -> & Hinv1).
  eapply (IH _ (advance_decreases i n same Hn)); eauto.
Qed.

(** What the body of the loop does, read off a successful pair. *)
Lemma scan_pair_ok st i n st' same :
  scan_pair comparisons settings s stepIndex sortedRefs st i n = Ok (st', same) →
  ∃ pi a pn b dupeScore,
    sortedRefs !! i = Some pi ∧ refs st !! pi = Some a
    ∧ sortedRefs !! n = Some pn ∧ refs st !! pn = Some b
    ∧ compareViaStep comparisons settings (calls st) a b s
      = Ok (dupeScore, calls st')
    ∧ pairs st' = S (pairs st)
    ∧ identity_of <$> refs st' = identity_of <$> refs st
    ∧ (Forall (fun w => overridden w = false) (refs st) →
       Forall (fun w => overridden w = false) (refs st'))
    ∧ (score_gt dupeScore (SNum (Num 0)) = false →
       refs st' = refs st
       ∧ same = strict_eq (props a !! property_key (sort s))
                          (props b !! property_key (sort s)))
    ∧ (score_gt dupeScore (SNum (Num 0)) = true → same = true)
    ∧ (∀ pos k e,
         get_entry (refs st') pos k = Some e →
         get_entry (refs st) pos k = Some e
         ∨ (k = stepIndex
            ∧ ((pos = pi ∧ dupeOf e = None)
               ∨ (pos = pn ∧ dupeOf e = Some (reference_to settings a))))).
Proof.
  unfold scan_pair, sorted_ref. intros H.
  destruct (sortedRefs !! i) as [pi|] eqn:Hi; [|done].
  destruct (refs st !! pi) as [a|] eqn:Ha; [|done].
  destruct (sortedRefs !! n) as [pn|] eqn:Hn; [|done].
  destruct (refs st !! pn) as [b|] eqn:Hb; [|done].
  simpl in H.
  destruct (compareViaStep _ _ _ _ _ _) as [[dupeScore calls']|e] eqn:Hcmp; [|done].
  simpl in H. exists pi, a, pn, b, dupeScore.
  assert (pi < length (refs st))%nat as Hpi by (by eapply lookup_lt_Some).
  assert (pn < length (refs st))%nat as Hpn by (by eapply lookup_lt_Some).
  destruct (score_gt dupeScore (SNum (Num 0))) eqn:Hgt.
  - destruct (overridden a || overridden b); [done|].
    injection H as <- <-. simpl. repeat split; try done.
    + destruct (get_entry (refs st) pi stepIndex);
        destruct (get_entry _ pn stepIndex); try destruct (score_ge _ _);
        rewrite ?identity_set_entry; done.
    + intros Hsteps.
      destruct (get_entry (refs st) pi stepIndex);
        destruct (get_entry _ pn stepIndex); try destruct (score_ge _ _);
        repeat apply steps_set_entry; done.
    + intros pos k e.
      set (rs1 := match get_entry (refs st) pi stepIndex with
                  | Some _ => refs st | None => _ end).
      assert (length rs1 = length (refs st)) as Hlen1.
      { subst rs1. destruct (get_entry (refs st) pi stepIndex);
          rewrite ?length_set_entry; done. }
      assert (∀ e', get_entry rs1 pos k = Some e' →
                get_entry (refs st) pos k = Some e'
                ∨ (k = stepIndex ∧ pos = pi ∧ dupeOf e' = None)) as H1.
      { intros e'. subst rs1. destruct (get_entry (refs st) pi stepIndex);
          [by left|].
        intros [(<- & <- & ->)|?]%entry_after_set; [by right|by left|done]. }
      assert (∀ e', get_entry (set_entry rs1 pn stepIndex
                       {| score := dupeScore;
                          dupeOf := Some (reference_to settings a) |}) pos k
                    = Some e' →
                get_entry (refs st) pos k = Some e'
                ∨ (k = stepIndex
                   ∧ ((pos = pi ∧ dupeOf e' = None)
                      ∨ (pos = pn ∧ dupeOf e' = Some (reference_to settings a)))))
        as H2.
      { intros e' [(<- & <- & ->)|He']%entry_after_set; [| |lia].
        - right. split; [done|]. by right.
        - destruct (H1 _ He') as [?|(? & ? & ?)]; [by left|].
          right. split; [done|]. by left. }
      destruct (get_entry rs1 pn stepIndex) as [old|]; [|by apply H2].
      destruct (score_ge dupeScore (score old)); [by apply H2|].
      intros He. destruct (H1 _ He) as [?|(? & ? & ?)]; [by left|].
      right. split; [done|]. by left.
  - injection H as <- <-. simpl. repeat split; try done. intros; by left.
Qed.


Lemma lookup_identity (rs rs0 : list wref) pos a :
  identity_of <$> rs = identity_of <$> rs0 →
  rs !! pos = Some a →
  ∃ a0, rs0 !! pos = Some a0 ∧ identity_of a0 = identity_of a.
Proof.
  intros Hid Ha.
  assert ((identity_of <$> rs0) !! pos = Some (identity_of a)) as H0.
  { rewrite <- Hid, list_lookup_fmap, Ha. done. }
  rewrite list_lookup_fmap in H0.
  destruct (rs0 !! pos) as [a0|]; simpl in H0; [|done].
  exists a0. split; [done|congruence].
Qed.


End Scan.

(** C3: with a list of field names as sort key the scan does not do what
    the claim says.  Three references with three titles, a step sorted on
    [title, year], the pair (0, 1): the score is 0 and the sort-key values
    differ (the titles do), yet the scan keeps the anchor 0 and goes on with
    the pair (0, 2), not with (1, 2).  The test of the scan reads the
    property named by the joined list, which no record has, so any two
    records pass for equal.  With the one field name [title] as sort key the
    same pair sends the scan on to (1, 2), as the claim says. *)
Theorem list_sort_key_keeps_anchor :
  let s := Examples.by_title_and_year in
  let st := Examples.three_titles in
  let sorted := Lodash.sortBy (refs st) (sort s) in
  let a := Examples.plain 0 Examples.alpha in
  let b := Examples.plain 1 Examples.beta in
  let st' := {| refs := refs st; calls := 0; pairs := 1 |} in
  passes_step s
  ∧ sorted = [0; 1; 2]%nat
  ∧ compareViaStep Examples.registry Settings.default 0 a b s
    = Ok (SNum (Num 0), 0%nat)
  ∧ equal_sort_keys s a b = false
  ∧ property_key (sort s) = "title,year"
  ∧ scan_pair Examples.registry Settings.default s 0 sorted st 0 1
    = Ok (st', true)
  ∧ advance (length sorted) 0 1 true = (0, 2)%nat
  ∧ advance (length sorted) 0 1 true ≠ stated_cursors (equal_sort_keys s a b) 0 1
  ∧ scan Examples.registry Settings.default s 0 sorted st 0 1
    = scan Examples.registry Settings.default s 0 sorted st' 0 2
  ∧ (let s1 := Examples.doi_by_title in
     Lodash.sortBy (refs st) (sort s1) = sorted
     ∧ scan_pair Examples.registry Settings.default s1 0 sorted st 0 1
       = Ok (st', false)
     ∧ advance (length sorted) 0 1 false = (1, 2)%nat
     ∧ advance (length sorted) 0 1 false
       = stated_cursors (equal_sort_keys s1 a b) 0 1).
Proof.
  intros s st sorted a b st'.
  split.
  { repeat split; try (by eexists _, _); by eexists. }
  repeat split; try (vm_compute; reflexivity).
  vm_compute. discriminate.
Qed.

(** ** The sorted order *)

Lemma insert_by_perm x l : Lodash.insert_by x l ≡ₚ x :: l.
Proof.
  induction l as [|y l IH]; simpl; [done|].
  destruct (Z.leb _ _); [done|]. rewrite IH. apply Permutation_swap.
Qed.

Lemma baseSortBy_perm l : Lodash.baseSortBy l ≡ₚ l.
Proof.
  induction l as [|x l IH]; simpl; [done|].
  rewrite insert_by_perm. by rewrite IH.
Qed.

(** [_.sortBy] returns the positions of [refs], each once. *)
Lemma sortBy_perm rs key : Lodash.sortBy rs key ≡ₚ seq 0 (length rs).
Proof.
  unfold Lodash.sortBy. rewrite baseSortBy_perm.
  rewrite fmap_imap.
  rewrite (imap_ext _ (fun j _ => id j)) by done.
  rewrite imap_seq_0. by rewrite list_fmap_id.
Qed.

Lemma sortBy_NoDup rs key : NoDup (Lodash.sortBy rs key).
Proof. rewrite sortBy_perm. apply NoDup_seq. Qed.

Lemma sortBy_in_range rs key :
  Forall (fun pos => (pos < length rs)%nat) (Lodash.sortBy rs key).
Proof. rewrite sortBy_perm. apply Forall_seq. lia. Qed.

Lemma length_sortBy rs key : length (Lodash.sortBy rs key) = length rs.
Proof. rewrite sortBy_perm. apply length_seq. Qed.

(** ** Steps that cannot throw *)

Section Returns.

Variable comparisons : string -> option comparison_handler.
Variable settings : Settings.t.

Lemma field_score_returns cs a b s field :
  never_throws comparisons s →
  ∃ x cs', field_score comparisons cs a b s field = Ok (x, cs').
Proof.
  intros (_ & h & Hh & Hok). unfold field_score.
  destruct (_ && _); [by eexists _, _|].
  rewrite Hh. simpl. destruct (Hok cs (props a !! field) (props b !! field)) as [x ->].
  by eexists _, _.
Qed.

Lemma min_over_returns cs a b s fs minimum :
  never_throws comparisons s →
  ∃ x cs', min_over comparisons cs a b s fs minimum = Ok (x, cs').
Proof.
  intros Hs. revert cs minimum.
  induction fs as [|field fs IH]; intros cs minimum; simpl; [by eexists _, _|].
  destruct (field_score_returns cs a b s field Hs) as (x & cs' & ->). simpl.
  apply IH.
Qed.

Lemma reduce_over_returns cs a b s fs res :
  never_throws comparisons s →
  ∃ x cs', reduce_over comparisons cs a b s fs res = Ok (x, cs').
Proof.
  intros Hs. revert cs res.
  induction fs as [|field fs IH]; intros cs res; simpl; [by eexists _, _|].
  destruct (field_score_returns cs a b s field Hs) as (x & cs' & ->). simpl.
  apply IH.
Qed.

Lemma compareViaStep_returns cs a b s :
  never_throws comparisons s →
  ∃ x cs', compareViaStep comparisons settings cs a b s = Ok (x, cs').
Proof.
  intros Hs. pose proof Hs as ([fs Hfs] & _).
  unfold compareViaStep, compareViaStepMin, compareViaStepAvg. rewrite Hfs.
  destruct (Nat.eqb _ _).
  - by apply min_over_returns.
  - destruct (reduce_over_returns cs a b s fs (SNum (Num 0)) Hs) as (x & cs' & ->).
    by eexists _, _.
Qed.

Section Step.

Variable s : step.
Variable stepIndex : nat.
Variable sortedRefs : list nat.

(** The scan writes [dedupe.steps] and nothing else. *)
Lemma scan_identity st i n st' :
  scan comparisons settings s stepIndex sortedRefs st i n = Ok st' →
  identity_of <$> refs st' = identity_of <$> refs st.
Proof.
  intros Hscan.
  destruct (scan_invariant comparisons settings s stepIndex sortedRefs
              (fun cur _ _ => identity_of <$> refs cur = identity_of <$> refs st))
    with (st := st) (i := i) (n := n) (st' := st') as (_ & _ & H & _); try done.
  intros cur i0 n0 cur' same Hcur _ Hpair.
  destruct (scan_pair_ok _ _ _ _ _ _ _ _ _ _ Hpair)
    as (? & ? & ? & ? & ? & _ & _ & _ & _ & _ & _ & Hid & Hsteps & _).
  congruence.
Qed.

Lemma scan_pair_returns st i n :
  never_throws comparisons s →
  Forall (fun w => overridden w = false) (refs st) →
  Forall (fun pos => (pos < length (refs st))%nat) sortedRefs →
  (i < length sortedRefs)%nat → (n < length sortedRefs)%nat →
  ∃ st' same,
    scan_pair comparisons settings s stepIndex sortedRefs st i n = Ok (st', same).
Proof.
  intros Hs Hsteps Hrange Hi Hn. unfold scan_pair, sorted_ref.
  destruct (lookup_lt_is_Some_2 _ _ Hi) as [pi Hpi].
  destruct (lookup_lt_is_Some_2 _ _ Hn) as [pn Hpn].
  rewrite Hpi, Hpn.
  destruct (lookup_lt_is_Some_2 (refs st) pi) as [a Ha].
  { eapply (proj1 (Forall_lookup _ _) Hrange); eauto. }
  destruct (lookup_lt_is_Some_2 (refs st) pn) as [b Hb].
  { eapply (proj1 (Forall_lookup _ _) Hrange); eauto. }
  rewrite Ha, Hb.
  simpl. destruct (compareViaStep_returns (calls st) a b s Hs) as (x & cs' & ->).
  simpl. rewrite (proj1 (Forall_lookup _ _) Hsteps _ _ Ha).
  rewrite (proj1 (Forall_lookup _ _) Hsteps _ _ Hb). simpl.
  destruct (score_gt _ _); by eexists _, _.
Qed.

(** The scan of a step that cannot throw returns. *)
Lemma scan_of_total_step st :
  never_throws comparisons s →
  Forall (fun w => overridden w = false) (refs st) →
  Forall (fun pos => (pos < length (refs st))%nat) sortedRefs →
  ∃ st', scan comparisons settings s stepIndex sortedRefs st 0 1 = Ok st'.
Proof.
  intros Hs Hsteps Hrange.
  apply (scan_returns comparisons settings s stepIndex sortedRefs
           (fun cur i n =>
              (i < n)%nat ∧ length (refs cur) = length (refs st)
              ∧ Forall (fun w => overridden w = false) (refs cur))).
  - intros cur i n (Hin & Hlen & Hcur) Hn.
    destruct (scan_pair_returns cur i n) as (cur' & same & Hpair);
      [done|done|by rewrite Hlen|lia|done|].
    exists cur', same. split; [done|]. split; [by apply advance_ordered|].
    destruct (scan_pair_ok _ _ _ _ _ _ _ _ _ _ Hpair)
      as (? & ? & ? & ? & ? & _ & _ & _ & _ & _ & _ & Hid & Hkeep & _).
    split; [|by apply Hkeep].
    rewrite <- Hlen. rewrite <- (length_fmap identity_of (refs cur')), Hid.
    apply length_fmap.
  - split; [lia|done].
Qed.

(** The scan leaves every [dedupe] an object with [steps] if it found
    them so. *)
Lemma scan_keeps_steps st i n st' :
  scan comparisons settings s stepIndex sortedRefs st i n = Ok st' →
  Forall (fun w => overridden w = false) (refs st) →
  Forall (fun w => overridden w = false) (refs st').
Proof.
  intros Hscan Hsteps.
  destruct (scan_invariant comparisons settings s stepIndex sortedRefs
              (fun cur _ _ => Forall (fun w => overridden w = false) (refs cur)))
    with (st := st) (i := i) (n := n) (st' := st') as (_ & _ & H & _); try done.
  intros cur i0 n0 cur' same Hcur _ Hpair.
  destruct (scan_pair_ok _ _ _ _ _ _ _ _ _ _ Hpair)
    as (? & ? & ? & ? & ? & _ & _ & _ & _ & _ & _ & _ & Hkeep & _).
  by apply Hkeep.
Qed.

End Step.

End Returns.

(** ** The run *)

Section RunFacts.

Variable comparisons : string -> option comparison_handler.
Variable mutator_registry : string -> option mutator_handler.
Variable strategies : gmap string strategy.
Variable settings : Settings.t.

Lemma sweep_identity ss stepIndex sortedBy sortedRefs st st' :
  sweep comparisons settings ss stepIndex sortedBy sortedRefs st = Ok st' →
  identity_of <$> refs st' = identity_of <$> refs st.
Proof.
  revert stepIndex sortedBy sortedRefs st.
  induction ss as [|s ss IH]; intros stepIndex sortedBy sortedRefs st; simpl.
  { by intros [= <-]. }
  destruct (scan _ _ _ _ _ _ _ _) as [st1|e] eqn:Hscan; [|done]. simpl.
  intros Hrest. rewrite (IH _ _ _ _ Hrest). by eapply scan_identity.
Qed.

(** The sweep of steps that cannot throw returns. *)
Lemma sweep_keeps_steps ss stepIndex sortedBy sortedRefs st st' :
  sweep comparisons settings ss stepIndex sortedBy sortedRefs st = Ok st' →
  Forall (fun w => overridden w = false) (refs st) →
  Forall (fun w => overridden w = false) (refs st').
Proof.
  revert stepIndex sortedBy sortedRefs st.
  induction ss as [|s ss IH]; intros stepIndex sortedBy sortedRefs st; simpl.
  { by intros [= <-]. }
  destruct (scan _ _ _ _ _ _ _ _) as [st1|e] eqn:Hscan; [|done]. simpl.
  intros Hrest Hsteps. eapply IH; [done|]. by eapply scan_keeps_steps.
Qed.

Lemma sweep_returns ss stepIndex sortedBy sortedRefs st :
  Forall (never_throws comparisons) ss →
  Forall (fun w => overridden w = false) (refs st) →
  Forall (fun pos => (pos < length (refs st))%nat) sortedRefs →
  ∃ st', sweep comparisons settings ss stepIndex sortedBy sortedRefs st = Ok st'.
Proof.
  intros Hss. revert stepIndex sortedBy sortedRefs st.
  induction Hss as [|s ss Hs Hss IH];
    intros stepIndex sortedBy sortedRefs st Hsteps Hrange; simpl; [by eexists|].
  set (sorted' := if need_sort sortedBy (sort s)
                  then Lodash.sortBy (refs st) (sort s) else sortedRefs).
  assert (Forall (fun pos => (pos < length (refs st))%nat) sorted') as Hrange'.
  { subst sorted'. destruct (need_sort _ _); [apply sortBy_in_range|done]. }
  destruct (scan_of_total_step comparisons settings s stepIndex sorted' st Hs
              Hsteps Hrange') as [st1 Hscan].
  rewrite Hscan. simpl. apply IH; [by eapply scan_keeps_steps|].
  pose proof (scan_identity _ _ _ _ _ _ _ _ _ Hscan) as Hid.
  assert (length (refs st1) = length (refs st)) as ->; [|done].
  rewrite <- (length_fmap identity_of (refs st1)), Hid. apply length_fmap.
Qed.

(** Normalisation makes one working record for each input record. *)
Lemma length_normalise strat index input rs :
  normalise mutator_registry strat index input = Ok rs →
  length rs = length input.
Proof.
  revert index rs. induction input as [|original input IH]; intros index rs; simpl.
  { by intros [= <-]. }
  destruct (working _ _ _ _) as [w|e]; [|done]. simpl.
  destruct (normalise _ _ _ _) as [ws|e] eqn:Hws; [|done]. simpl.
  intros [= <-]. simpl. f_equal. by eapply IH.
Qed.

(** A record with no [dedupe] field, under mutators that name no such
    field, gets a working record whose [dedupe] holds [steps]. *)
Lemma mapValues_keys ms original mutated :
  mapValues mutator_registry ms original = Ok mutated → mutated.*1 = ms.*1.
Proof.
  revert mutated. induction ms as [|[field spec] ms IH]; intros mutated; simpl.
  { by intros [= <-]. }
  destruct (reduce_mutators _ _ _ _) as [v|]; [|done]. simpl.
  destruct (mapValues _ _ _) as [rest|]; [|done]. simpl.
  intros [= <-]. simpl. f_equal. by apply IH.
Qed.

Lemma working_steps strat index original w :
  original !! "dedupe" = None →
  "dedupe" ∉ (default [] (mutators strat)).*1 →
  working mutator_registry strat index original = Ok w →
  overridden w = false.
Proof.
  intros Horig Hmut. unfold working.
  destruct (mapValues _ _ _) as [mutated|] eqn:Hm; [|done]. simpl.
  intros [= <-]. unfold overridden, bookkeeping. simpl.
  rewrite lookup_union_r; [by rewrite Horig|].
  apply not_elem_of_list_to_map_1. by rewrite (mapValues_keys _ _ _ Hm).
Qed.

Lemma normalise_steps strat index input rs :
  Forall (fun ref : record => ref !! "dedupe" = None) input →
  "dedupe" ∉ (default [] (mutators strat)).*1 →
  normalise mutator_registry strat index input = Ok rs →
  Forall (fun w => overridden w = false) rs.
Proof.
  intros Hinput Hmut. revert index rs.
  induction Hinput as [|original input Horig Hinput IH]; intros index rs; simpl.
  { by intros [= <-]. }
  destruct (working _ _ _ _) as [w|] eqn:Hw; [|done]. simpl.
  destruct (normalise _ _ _ _) as [ws|] eqn:Hws; [|done]. simpl.
  intros [= <-]. constructor; [by eapply working_steps|by eapply IH].
Qed.

(** With no field named [index], the [index] of each working record is
    its position in the input: under INDEX, references tell the working
    records apart. *)
Lemma working_index strat i original w :
  original !! "index" = None →
  "index" ∉ (default [] (mutators strat)).*1 →
  working mutator_registry strat i original = Ok w →
  index w = RefNum i.
Proof.
  intros Horig Hmut. unfold working.
  destruct (mapValues _ _ _) as [mutated|] eqn:Hm; [|done]. simpl.
  intros [= <-]. unfold bookkeeping. simpl.
  rewrite lookup_union_r; [by rewrite Horig|].
  apply not_elem_of_list_to_map_1. by rewrite (mapValues_keys _ _ _ Hm).
Qed.

Lemma normalise_index strat i input rs :
  Forall (fun ref : record => ref !! "index" = None) input →
  "index" ∉ (default [] (mutators strat)).*1 →
  normalise mutator_registry strat i input = Ok rs →
  index <$> rs = RefNum <$> seq i (length input).
Proof.
  intros Hinput Hmut. revert i rs.
  induction Hinput as [|original input Horig Hinput IH]; intros i rs; simpl.
  { by intros [= <-]. }
  destruct (working _ _ _ _) as [w|] eqn:Hw; [|done]. simpl.
  destruct (normalise _ _ _ _) as [ws|] eqn:Hws; [|done]. simpl.
  intros [= <-]. simpl. f_equal; [by eapply working_index|by eapply IH].
Qed.

Lemma normalise_references_distinct strat input rs :
  Settings.dupeRef settings = DUPEREF.INDEX →
  Forall (fun ref : record => ref !! "index" = None) input →
  "index" ∉ (default [] (mutators strat)).*1 →
  normalise mutator_registry strat 0 input = Ok rs →
  NoDup (reference_to settings <$> rs).
Proof.
  intros Hd Hinput Hmut Hrs.
  replace (reference_to settings <$> rs) with (index <$> rs).
  - rewrite (normalise_index _ _ _ _ Hinput Hmut Hrs).
    apply NoDup_fmap_2; [by intros ? ? [= ->]|apply NoDup_seq].
  - apply list_fmap_ext. intros _ w _. unfold reference_to. by rewrite Hd.
Qed.

(** The aggregation stage, when it returns, pairs each working record
    with the score of its [steps]. *)
Lemma aggregate_ok rs scored :
  aggregate rs = Ok scored →
  length scored = length rs
  ∧ ∀ k w,
      rs !! k = Some w →
      ∃ l, dedupe w = Steps l ∧ scored !! k = Some (w, dedupe_score l).
Proof.
  revert scored. induction rs as [|w rs IH]; intros scored; simpl.
  { intros [= <-]. split; [done|]. intros k w Hk. done. }
  destruct (dedupe w) as [l|v] eqn:Hd; [|done].
  destruct (aggregate rs) as [rest|]; [|done]. simpl. intros [= <-].
  destruct (IH _ eq_refl) as [Hlen Hall]. split; [simpl; lia|].
  intros [|k] w' Hk; simpl in *.
  - injection Hk as <-. by exists l.
  - by apply Hall.
Qed.

Lemma aggregate_returns rs :
  Forall (fun w => overridden w = false) rs →
  ∃ scored, aggregate rs = Ok scored.
Proof.
  induction 1 as [|w rs Hw Hrs [rest IH]]; simpl; [by eexists|].
  unfold overridden in Hw. destruct (dedupe w); [|done].
  rewrite IH. by eexists.
Qed.

(** The shape of what [decorate] returns. *)
Lemma decorate_ok f (rs : list (wref * jsnum)) refIndex output out :
  decorate settings f rs refIndex output = Ok out →
  length out = length output
  ∧ ∀ k ref,
      output !! k = Some ref →
      ∃ r, rs !! (refIndex + k)%nat = Some r
           ∧ out !! k
             = Some (<[Settings.actionField settings := f r ref]> (spread ref)).
Proof.
  revert refIndex out. induction output as [|ref0 output IH]; intros refIndex out; simpl.
  { intros [= <-]. split; [done|]. intros k ref Hk. done. }
  destruct (rs !! refIndex) as [r|] eqn:Hr; [|done].
  destruct (decorate _ _ _ _ _) as [rest|e] eqn:Hrest; [|done]. simpl.
  intros [= <-]. destruct (IH _ _ Hrest) as [Hlen Hall]. split; [simpl; lia|].
  intros [|k] ref Hk; simpl in *.
  - injection Hk as <-. exists r. by rewrite Nat.add_0_r.
  - destruct (Hall _ _ Hk) as (r' & Hr' & Hout). exists r'.
    by rewrite <- Nat.add_succ_comm.
Qed.

Lemma decorate_returns f (rs : list (wref * jsnum)) refIndex output :
  (refIndex + length output ≤ length rs)%nat →
  ∃ out, decorate settings f rs refIndex output = Ok out.
Proof.
  revert refIndex. induction output as [|ref0 output IH]; intros refIndex Hlen; simpl.
  { by eexists. }
  simpl in Hlen. destruct (lookup_lt_is_Some_2 rs refIndex) as [r ->]; [lia|].
  destruct (IH (S refIndex)) as [rest ->]; [lia|]. by eexists.
Qed.

(** [filter_kept] over a concatenation. *)
Lemma filter_kept_app (rs : list (wref * jsnum)) refIndex l1 l2 :
  filter_kept settings rs refIndex (l1 ++ l2)
  = (k1 ← filter_kept settings rs refIndex l1;
     k2 ← filter_kept settings rs (refIndex + length l1)%nat l2;
     Ok (k1 ++ k2)).
Proof.
  revert refIndex. induction l1 as [|ref l1 IH]; intros refIndex; simpl.
  { rewrite Nat.add_0_r. by destruct (filter_kept _ _ _ _). }
  destruct (rs !! refIndex) as [r|]; [|done].
  rewrite IH. rewrite <- Nat.add_succ_comm.
  destruct (filter_kept _ _ (S refIndex) l1) as [k1|]; [|done]. simpl.
  destruct (filter_kept _ _ _ l2) as [k2|]; [|done]. simpl.
  by destruct (kept _ _).
Qed.

Lemma filter_kept_sublist (rs : list (wref * jsnum)) refIndex output ks :
  filter_kept settings rs refIndex output = Ok ks → ks `sublist_of` output.
Proof.
  revert refIndex ks. induction output as [|ref output IH]; intros refIndex ks; simpl.
  { by intros [= <-]. }
  destruct (rs !! refIndex) as [r|]; [|done].
  destruct (filter_kept _ _ _ _) as [rest|] eqn:Hrest; [|done]. simpl.
  intros [= <-]. destruct (kept _ _).
  - apply sublist_skip. by eapply IH.
  - apply sublist_cons. by eapply IH.
Qed.

Lemma filter_kept_returns (rs : list (wref * jsnum)) refIndex output :
  (refIndex + length output ≤ length rs)%nat →
  ∃ ks, filter_kept settings rs refIndex output = Ok ks.
Proof.
  revert refIndex. induction output as [|ref0 output IH]; intros refIndex Hlen; simpl.
  { by eexists. }
  simpl in Hlen. destruct (lookup_lt_is_Some_2 rs refIndex) as [r ->]; [lia|].
  destruct (IH (S refIndex)) as [rest ->]; [lia|]. by eexists.
Qed.

End RunFacts.

Section RunTheorems.

Variable comparisons : string -> option comparison_handler.
Variable mutator_registry : string -> option mutator_handler.
Variable strategies : gmap string strategy.
Variable settings : Settings.t.

Local Abbreviation run_on :=
  (run comparisons mutator_registry strategies settings).
Local Abbreviation sweep_on :=
  (run_sweep comparisons mutator_registry strategies settings).

Lemma check_settings_ok :
  Settings.action settings ∈ ACTIONS.values →
  Settings.dupeRef settings ∈ DUPEREF.values →
  check_settings settings = Ok ().
Proof.
  intros Ha Hd. unfold check_settings.
  assert (∀ x l, x ∈ l → existsb (Nat.eqb x) l = true) as Hex.
  { intros x l Hx. apply existsb_exists. exists x. split.
    - by apply list_elem_of_In.
    - apply Nat.eqb_refl. }
  by rewrite (Hex _ _ Ha), (Hex _ _ Hd).
Qed.

Lemma validate_ok strat :
  (Settings.validateStrategy settings = true → validateStrategy strat = Ok VTrue) →
  validate settings strat = Ok ().
Proof.
  intros Hv. unfold validate. destruct (Settings.validateStrategy settings); [|done].
  by rewrite Hv.
Qed.

(** The stages of a run that passes its checks. *)
Lemma run_sweep_unfold input strat ss :
  Settings.action settings ∈ ACTIONS.values →
  Settings.dupeRef settings ∈ DUPEREF.values →
  strategies !! Settings.strategy settings = Some strat →
  steps strat = Some ss →
  (Settings.validateStrategy settings = true → validateStrategy strat = Ok VTrue) →
  sweep_on input
  = (rs ← normalise mutator_registry strat 0 input;
     sweep comparisons settings ss 0 None [] {| refs := rs; calls := 0; pairs := 0 |}).
Proof.
  intros Ha Hd Hstrat Hss Hv. unfold run_sweep.
  rewrite check_settings_ok by done. simpl.
  unfold check_strategy. rewrite Hstrat, Hss. simpl.
  rewrite validate_ok by done. done.
Qed.

(** A successful run leaves as many working records as it was given
    records. *)
Lemma run_sweep_length input st :
  sweep_on input = Ok st → length (refs st) = length input.
Proof.
  unfold run_sweep.
  destruct (check_settings _); [|done]. simpl.
  destruct (check_strategy _ _) as [[strat ss]|]; [|done]. simpl.
  destruct (validate _ _); [|done]. simpl.
  destruct (normalise _ _ _ _) as [rs|] eqn:Hrs; [|done]. simpl.
  intros Hsweep. apply sweep_identity in Hsweep. simpl in Hsweep.
  rewrite <- (length_fmap identity_of (refs st)), Hsweep, length_fmap.
  by eapply length_normalise.
Qed.

(** C6: whenever [run] returns, under STATS and under MARK the output has
    the length of the input and its [k]-th record is the [k]-th input
    record with the action field attached; under DELETE the output is a
    subsequence of the input, in the input's order.  And [run] does return
    when the settings are valid, the strategy is registered and passes
    validation (or validation is off), no record and no mutated field is
    named [dedupe], the mutators return on the input and no step can make a
    comparison throw. *)
Theorem run_keeps_order input :
  (∀ out,
     run_on input = Ok out →
     (Settings.action settings = ACTIONS.STATS
      ∨ Settings.action settings = ACTIONS.MARK →
      length out = length input
      ∧ ∀ k ref,
          input !! k = Some ref →
          ∃ v, out !! k
               = Some (<[Settings.actionField settings := v]> (spread ref)))
     ∧ (Settings.action settings = ACTIONS.DELETE →
        ∃ ks, ks `sublist_of` input ∧ out = map spread ks))
  ∧ (∀ strat ss rs,
       Settings.action settings ∈ ACTIONS.values →
       Settings.dupeRef settings ∈ DUPEREF.values →
       strategies !! Settings.strategy settings = Some strat →
       steps strat = Some ss →
       (Settings.validateStrategy settings = true →
        validateStrategy strat = Ok VTrue) →
       Forall (fun ref : record => ref !! "dedupe" = None) input →
       "dedupe" ∉ (default [] (mutators strat)).*1 →
       normalise mutator_registry strat 0 input = Ok rs →
       Forall (never_throws comparisons) ss →
       ∃ out, run_on input = Ok out).
Proof.
  split.
  - intros out. unfold run.
    destruct (run_sweep _ _ _ _ _) as [st|]; [|done]. simpl.
    destruct (aggregate (refs st)) as [scored|]; [|done]. simpl.
    unfold dispatch. intros Hout. split.
    + intros Haction.
      assert (∃ f, decorate settings f scored 0 input = Ok out) as [f Hf].
      { destruct Haction as [Ha|Ha]; rewrite Ha in Hout; simpl in Hout; eauto. }
      destruct (decorate_ok _ _ _ _ _ _ Hf) as [Hlen Hall]. split; [done|].
      intros k ref Hk. destruct (Hall _ _ Hk) as (r & _ & Hr). eauto.
    + intros Ha. rewrite Ha in Hout. simpl in Hout.
      destruct (filter_kept _ _ _ _) as [ks|] eqn:Hks; [|done]. simpl in Hout.
      injection Hout as <-. exists ks. split; [|done].
      by eapply filter_kept_sublist.
  - intros strat ss rs Ha Hd Hstrat Hss Hv Hinput Hmut Hrs Hsteps.
    unfold run.
    pose proof (run_sweep_unfold input strat ss Ha Hd Hstrat Hss Hv) as Hrun.
    rewrite Hrun, Hrs. simpl.
    pose proof (normalise_steps _ _ _ _ _ Hinput Hmut Hrs) as Hplain.
    destruct (sweep_returns comparisons settings ss 0 None []
                {| refs := rs; calls := 0; pairs := 0 |} Hsteps) as [st Hst];
      [done|done|].
    rewrite Hst. simpl.
    destruct (aggregate_returns (refs st)) as [scored Hscored].
    { by eapply sweep_keeps_steps. }
    rewrite Hscored. simpl.
    assert (0 + length input ≤ length scored)%nat as Hlen.
    { rewrite (proj1 (aggregate_ok _ _ Hscored)).
      apply sweep_identity in Hst. simpl in Hst.
      rewrite <- (length_fmap identity_of (refs st)), Hst, length_fmap.
      by rewrite (length_normalise _ _ _ _ _ Hrs). }
    unfold dispatch.
    destruct (decorate_returns settings (fun r _ => stats_of r) _ _ _ Hlen) as [o1 ->].
    destruct (decorate_returns settings (mark_of settings) _ _ _ Hlen) as [o2 ->].
    destruct (filter_kept_returns settings _ _ _ Hlen) as [ks ->]. simpl.
    repeat destruct (Nat.eqb _ _); by eexists.
Qed.

(** C7: a record whose final score equals the threshold is a duplicate.
    Under MARK the output record at its position carries the [markDupe]
    value; under DELETE the output is what the filter keeps of the records
    before its position followed by what it keeps of the records after it:
    the record itself is dropped. *)
Theorem threshold_is_inclusive input st out k w l ref q :
  sweep_on input = Ok st →
  run_on input = Ok out →
  refs st !! k = Some w →
  input !! k = Some ref →
  dedupe w = Steps l →
  dedupe_score l = Num q →
  q == Settings.threshold settings →
  (Settings.action settings = ACTIONS.MARK →
   out !! k
   = Some (<[Settings.actionField settings :=
              OMark (mark_value (Settings.markDupe settings) ref)]> (spread ref)))
  ∧ (Settings.action settings = ACTIONS.DELETE →
     ∃ scored before after,
       aggregate (refs st) = Ok scored
       ∧ filter_kept settings scored 0 (take k input) = Ok before
       ∧ filter_kept settings scored (S k) (drop (S k) input) = Ok after
       ∧ out = map spread (before ++ after)).
Proof.
  intros Hst Hout Hw Hk Hl Hscore Hq.
  unfold run in Hout. rewrite Hst in Hout. simpl in Hout.
  destruct (aggregate (refs st)) as [scored|] eqn:Hscored; [|done].
  simpl in Hout. unfold dispatch in Hout.
  assert (scored !! k = Some (w, Num q)) as Hagg.
  { destruct (proj2 (aggregate_ok _ _ Hscored) _ _ Hw) as (l' & Hl' & ->).
    congruence. }
  assert (Qle_bool (Settings.threshold settings) q = true) as Hle.
  { apply Qle_bool_iff. rewrite Hq. apply Qle_refl. }
  split; intros Ha; rewrite Ha in Hout; simpl in Hout.
  - destruct (decorate_ok _ _ _ _ _ _ Hout) as [_ Hall].
    destruct (Hall _ _ Hk) as (r & Hr & ->). simpl in Hr.
    rewrite Hagg in Hr. injection Hr as <-.
    unfold mark_of. simpl. by rewrite Hle.
  - destruct (filter_kept _ _ _ _) as [ks|] eqn:Hks; [|done]. simpl in Hout.
    injection Hout as <-.
    rewrite <- (take_drop_middle input k ref Hk) in Hks.
    rewrite filter_kept_app in Hks.
    destruct (filter_kept _ _ 0 (take k input)) as [before|] eqn:Hbefore; [|done].
    simpl in Hks. rewrite length_take_le in Hks
      by (apply Nat.lt_le_incl; by eapply lookup_lt_Some).
    rewrite Hagg in Hks.
    destruct (filter_kept _ _ (S k) _) as [after|] eqn:Hafter; [|done].
    simpl in Hks. unfold kept in Hks. simpl in Hks. rewrite Hle in Hks.
    simpl in Hks. injection Hks as <-. by exists scored, before, after.
Qed.

(** The sweep has nothing to compare when there is no working record. *)
Lemma sweep_nothing ss stepIndex sortedBy st :
  refs st = [] →
  sweep comparisons settings ss stepIndex sortedBy [] st = Ok st.
Proof.
  intros Hrefs. revert stepIndex sortedBy.
  induction ss as [|s ss IH]; intros stepIndex sortedBy; simpl; [done|].
  rewrite Hrefs.
  replace (if need_sort sortedBy (sort s) then Lodash.sortBy [] (sort s) else [])
    with (@nil nat) by (by destruct (need_sort _ _)).
  rewrite scan_once. simpl. apply IH.
Qed.

(** C10: on the empty input, with valid settings and a registered strategy
    that passes validation (or with validation off), [run] returns the empty
    output under every action, and the sweep ends without a single pair
    compared and without a single handler call. *)
Theorem run_on_empty_input strat ss :
  Settings.action settings ∈ ACTIONS.values →
  Settings.dupeRef settings ∈ DUPEREF.values →
  strategies !! Settings.strategy settings = Some strat →
  steps strat = Some ss →
  (Settings.validateStrategy settings = true → validateStrategy strat = Ok VTrue) →
  sweep_on [] = Ok {| refs := []; calls := 0; pairs := 0 |}
  ∧ run_on [] = Ok [].
Proof.
  intros Ha Hd Hstrat Hss Hv.
  assert (sweep_on [] = Ok {| refs := []; calls := 0; pairs := 0 |}) as Hsweep.
  { rewrite (run_sweep_unfold [] strat ss) by done. simpl.
    by apply sweep_nothing. }
  split; [done|]. unfold run. rewrite Hsweep. simpl.
  unfold dispatch. simpl. by repeat destruct (Nat.eqb _ _).
Qed.

End RunTheorems.

(** * Further properties *)

(** ** What the comparison of a pair writes *)

Section ScanWrites.

Variable comparisons : string -> option comparison_handler.
Variable settings : Settings.t.
Variable s : step.
Variable stepIndex : nat.
Variable sortedRefs : list nat.

Local Abbreviation len := (length sortedRefs).

Lemma scan_pair_refs st i n st' same :
  scan_pair comparisons settings s stepIndex sortedRefs st i n = Ok (st', same) →
  ∃ pi a pn b x,
    sortedRefs !! i = Some pi ∧ refs st !! pi = Some a
    ∧ sortedRefs !! n = Some pn ∧ refs st !! pn = Some b
    ∧ compareViaStep comparisons settings (calls st) a b s = Ok (x, calls st')
    ∧ pairs st' = S (pairs st)
    ∧ ((score_gt x (SNum (Num 0)) = false ∧ refs st' = refs st)
       ∨ (score_gt x (SNum (Num 0)) = true
          ∧ overridden a = false ∧ overridden b = false
          ∧ ∃ rs1,
              (rs1 = refs st
               ∨ (get_entry (refs st) pi stepIndex = None
                  ∧ rs1 = set_entry (refs st) pi stepIndex (anchor_entry settings x)))
              ∧ ((refs st' = rs1
                  ∧ ∃ old, get_entry rs1 pn stepIndex = Some old
                           ∧ score_ge x (score old) = false)
                 ∨ (refs st' = set_entry rs1 pn stepIndex (link_entry settings x a)
                    ∧ (get_entry rs1 pn stepIndex = None
                       ∨ ∃ old, get_entry rs1 pn stepIndex = Some old
                                ∧ score_ge x (score old) = true))))).
Proof.
  unfold scan_pair, sorted_ref. intros H.
  destruct (sortedRefs !! i) as [pi|] eqn:Hi; [|done].
  destruct (refs st !! pi) as [a|] eqn:Ha; [|done].
  destruct (sortedRefs !! n) as [pn|] eqn:Hn; [|done].
  destruct (refs st !! pn) as [b|] eqn:Hb; [|done].
  simpl in H.
  destruct (compareViaStep _ _ _ _ _ _) as [[x calls']|e] eqn:Hcmp; [|done].
  simpl in H. exists pi, a, pn, b, x.
  destruct (score_gt x (SNum (Num 0))) eqn:Hgt.
  - destruct (overridden a) eqn:Hoa; [done|].
    destruct (overridden b) eqn:Hob; [done|]. simpl in H.
    injection H as <- <-. simpl. repeat split; try done. right.
    repeat split; try done.
    destruct (get_entry (refs st) pi stepIndex) as [e0|] eqn:He.
    + exists (refs st). split; [by left|].
      destruct (get_entry (refs st) pn stepIndex) as [old|] eqn:Hold.
      * destruct (score_ge x (score old)) eqn:Hge.
        -- right. split; [done|]. right. by exists old.
        -- left. split; [done|]. by exists old.
      * right. split; [done|]. by left.
    + exists (set_entry (refs st) pi stepIndex (anchor_entry settings x)).
      split; [by right|]. fold (anchor_entry settings x).
      destruct (get_entry (set_entry _ _ _ _) pn stepIndex) as [old|] eqn:Hold.
      * destruct (score_ge x (score old)) eqn:Hge.
        -- right. split; [done|]. right. by exists old.
        -- left. split; [done|]. by exists old.
      * right. split; [done|]. by left.
  - injection H as <- <-. simpl. repeat split; try done. by left.
Qed.

End ScanWrites.

Lemma last_sparse_set {A : Type} (l : list (option A)) i v :
  (l = [] ∨ ∃ e, last l = Some (Some e)) →
  ∃ e, last (sparse_set l i v) = Some (Some e).
Proof.
  intros Hl. unfold sparse_set. case_decide as Hi.
  - destruct Hl as [->|[e He]]; [simpl in Hi; lia|].
    destruct (decide (i = pred (length l))) as [->|Hne].
    + exists v. rewrite last_lookup, length_insert.
      by rewrite list_lookup_insert_eq by lia.
    + exists e. rewrite last_lookup, length_insert.
      rewrite list_lookup_insert_ne by done. by rewrite <- last_lookup.
  - exists v. by rewrite app_assoc, last_snoc.
Qed.

Lemma elem_of_sparse_set {A : Type} (l : list (option A)) i v e :
  Some e ∈ sparse_set l i v → e = v ∨ Some e ∈ l.
Proof.
  unfold sparse_set. case_decide as Hi.
  - intros (j & Hj)%list_elem_of_lookup.
    destruct (decide (i = j)) as [<-|Hne].
    + rewrite list_lookup_insert_eq in Hj by done. left. congruence.
    + rewrite list_lookup_insert_ne in Hj by done. right.
      by eapply list_elem_of_lookup_2.
  - rewrite !elem_of_app. intros [?|[H|H]]; [by right| |].
    + by apply elem_of_replicate in H as [? _].
    + apply list_elem_of_singleton in H. left. congruence.
Qed.

Lemma steps_wf_set_entry settings rs pos k v :
  written_entry settings v →
  Forall (fun w => steps_wf settings (steps_of w)) rs →
  Forall (fun w => steps_wf settings (steps_of w)) (set_entry rs pos k v).
Proof.
  intros Hv Hrs. unfold set_entry. apply Forall_lookup. intros j w.
  destruct (decide (pos = j)) as [<-|Hne].
  - rewrite list_lookup_alter_eq. destruct (rs !! pos) as [w0|] eqn:Hw0; [|done].
    intros [= <-]. unfold steps_of at 1. simpl.
    destruct (proj1 (Forall_lookup _ _) Hrs _ _ Hw0) as [Hlast Hall].
    split; [right; by apply last_sparse_set|].
    intros e [->|He]%elem_of_sparse_set; [done|by apply Hall].
  - rewrite list_lookup_alter_ne by done. intros Hw.
    by eapply (proj1 (Forall_lookup _ _) Hrs).
Qed.

Section ScanScores.

Variable comparisons : string -> option comparison_handler.
Variable settings : Settings.t.

Lemma scan_pair_steps_wf s stepIndex sortedRefs st i n st' same :
  scan_pair comparisons settings s stepIndex sortedRefs st i n = Ok (st', same) →
  Forall (fun w => steps_wf settings (steps_of w)) (refs st) →
  Forall (fun w => steps_wf settings (steps_of w)) (refs st').
Proof.
  intros Hpair Hrs.
  destruct (scan_pair_refs _ _ _ _ _ _ _ _ _ _ Hpair)
    as (pi & a & pn & b & x & _ & _ & _ & _ & _ & _ & Hcases).
  destruct Hcases as [[_ ->]|(Hgt & _ & _ & rs1 & Hrs1 & Hrs2)]; [done|].
  assert (Forall (fun w => steps_wf settings (steps_of w)) rs1) as Hwf1.
  { destruct Hrs1 as [->|[_ ->]]; [done|]. apply steps_wf_set_entry; [|done].
    unfold written_entry, anchor_entry. simpl.
    by destruct (Settings.markOriginal settings). }
  destruct Hrs2 as [[-> _]|[-> _]]; [done|].
  apply steps_wf_set_entry; [|done]. exact Hgt.
Qed.

Lemma scan_steps_wf s stepIndex sortedRefs st i n st' :
  scan comparisons settings s stepIndex sortedRefs st i n = Ok st' →
  Forall (fun w => steps_wf settings (steps_of w)) (refs st) →
  Forall (fun w => steps_wf settings (steps_of w)) (refs st').
Proof.
  intros Hscan Hrs.
  destruct (scan_invariant comparisons settings s stepIndex sortedRefs
              (fun cur _ _ => Forall (fun w => steps_wf settings (steps_of w)) (refs cur)))
    with (st := st) (i := i) (n := n) (st' := st') as (_ & _ & H & _); try done.
  intros cur i0 n0 cur' same Hcur _ Hpair. by eapply scan_pair_steps_wf.
Qed.

Lemma sweep_steps_wf ss stepIndex sortedBy sortedRefs st st' :
  sweep comparisons settings ss stepIndex sortedBy sortedRefs st = Ok st' →
  Forall (fun w => steps_wf settings (steps_of w)) (refs st) →
  Forall (fun w => steps_wf settings (steps_of w)) (refs st').
Proof.
  revert stepIndex sortedBy sortedRefs st.
  induction ss as [|s ss IH]; intros stepIndex sortedBy sortedRefs st; simpl.
  { by intros [= <-]. }
  destruct (scan _ _ _ _ _ _ _ _) as [st1|e] eqn:Hscan; [|done]. simpl.
  intros Hrest Hsteps. eapply IH; [done|]. by eapply scan_steps_wf.
Qed.

End ScanScores.


(** What [_.sum] makes of scores that are numbers at or above 0. *)
Lemma sum_nonneg (xs : list (option jsscore)) (res : option jsscore) :
  (∀ c, Some c ∈ xs → ∃ q, to_number c = Num q ∧ (0 <= q)%Q) →
  (∀ r, res = Some r → ∃ q, to_number r = Num q ∧ (0 <= q)%Q) →
  match
    fold_left
      (fun res current =>
         match current, res with
         | None, _ => res
         | Some c, None => Some c
         | Some c, Some r => Some (SNum (num_add (to_number r) (to_number c)))
         end) xs res
  with
  | None => res = None ∧ ∀ c, Some c ∉ xs
  | Some r' =>
      ∃ q', to_number r' = Num q' ∧ (0 <= q')%Q
            ∧ ((0 < q')%Q
               ↔ (∃ r q, res = Some r ∧ to_number r = Num q ∧ (0 < q)%Q)
                 ∨ ∃ c q, Some c ∈ xs ∧ to_number c = Num q ∧ (0 < q)%Q)
  end.
Proof.
  revert res. induction xs as [|[c|] xs IH]; intros res Hxs Hres; simpl.
  - destruct res as [r|].
    + destruct (Hres r eq_refl) as (q & Hq & Hq0). exists q. repeat split; try done.
      * intros Hpos. left. by exists r, q.
      * intros [(r' & q' & [= <-] & Hq' & Hpos)|(c & q' & Hc & _)].
        -- congruence.
        -- by apply elem_of_nil in Hc.
    + split; [done|]. intros c Hc. by apply elem_of_nil in Hc.
  - destruct (Hxs c) as (qc & Hqc & Hqc0); [by left|].
    assert (∀ c', Some c' ∈ xs → ∃ q, to_number c' = Num q ∧ (0 <= q)%Q) as Hxs'.
    { intros c' Hc'. apply Hxs. by right. }
    destruct res as [r|].
    + destruct (Hres r eq_refl) as (q & Hq & Hq0).
      specialize (IH (Some (SNum (num_add (to_number r) (to_number c)))) Hxs').
      rewrite Hq, Hqc. rewrite Hq, Hqc in IH. cbn [num_add] in IH |- *.
      destruct (fold_left _ xs _) as [r'|].
      * destruct IH as (q' & Hq' & Hq'0 & Hiff).
        { intros ? [= <-]. exists (q + qc)%Q. split; [done|]. lra. }
        exists q'. repeat split; try done.
        -- intros Hpos. apply Hiff in Hpos as [(? & q2 & [= <-] & [= <-] & Hpos)|(c' & q2 & Hc' & ? & ?)].
           ++ destruct (Qlt_le_dec 0 q) as [Hq1|Hq1].
              ** left. by exists r, q.
              ** right. exists c, qc. split; [by left|]. split; [done|]. lra.
           ++ right. exists c', q2. split; [by right|done].
        -- intros [(? & q2 & [= <-] & Hq2 & Hpos)|(c' & q2 & Hc' & Hq2 & Hpos)]; apply Hiff.
           ++ left. eexists _, _. split; [done|]. split; [done|].
              rewrite Hq in Hq2. injection Hq2 as <-. lra.
           ++ apply elem_of_cons in Hc' as [[= ->]|Hc'].
              ** left. eexists _, _. split; [done|]. split; [done|].
                 rewrite Hqc in Hq2. injection Hq2 as <-. lra.
              ** right. by exists c', q2.
      * destruct IH as [? _]; [|done].
        intros ? [= <-]. exists (q + qc)%Q. split; [done|]. lra.
    + specialize (IH (Some c) Hxs').
      destruct (fold_left _ xs _) as [r'|].
      * destruct IH as (q' & Hq' & Hq'0 & Hiff).
        { intros ? [= <-]. by exists qc. }
        exists q'. repeat split; try done.
        -- intros Hpos. right. apply Hiff in Hpos as [(? & q2 & [= <-] & ? & Hpos)|(c' & q2 & Hc' & ? & ?)].
           ++ exists c, q2. split; [by left|done].
           ++ exists c', q2. split; [by right|done].
        -- intros [(? & ? & ? & _)|(c' & q2 & Hc' & Hq2 & Hpos)]; [done|]. apply Hiff.
           apply elem_of_cons in Hc' as [[= ->]|Hc'].
           ++ left. by exists c, q2.
           ++ right. by exists c', q2.
      * destruct IH as [? _]; [|done]. intros ? [= <-]. by exists qc.
  - assert (∀ c', Some c' ∈ xs → ∃ q, to_number c' = Num q ∧ (0 <= q)%Q) as Hxs'.
    { intros c' Hc'. apply Hxs. by right. }
    specialize (IH res Hxs' Hres).
    destruct (fold_left _ xs res) as [r'|].
    + destruct IH as (q' & Hq' & Hq'0 & Hiff). exists q'. repeat split; try done.
      * intros Hpos. apply Hiff in Hpos as [?|(c' & q2 & Hc' & ? & ?)]; [by left|].
        right. exists c', q2. split; [by right|done].
      * intros [?|(c' & q2 & Hc' & Hq2 & Hpos)]; apply Hiff; [by left|].
        apply elem_of_cons in Hc' as [?|Hc']; [done|]. right. by exists c', q2.
    + destruct IH as [-> Hnone]. split; [done|].
      intros c [?|Hc]%elem_of_cons; [done|]. by eapply Hnone.
Qed.

Lemma score_gt_zero x :
  score_gt x (SNum (Num 0)) = true ↔ ∃ q, to_number x = Num q ∧ (0 < q)%Q.
Proof.
  unfold score_gt. simpl. destruct (to_number x) as [q|]; simpl.
  - rewrite negb_true_iff. split.
    + intros Hle. exists q. split; [done|]. apply Qnot_le_lt. intros H.
      apply Qle_bool_iff in H. congruence.
    + intros (? & [= <-] & Hpos). destruct (Qle_bool q 0) eqn:Hle; [|done].
      apply Qle_bool_iff in Hle. lra.
  - split; [done|]. by intros (? & ? & _).
Qed.

Lemma written_entry_nonneg settings e :
  written_entry settings e → ∃ q, to_number (score e) = Num q ∧ (0 <= q)%Q.
Proof.
  unfold written_entry.
  destruct (dupeOf e), (Settings.markOriginal settings);
    try (intros (q & Hq & Hpos)%score_gt_zero; exists q; split; [done|lra]).
  all: intros ->; exists 0%Q; split; [done|lra].
Qed.

(** The aggregated score of a [steps] array as the sweep leaves it is a
    number at or above 0, and it is above 0 exactly when some entry is. *)
Lemma dedupe_score_wf settings l :
  steps_wf settings l →
  ∃ q, dedupe_score l = Num q ∧ (0 <= q)%Q
       ∧ ((0 < q)%Q
          ↔ ∃ e, Some e ∈ l ∧ score_gt (score e) (SNum (Num 0)) = true).
Proof.
  intros [Hlast Hall]. destruct l as [|o l].
  { exists 0%Q. simpl. repeat split; [lra|lra|].
    intros (e & He & _). by apply elem_of_nil in He. }
  destruct Hlast as [?|[e0 He0]]; [done|].
  assert (Some e0 ∈ o :: l) as Hin0.
  { apply last_Some in He0 as [l' ->]. apply elem_of_app. right. by left. }
  unfold dedupe_score, sum.
  pose proof (sum_nonneg (map (fmap score) (o :: l)) None) as Hsum.
  destruct (fold_left _ _ None) as [x|].
  - destruct Hsum as (q & Hq & Hq0 & Hiff).
    { intros c (o' & Hc & Ho')%list_elem_of_fmap. destruct o' as [e|]; [|done].
      injection Hc as ->. apply (written_entry_nonneg settings). by apply Hall. }
    { done. }
    rewrite Hq. simpl.
    exists (q / inject_Z (Z.of_nat (S (length l))))%Q.
    assert (0 < inject_Z (Z.of_nat (S (length l))))%Q as Hlen.
    { change 0%Q with (inject_Z 0). rewrite <- Zlt_Qlt. lia. }
    split; [done|]. split.
    + apply Qle_shift_div_l; [done|]. lra.
    + split.
      * intros Hpos.
        assert (0 < q)%Q as Hq1.
        { destruct (Qlt_le_dec 0 q) as [?|Hle]; [done|].
          assert (q / inject_Z (Z.of_nat (S (length l))) <= 0)%Q.
          { apply Qle_shift_div_r; [done|]. lra. }
          lra. }
        apply Hiff in Hq1 as [(? & ? & ? & _)|(c & qc & Hc & Hqc & Hpos')]; [done|].
        apply list_elem_of_fmap in Hc as (o' & Hc & Ho').
        destruct o' as [e|]; [|done]. injection Hc as ->.
        exists e. split; [done|]. apply score_gt_zero. by exists qc.
      * intros (e & He & (qe & Hqe & Hpos)%score_gt_zero).
        apply Qlt_shift_div_l; [done|].
        assert (0 < q)%Q; [|lra]. apply Hiff. right. exists (score e), qe.
        split; [|done]. apply list_elem_of_fmap. exists (Some e). done.
  - destruct Hsum as [_ Hnone]; [| |].
    { intros c (o' & Hc & Ho')%list_elem_of_fmap. destruct o' as [e|]; [|done].
      injection Hc as ->. apply (written_entry_nonneg settings). by apply Hall. }
    { done. }
    exfalso. apply (Hnone (score e0)). apply list_elem_of_fmap. by exists (Some e0).
Qed.

(** ** [_.uniq] and the [dupeOf] list *)

Lemma uniq_from_sublist seen l : uniq_from seen l `sublist_of` l.
Proof.
  revert seen. induction l as [|x l IH]; intros seen; simpl; [done|].
  destruct (existsb _ seen).
  - apply sublist_cons. apply IH.
  - apply sublist_skip. apply IH.
Qed.

Lemma uniq_from_covers seen l x :
  x ∈ l →
  existsb (same_value_zero x) seen = true
  ∨ ∃ y, y ∈ uniq_from seen l ∧ same_value_zero x y = true.
Proof.
  revert seen. induction l as [|z l IH]; intros seen Hx; simpl.
  { by apply elem_of_nil in Hx. }
  apply elem_of_cons in Hx as [->|Hx].
  - destruct (existsb (same_value_zero z) seen) eqn:Hseen; [by left|].
    right. exists z. split; [by left|].
    destruct z as [[a|[u|p xs]]|]; simpl; try done.
    + apply Nat.eqb_refl.
    + clear. induction u as [|c u IH]; simpl; [done|]. by rewrite N.eqb_refl.
    + apply Nat.eqb_refl.
  - destruct (existsb (same_value_zero z) seen) eqn:Hseen.
    + apply IH, Hx.
    + destruct (IH (z :: seen) Hx) as [Hex|(y & Hy & Hxy)].
      * simpl in Hex. apply orb_true_iff in Hex as [Hxz|?]; [|by left].
        right. exists z. split; [by left|done].
      * right. exists y. split; [by right|done].
Qed.

Lemma uniq_from_fresh seen l y :
  y ∈ uniq_from seen l → existsb (same_value_zero y) seen = false.
Proof.
  revert seen. induction l as [|z l IH]; intros seen; simpl.
  { intros H. by apply elem_of_nil in H. }
  destruct (existsb (same_value_zero z) seen) eqn:Hseen; [apply IH|].
  intros [->|Hy]%elem_of_cons; [done|].
  apply IH in Hy. simpl in Hy. by apply orb_false_iff in Hy as [_ ?].
Qed.

(** Of two values that [_.uniq] keeps, the later is not the earlier. *)
Lemma uniq_from_distinct seen l i j x y :
  (i < j)%nat →
  uniq_from seen l !! i = Some x → uniq_from seen l !! j = Some y →
  same_value_zero y x = false.
Proof.
  revert seen i j. induction l as [|z l IH]; intros seen i j Hij; simpl; [done|].
  destruct (existsb (same_value_zero z) seen) eqn:Hseen; [by apply IH|].
  destruct i as [|i], j as [|j]; try lia; simpl.
  - intros [= <-] Hy. apply list_elem_of_lookup_2, uniq_from_fresh in Hy.
    simpl in Hy. by apply orb_false_iff in Hy as [? _].
  - apply IH. lia.
Qed.

Lemma omap_lookup_ordered {A : Type} (l : list (option A)) i j x y :
  (i < j)%nat → omap id l !! i = Some x → omap id l !! j = Some y →
  ∃ i' j', (i' < j')%nat ∧ l !! i' = Some (Some x) ∧ l !! j' = Some (Some y).
Proof.
  revert i j. induction l as [|[a|] l IH]; intros i j Hij; simpl; [done| |].
  - destruct i as [|i], j as [|j]; try lia; simpl.
    + intros [= <-] Hy. apply list_elem_of_lookup_2 in Hy.
      apply list_elem_of_omap in Hy as (o & Ho & Hy). simpl in Hy. subst o.
      apply list_elem_of_lookup in Ho as [j' Hj'].
      exists 0%nat, (S j'). split; [lia|done].
    + intros Hx Hy. destruct (IH i j) as (i' & j' & ? & ? & ?); [lia|done|done|].
      exists (S i'), (S j'). split; [lia|done].
  - intros Hx Hy. destruct (IH i j) as (i' & j' & ? & ? & ?); [lia|done|done|].
    exists (S i'), (S j'). split; [lia|done].
Qed.

Lemma dupeOf_list_spec w :
  (∀ d, d ∈ dupeOf_list w → ∃ e, Some e ∈ steps_of w ∧ dupeOf e = Some d)
  ∧ (∀ e d, Some e ∈ steps_of w → dupeOf e = Some d →
       ∃ d', d' ∈ dupeOf_list w ∧ same_value_zero (Some d) (Some d') = true)
  ∧ (∀ i j x y, (i < j)%nat →
       dupeOf_list w !! i = Some x → dupeOf_list w !! j = Some y →
       same_value_zero (Some y) (Some x) = false).
Proof.
  unfold dupeOf_list. repeat split.
  - intros d (o & Ho & Hd)%list_elem_of_omap. simpl in Hd. subst o.
    pose proof (elem_of_sublist _ _ _ Ho (uniq_from_sublist _ _)) as Hin.
    apply list_elem_of_fmap in Hin as ([e|] & He & Hin); [|done].
    exists e. split; [done|]. by rewrite He.
  - intros e d He Hd.
    destruct (uniq_from_covers [] (map (λ e, e ≫= dupeOf) (steps_of w)) (Some d))
      as [?|(y & Hy & Hdy)]; [|done|].
    { apply list_elem_of_fmap. exists (Some e). by rewrite <- Hd. }
    destruct y as [d'|]; [|by destruct d].
    exists d'. split; [|done]. apply list_elem_of_omap. by exists (Some d').
  - intros i j x y Hij Hx Hy.
    destruct (omap_lookup_ordered _ _ _ _ _ Hij Hx Hy) as (i' & j' & Hij' & Hx' & Hy').
    by eapply uniq_from_distinct.
Qed.

(** The [dupeOf] list of a working record: every reference in it is the
    [dupeOf] of an entry of [steps]; the [dupeOf] of every entry is in it
    (up to [SameValueZero]); and no two of its references are the same. *)
Theorem dupeOf_list_lists_each_reference_once w :
  (∀ d, d ∈ dupeOf_list w → ∃ e, Some e ∈ steps_of w ∧ dupeOf e = Some d)
  ∧ (∀ e d, Some e ∈ steps_of w → dupeOf e = Some d →
       ∃ d', d' ∈ dupeOf_list w ∧ same_value_zero (Some d) (Some d') = true)
  ∧ (∀ i j x y, (i < j)%nat →
       dupeOf_list w !! i = Some x → dupeOf_list w !! j = Some y →
       same_value_zero (Some y) (Some x) = false).
Proof. exact (dupeOf_list_spec w). Qed.

(** ** The [steps] arrays after the sweep *)

Section RunScores.

Variable comparisons : string -> option comparison_handler.
Variable mutator_registry : string -> option mutator_handler.
Variable strategies : gmap string strategy.
Variable settings : Settings.t.

Lemma working_fresh strat index original w :
  working mutator_registry strat index original = Ok w → steps_of w = [].
Proof.
  unfold working. destruct (mapValues _ _ _) as [mutated|]; [|done]. simpl.
  intros [= <-]. unfold steps_of, bookkeeping. simpl. by destruct (_ !! "dedupe").
Qed.

Lemma normalise_fresh strat index input rs :
  normalise mutator_registry strat index input = Ok rs →
  Forall (fun w => steps_of w = []) rs.
Proof.
  revert index rs. induction input as [|original input IH]; intros index rs; simpl.
  { by intros [= <-]. }
  destruct (working _ _ _ _) as [w|] eqn:Hw; [|done]. simpl.
  destruct (normalise _ _ _ _) as [ws|] eqn:Hws; [|done]. simpl.
  intros [= <-]. constructor; [by eapply working_fresh|by eapply IH].
Qed.

(** After the sweep of a run, every [steps] array is as the scan leaves
    them. *)
Lemma run_sweep_steps_wf input st :
  run_sweep comparisons mutator_registry strategies settings input = Ok st →
  Forall (fun w => steps_wf settings (steps_of w)) (refs st).
Proof.
  unfold run_sweep.
  destruct (check_settings _); [|done]. simpl.
  destruct (check_strategy _ _) as [[strat ss]|]; [|done]. simpl.
  destruct (validate _ _); [|done]. simpl.
  destruct (normalise _ _ _ _) as [rs|] eqn:Hrs; [|done]. simpl.
  intros Hsweep. eapply sweep_steps_wf; [done|]. simpl.
  eapply Forall_impl; [by eapply normalise_fresh|].
  intros w ->. split; [by left|]. intros e He. by apply elem_of_nil in He.
Qed.

End RunScores.

(** ** How far a scan goes *)

Section ScanBounds.

Variable comparisons : string -> option comparison_handler.
Variable settings : Settings.t.
Variable s : step.
Variable stepIndex : nat.
Variable sortedRefs : list nat.

Local Abbreviation len := (length sortedRefs).

Lemma advance_pairs_left i n same :
  (i < n)%nat → (n < len)%nat →
  (pairs_left len (advance len i n same).1 (advance len i n same).2 + 2
   ≤ pairs_left len i n)%nat.
Proof.
  intros Hin Hn. unfold advance, pairs_left.
  destruct same; [case_decide|]; simpl.
  - assert (len = S n) as Hlen by lia. rewrite Hlen.
    replace (S n - S i)%nat with (S (n - S i)) by lia.
    replace (S n - S (S i))%nat with (n - S i)%nat by lia.
    replace (S n - S (S (S i)))%nat with (n - S i - 1)%nat by lia.
    replace (S n - n)%nat with 1%nat by lia.
    destruct (n - S i)%nat as [|m]; simpl; nia.
  - lia.
  - replace (len - S i)%nat with (S (len - S (S i))) by lia.
    replace (len - S (S (S i)))%nat with (len - S (S i) - 1)%nat by lia.
    destruct (len - S (S i))%nat as [|m] eqn:Hm; simpl; nia.
Qed.

Lemma scan_pairs_bounds st st' :
  scan comparisons settings s stepIndex sortedRefs st 0 1 = Ok st' →
  (pairs st + (len - 1) ≤ pairs st')%nat
  ∧ (2 * pairs st' ≤ 2 * pairs st + len * (len - 1))%nat.
Proof.
  intros Hscan.
  destruct (scan_invariant comparisons settings s stepIndex sortedRefs
              (fun cur i n =>
                 (i < n)%nat ∧ (n = S i ∨ n < len)%nat
                 ∧ (pairs st + i ≤ pairs cur)%nat
                 ∧ (2 * pairs cur + pairs_left len i n
                    ≤ 2 * pairs st + pairs_left len 0 1)%nat))
    with (st := st) (i := 0%nat) (n := 1%nat) (st' := st')
    as (i' & n' & (Hin & Hshape & Hlow & Hup) & Hend); try done.
  - intros cur i n cur' same (Hin & Hshape & Hlow & Hup) Hn Hpair.
    destruct (scan_pair_ok _ _ _ _ _ _ _ _ _ _ Hpair)
      as (? & ? & ? & ? & ? & _ & _ & _ & _ & _ & Hpairs & _).
    pose proof (advance_pairs_left i n same Hin Hn) as Hdrop.
    split; [by apply advance_ordered|]. rewrite Hpairs.
    unfold advance in *. destruct same; [case_decide|]; simpl in *; lia.
  - repeat split; lia.
  - split; [lia|]. unfold pairs_left in Hup.
    destruct len as [|[|m]]; simpl in *; nia.
Qed.

End ScanBounds.

Section ScanEntries.

Variable comparisons : string -> option comparison_handler.
Variable settings : Settings.t.
Variable s : step.
Variable stepIndex : nat.
Variable sortedRefs : list nat.

Lemma entries_grow_refl rs : entries_grow stepIndex rs rs.
Proof. split; [done|]. intros pos e He. exists e. split; [done|by left]. Qed.

Lemma score_ge_trans x y z :
  score_ge x y = true → score_ge y z = true → score_ge x z = true.
Proof.
  unfold score_ge, num_leb.
  destruct (to_number x), (to_number y), (to_number z); try done.
  rewrite !Qle_bool_iff. intros. lra.
Qed.

Lemma entries_grow_trans rs1 rs2 rs3 :
  entries_grow stepIndex rs1 rs2 → entries_grow stepIndex rs2 rs3 → entries_grow stepIndex rs1 rs3.
Proof.
  intros [Hk12 He12] [Hk23 He23]. split.
  - intros pos k Hk. by rewrite Hk23, Hk12.
  - intros pos e He. destruct (He12 _ _ He) as (e2 & He2 & Hrel2).
    destruct (He23 _ _ He2) as (e3 & He3 & Hrel3). exists e3. split; [done|].
    destruct Hrel2 as [->|Hge2]; [done|]. destruct Hrel3 as [->|Hge3]; [by right|].
    right. by eapply score_ge_trans.
Qed.

Lemma entries_grow_set_entry rs pos v :
  (pos < length rs)%nat →
  (∀ old, get_entry rs pos stepIndex = Some old → score_ge (score v) (score old) = true) →
  entries_grow stepIndex rs (set_entry rs pos stepIndex v).
Proof.
  intros Hpos Hold. split.
  - intros pos' k Hk. rewrite get_entry_set_entry by done.
    case_decide as Hc; [|done]. by destruct Hc.
  - intros pos' e He. rewrite get_entry_set_entry by done.
    case_decide as Hc.
    + destruct Hc as [<- _]. exists v. split; [done|]. right. by apply Hold.
    + exists e. split; [done|by left].
Qed.

Lemma scan_pair_entries_grow st i n st' same :
  scan_pair comparisons settings s stepIndex sortedRefs st i n = Ok (st', same) →
  entries_grow stepIndex (refs st) (refs st').
Proof.
  intros Hpair.
  destruct (scan_pair_refs _ _ _ _ _ _ _ _ _ _ Hpair)
    as (pi & a & pn & b & x & _ & Ha & _ & Hb & _ & _ & Hcases).
  destruct Hcases as [[_ ->]|(Hgt & _ & _ & rs1 & Hrs1 & Hrs2)];
    [apply entries_grow_refl|].
  assert (pi < length (refs st))%nat as Hpi by (by eapply lookup_lt_Some).
  assert (pn < length (refs st))%nat as Hpn by (by eapply lookup_lt_Some).
  assert (entries_grow stepIndex (refs st) rs1 ∧ length rs1 = length (refs st)) as [H1 Hlen1].
  { destruct Hrs1 as [->|[Hnone ->]]; [split; [apply entries_grow_refl|done]|].
    split; [|apply length_set_entry].
    apply entries_grow_set_entry; [done|]. intros old Hold. congruence. }
  eapply entries_grow_trans; [exact H1|].
  destruct Hrs2 as [[-> _]|[-> Hold]]; [apply entries_grow_refl|].
  apply entries_grow_set_entry; [lia|].
  intros old Hold'. destruct Hold as [Hnone|(old' & Hold & Hge)]; [congruence|].
  assert (old = old') as -> by congruence. exact Hge.
Qed.

Lemma scan_entries_grow st i n st' :
  scan comparisons settings s stepIndex sortedRefs st i n = Ok st' →
  entries_grow stepIndex (refs st) (refs st').
Proof.
  intros Hscan.
  destruct (scan_invariant comparisons settings s stepIndex sortedRefs
              (fun cur _ _ => entries_grow stepIndex (refs st) (refs cur)))
    with (st := st) (i := i) (n := n) (st' := st') as (_ & _ & H & _); try done.
  - intros cur i0 n0 cur' same Hcur _ Hpair.
    eapply entries_grow_trans; [exact Hcur|]. by eapply scan_pair_entries_grow.
  - apply entries_grow_refl.
Qed.

End ScanEntries.

(** ** The checks that open [run] *)

Section RunErrors.

Variable comparisons : string -> option comparison_handler.
Variable mutator_registry : string -> option mutator_handler.
Variable strategies : gmap string strategy.
Variable settings : Settings.t.

Local Abbreviation run_on :=
  (run comparisons mutator_registry strategies settings).
Local Abbreviation sweep_on :=
  (run_sweep comparisons mutator_registry strategies settings).

Lemma existsb_eqb_elem_of x l : existsb (Nat.eqb x) l = true ↔ x ∈ l.
Proof.
  rewrite existsb_exists. split.
  - intros (y & Hy & ->%Nat.eqb_eq). by apply list_elem_of_In.
  - intros Hx. exists x. split; [by apply list_elem_of_In|apply Nat.eqb_refl].
Qed.

(** The checks that open [run], in their order: the action, the [dupeRef],
    the strategy's name, the strategy's [steps].  Each failure is the
    [Error] of its check, whatever the input; in particular a strategy
    without [steps] is turned down before [validateStrategy] can throw on
    it. *)
Theorem run_checks_settings_then_strategy input :
  (Settings.action settings ∉ ACTIONS.values →
   run_on input
   = Throw (Error ("Invalid action " +:+ dquote +:+ pretty (Settings.action settings)
                   +:+ dquote +:+ " - choose one action from Dedupe.ACTIONS")))
  ∧ (Settings.action settings ∈ ACTIONS.values →
     Settings.dupeRef settings ∉ DUPEREF.values →
     run_on input
     = Throw (Error ("Invalid dupeRef " +:+ dquote +:+ pretty (Settings.dupeRef settings)
                     +:+ dquote +:+ " - choose one action from Dedupe.DUPEREF")))
  ∧ (Settings.action settings ∈ ACTIONS.values →
     Settings.dupeRef settings ∈ DUPEREF.values →
     strategies !! Settings.strategy settings = None →
     run_on input = Throw (Error "Unknown strategy specified"))
  ∧ (∀ strat,
       Settings.action settings ∈ ACTIONS.values →
       Settings.dupeRef settings ∈ DUPEREF.values →
       strategies !! Settings.strategy settings = Some strat →
       steps strat = None →
       run_on input = Throw (Error "Invalid strategy schema")).
Proof.
  unfold run, run_sweep, check_settings, check_strategy. repeat split.
  - intros Ha. destruct (existsb _ ACTIONS.values) eqn:Hex; [|done].
    by apply existsb_eqb_elem_of in Hex.
  - intros Ha Hd. apply existsb_eqb_elem_of in Ha.
    destruct (existsb (Nat.eqb (Settings.dupeRef settings)) DUPEREF.values) eqn:Hex.
    + by apply existsb_eqb_elem_of in Hex.
    + by rewrite Ha.
  - intros Ha Hd Hs. apply existsb_eqb_elem_of in Ha, Hd.
    by rewrite Ha, Hd, Hs.
  - intros strat Ha Hd Hs Hsteps. apply existsb_eqb_elem_of in Ha, Hd.
    by rewrite Ha, Hd, Hs, Hsteps.
Qed.

(** With validation on, a registered strategy that has [steps] but fails
    a check is turned down with the list of its errors, whatever the
    input. *)
Theorem run_reports_validation_errors strat ss input :
  Settings.action settings ∈ ACTIONS.values →
  Settings.dupeRef settings ∈ DUPEREF.values →
  strategies !! Settings.strategy settings = Some strat →
  steps strat = Some ss →
  Settings.validateStrategy settings = true →
  ¬ passes strat →
  ∃ errs,
    errs ≠ []
    ∧ validateStrategy strat = Ok (VErrors errs)
    ∧ run_on input
      = Throw (Error ("Invalid strategy - " +:+ String.concat ", " errs)).
Proof.
  intros Ha Hd Hs Hsteps Hv Hfail.
  destruct (validateStrategy_with_steps strat ss Hsteps) as [v Hval].
  destruct v as [|errs].
  { exfalso. apply Hfail. by apply validateStrategy_true. }
  exists errs. split.
  { intros ->. unfold validateStrategy in Hval. rewrite Hsteps in Hval.
    injection Hval as Hval. by destruct (_ ++ _). }
  split; [done|].
  unfold run, run_sweep. rewrite check_settings_ok by done. simpl.
  unfold check_strategy. rewrite Hs, Hsteps. simpl.
  unfold validate. by rewrite Hv, Hval.
Qed.

End RunErrors.

(** ** Inputs with nothing to compare *)

Section Trivial.

Variable comparisons : string -> option comparison_handler.
Variable mutator_registry : string -> option mutator_handler.
Variable strategies : gmap string strategy.
Variable settings : Settings.t.

Local Abbreviation run_on :=
  (run comparisons mutator_registry strategies settings).
Local Abbreviation sweep_on :=
  (run_sweep comparisons mutator_registry strategies settings).

(** Fewer than two working records leave the scan nothing to compare. *)
Lemma sweep_short ss stepIndex sortedBy sortedRefs st :
  (length (refs st) ≤ 1)%nat → (length sortedRefs ≤ 1)%nat →
  sweep comparisons settings ss stepIndex sortedBy sortedRefs st = Ok st.
Proof.
  intros Hrefs. revert stepIndex sortedBy sortedRefs.
  induction ss as [|s ss IH]; intros stepIndex sortedBy sortedRefs Hsorted; simpl; [done|].
  set (sorted' := if need_sort sortedBy (sort s)
                  then Lodash.sortBy (refs st) (sort s) else sortedRefs).
  assert (length sorted' ≤ 1)%nat as Hlen.
  { subst sorted'. destruct (need_sort _ _); [by rewrite length_sortBy|done]. }
  rewrite scan_once. destruct (decide (1 < length sorted')%nat); [lia|]. simpl.
  by apply IH.
Qed.

Lemma aggregate_fresh rs :
  Forall (fun w => dedupe w = Steps []) rs →
  aggregate rs = Ok (map (fun w => (w, Num 0)) rs).
Proof.
  induction 1 as [|w rs Hw Hrs IH]; simpl; [done|]. by rewrite Hw, IH.
Qed.

Lemma decorate_fresh (rs : list wref) (done_ : list wref) (output : list record) :
  length rs = length output →
  Forall (fun w => dedupe w = Steps []) rs →
  decorate settings (fun r _ => stats_of r)
    (map (fun w => (w, Num 0)) (done_ ++ rs)) (length done_) output
  = Ok (map (fun ref => <[Settings.actionField settings := OStats (Num 0) []]>
                          (spread ref)) output).
Proof.
  revert done_ output. induction rs as [|w rs IH]; intros done_ [|ref output] Hlen Hrs;
    simpl in Hlen; try done.
  inversion Hrs as [|? ? Hw Hrs']; subst. simpl.
  rewrite list_lookup_fmap, lookup_app_r by done. rewrite Nat.sub_diag. simpl.
  specialize (IH (done_ ++ [w]) output). rewrite <- app_assoc in IH. simpl in IH.
  rewrite length_app in IH. simpl in IH. rewrite Nat.add_1_r in IH.
  rewrite IH by (done || lia). simpl. do 3 f_equal.
  unfold stats_of, dupeOf_list, steps_of. simpl. by rewrite Hw.
Qed.

Lemma working_plain strat index original w :
  original !! "dedupe" = None →
  "dedupe" ∉ (default [] (mutators strat)).*1 →
  working mutator_registry strat index original = Ok w →
  dedupe w = Steps [].
Proof.
  intros Horig Hmut. unfold working.
  destruct (mapValues _ _ _) as [mutated|] eqn:Hm; [|done]. simpl.
  intros [= <-]. unfold bookkeeping. simpl.
  rewrite lookup_union_r; [by rewrite Horig|].
  apply not_elem_of_list_to_map_1. by rewrite (mapValues_keys _ _ _ _ Hm).
Qed.

Lemma normalise_plain strat index input rs :
  Forall (fun ref : record => ref !! "dedupe" = None) input →
  "dedupe" ∉ (default [] (mutators strat)).*1 →
  normalise mutator_registry strat index input = Ok rs →
  Forall (fun w => dedupe w = Steps []) rs.
Proof.
  intros Hinput Hmut. revert index rs.
  induction Hinput as [|original input Horig Hinput IH]; intros index rs; simpl.
  { by intros [= <-]. }
  destruct (working _ _ _ _) as [w|] eqn:Hw; [|done]. simpl.
  destruct (normalise _ _ _ _) as [ws|] eqn:Hws; [|done]. simpl.
  intros [= <-]. constructor; [by eapply working_plain|by eapply IH].
Qed.

(** With fewer than two records, or with a strategy of no steps, nothing
    is compared: the sweep returns the working records as normalisation
    made them, without a pair and without a handler call, and under STATS
    every record comes back with the score 0 and an empty [dupeOf]. *)
Theorem nothing_to_compare strat ss input rs :
  Settings.action settings ∈ ACTIONS.values →
  Settings.dupeRef settings ∈ DUPEREF.values →
  strategies !! Settings.strategy settings = Some strat →
  steps strat = Some ss →
  (Settings.validateStrategy settings = true → validateStrategy strat = Ok VTrue) →
  normalise mutator_registry strat 0 input = Ok rs →
  (length input ≤ 1)%nat ∨ ss = [] →
  sweep_on input = Ok {| refs := rs; calls := 0; pairs := 0 |}
  ∧ (Settings.action settings = ACTIONS.STATS →
     Forall (fun ref : record => ref !! "dedupe" = None) input →
     "dedupe" ∉ (default [] (mutators strat)).*1 →
     run_on input
     = Ok (map (fun ref => <[Settings.actionField settings := OStats (Num 0) []]>
                             (spread ref)) input)).
Proof.
  intros Ha Hd Hs Hss Hv Hrs Hfew.
  assert (sweep_on input = Ok {| refs := rs; calls := 0; pairs := 0 |}) as Hsweep.
  { rewrite (run_sweep_unfold _ _ _ _ input strat ss) by done. rewrite Hrs. simpl.
    destruct Hfew as [Hlen| ->]; [|done].
    apply sweep_short; simpl; [|lia]. by rewrite (length_normalise _ _ _ _ _ Hrs). }
  split; [done|]. intros Hstats Hinput Hmut.
  unfold run. rewrite Hsweep. simpl.
  pose proof (normalise_plain _ _ _ _ Hinput Hmut Hrs) as Hplain.
  rewrite (aggregate_fresh _ Hplain). simpl.
  unfold dispatch. rewrite Hstats. simpl.
  apply (decorate_fresh rs [] input); [|done].
  by eapply length_normalise.
Qed.

End Trivial.

Lemma overridden_set_entry rs pos k v w :
  rs !! pos = Some w → overridden w = false →
  overridden <$> set_entry rs pos k v = overridden <$> rs.
Proof.
  intros Hw Hov. unfold set_entry. apply list_eq. intros j.
  rewrite !list_lookup_fmap. destruct (decide (pos = j)) as [<-|Hne].
  - rewrite list_lookup_alter_eq, Hw. simpl. by rewrite Hov.
  - by rewrite list_lookup_alter_ne.
Qed.

(** ** A field named [dedupe] *)

Section Overridden.

Variable comparisons : string -> option comparison_handler.
Variable settings : Settings.t.

Lemma scan_pair_overridden s stepIndex sortedRefs st i n st' same :
  scan_pair comparisons settings s stepIndex sortedRefs st i n = Ok (st', same) →
  overridden <$> refs st' = overridden <$> refs st.
Proof.
  intros Hpair.
  destruct (scan_pair_refs _ _ _ _ _ _ _ _ _ _ Hpair)
    as (pi & a & pn & b & x & _ & Ha & _ & Hb & _ & _ & Hcases).
  destruct Hcases as [[_ ->]|(Hgt & Hoa & Hob & rs1 & Hrs1 & Hrs2)]; [done|].
  assert (overridden <$> rs1 = overridden <$> refs st) as H1.
  { destruct Hrs1 as [->|[_ ->]]; [done|]. by eapply overridden_set_entry. }
  destruct Hrs2 as [[-> _]|[-> _]]; [done|]. rewrite <- H1.
  assert ((overridden <$> rs1) !! pn = Some false) as Hpn.
  { rewrite H1, list_lookup_fmap, Hb. simpl. by rewrite Hob. }
  rewrite list_lookup_fmap in Hpn.
  destruct (rs1 !! pn) as [b1|] eqn:Hb1; [|done]. simpl in Hpn.
  eapply overridden_set_entry; [done|congruence].
Qed.

Lemma scan_overridden s stepIndex sortedRefs st i n st' :
  scan comparisons settings s stepIndex sortedRefs st i n = Ok st' →
  overridden <$> refs st' = overridden <$> refs st.
Proof.
  intros Hscan.
  destruct (scan_invariant comparisons settings s stepIndex sortedRefs
              (fun cur _ _ => overridden <$> refs cur = overridden <$> refs st))
    with (st := st) (i := i) (n := n) (st' := st') as (_ & _ & H & _); try done.
  intros cur i0 n0 cur' same Hcur _ Hpair.
  rewrite <- Hcur. by eapply scan_pair_overridden.
Qed.

Lemma scan_pair_throws s stepIndex sortedRefs st i n e :
  never_throws comparisons s →
  scan_pair comparisons settings s stepIndex sortedRefs st i n = Throw e →
  e = TypeError.
Proof.
  intros Hs. unfold scan_pair, sorted_ref.
  destruct (sortedRefs !! i) as [pi|]; [|by intros [= <-]].
  destruct (refs st !! pi) as [a|]; [|by intros [= <-]].
  destruct (sortedRefs !! n) as [pn|]; [|by intros [= <-]].
  destruct (refs st !! pn) as [b|]; [|by intros [= <-]]. simpl.
  destruct (compareViaStep_returns comparisons settings (calls st) a b s Hs)
    as (x & cs' & ->). simpl.
  destruct (score_gt _ _); [|done].
  destruct (overridden a || overridden b); [by intros [= <-]|done].
Qed.

Lemma scan_throws s stepIndex sortedRefs st i n e :
  never_throws comparisons s →
  scan comparisons settings s stepIndex sortedRefs st i n = Throw e →
  e = TypeError.
Proof.
  intros Hs.
  remember (cursor_measure (length sortedRefs) i n) as m eqn:Hm.
  revert st i n Hm. induction (lt_wf m) as [m _ IH]. intros st i n ->.
  rewrite scan_once. destruct (decide (n < length sortedRefs)%nat) as [Hn|Hn]; [|done].
  destruct (scan_pair _ _ _ _ _ _ _ _) as [[st1 same]|e1] eqn:Hpair.
  - eapply (IH _ (advance_decreases sortedRefs i n same Hn)); eauto.
  - intros [= <-]. by eapply scan_pair_throws.
Qed.

Lemma sweep_overridden ss stepIndex sortedBy sortedRefs st st' :
  sweep comparisons settings ss stepIndex sortedBy sortedRefs st = Ok st' →
  overridden <$> refs st' = overridden <$> refs st.
Proof.
  revert stepIndex sortedBy sortedRefs st.
  induction ss as [|s ss IH]; intros stepIndex sortedBy sortedRefs st; simpl.
  { by intros [= <-]. }
  destruct (scan _ _ _ _ _ _ _ _) as [st1|e] eqn:Hscan; [|done]. simpl.
  intros Hrest. rewrite (IH _ _ _ _ Hrest). by eapply scan_overridden.
Qed.

Lemma sweep_throws ss stepIndex sortedBy sortedRefs st e :
  Forall (never_throws comparisons) ss →
  sweep comparisons settings ss stepIndex sortedBy sortedRefs st = Throw e →
  e = TypeError.
Proof.
  intros Hss. revert stepIndex sortedBy sortedRefs st.
  induction Hss as [|s ss Hs Hss IH]; intros stepIndex sortedBy sortedRefs st; simpl;
    [done|].
  destruct (scan _ _ _ _ _ _ _ _) as [st1|e1] eqn:Hscan; simpl.
  - apply IH.
  - intros [= <-]. by eapply scan_throws.
Qed.

End Overridden.

Lemma aggregate_throws rs :
  true ∈ (overridden <$> rs) → aggregate rs = Throw TypeError.
Proof.
  induction rs as [|w rs IH]; simpl.
  { intros H. by apply elem_of_nil in H. }
  unfold overridden at 1. destruct (dedupe w); [|done].
  intros [?|Hin]%elem_of_cons; [done|]. by rewrite IH.
Qed.

Section DedupeField.

Variable comparisons : string -> option comparison_handler.
Variable mutator_registry : string -> option mutator_handler.
Variable strategies : gmap string strategy.
Variable settings : Settings.t.

Lemma working_overridden strat index original w :
  is_Some (original !! "dedupe") →
  working mutator_registry strat index original = Ok w →
  overridden w = true.
Proof.
  intros [v Hv]. unfold working.
  destruct (mapValues _ _ _) as [mutated|]; [|done]. simpl.
  intros [= <-]. unfold overridden, bookkeeping. simpl.
  destruct ((list_to_map mutated ∪ original) !! "dedupe") eqn:Hl; [done|].
  apply lookup_union_None in Hl as [_ Hl]. congruence.
Qed.

Lemma normalise_overridden strat index input rs ref :
  ref ∈ input → is_Some (ref !! "dedupe") →
  normalise mutator_registry strat index input = Ok rs →
  true ∈ (overridden <$> rs).
Proof.
  intros Hin Hfield. revert index rs.
  induction input as [|original input IH]; intros index rs; simpl.
  { by apply elem_of_nil in Hin. }
  destruct (working _ _ _ _) as [w|] eqn:Hw; [|done]. simpl.
  destruct (normalise _ _ _ _) as [ws|] eqn:Hws; [|done]. simpl.
  intros [= <-]. simpl. apply elem_of_cons in Hin as [<-|Hin].
  - rewrite (working_overridden _ _ _ _ Hfield Hw). by left.
  - right. by eapply IH.
Qed.

(** A record with a field named [dedupe] makes [run] throw a [TypeError]:
    the field takes the place of the bookkeeping object, whose [steps] the
    sweep and the aggregator read.  (The settings are valid, the strategy
    is registered and passes validation, and its mutators and comparisons
    return on the input.) *)
Theorem run_throws_on_dedupe_field strat ss input rs ref :
  Settings.action settings ∈ ACTIONS.values →
  Settings.dupeRef settings ∈ DUPEREF.values →
  strategies !! Settings.strategy settings = Some strat →
  steps strat = Some ss →
  (Settings.validateStrategy settings = true → validateStrategy strat = Ok VTrue) →
  normalise mutator_registry strat 0 input = Ok rs →
  Forall (never_throws comparisons) ss →
  ref ∈ input → is_Some (ref !! "dedupe") →
  run comparisons mutator_registry strategies settings input = Throw TypeError.
Proof.
  intros Ha Hd Hs Hss Hv Hrs Hsteps Hin Hfield. unfold run.
  rewrite (run_sweep_unfold _ _ _ _ input strat ss) by done. rewrite Hrs. simpl.
  destruct (sweep _ _ _ _ _ _ _) as [st|e] eqn:Hsweep; simpl.
  - apply sweep_overridden in Hsweep. simpl in Hsweep.
    rewrite aggregate_throws; [done|]. rewrite Hsweep.
    by eapply normalise_overridden.
  - f_equal. by eapply sweep_throws.
Qed.

End DedupeField.

(** ** The three actions *)

Section Actions.

Variable comparisons : string -> option comparison_handler.
Variable mutator_registry : string -> option mutator_handler.
Variable strategies : gmap string strategy.

(** The sweep reads three settings: [fieldWeight], [markOriginal] and
    [dupeRef]. *)
Lemma scan_pair_settings s1 s2 s stepIndex sortedRefs st i n :
  Settings.fieldWeight s1 = Settings.fieldWeight s2 →
  Settings.markOriginal s1 = Settings.markOriginal s2 →
  Settings.dupeRef s1 = Settings.dupeRef s2 →
  scan_pair comparisons s1 s stepIndex sortedRefs st i n
  = scan_pair comparisons s2 s stepIndex sortedRefs st i n.
Proof.
  intros Hw Hm Hd. unfold scan_pair, compareViaStep, reference_to.
  by rewrite Hw, Hm, Hd.
Qed.

Lemma scan_settings s1 s2 s stepIndex sortedRefs st i n :
  Settings.fieldWeight s1 = Settings.fieldWeight s2 →
  Settings.markOriginal s1 = Settings.markOriginal s2 →
  Settings.dupeRef s1 = Settings.dupeRef s2 →
  scan comparisons s1 s stepIndex sortedRefs st i n
  = scan comparisons s2 s stepIndex sortedRefs st i n.
Proof.
  intros Hw Hm Hd.
  remember (cursor_measure (length sortedRefs) i n) as m eqn:Hmeas.
  revert st i n Hmeas. induction (lt_wf m) as [m _ IH]. intros st i n ->.
  rewrite !scan_once. destruct (decide (n < length sortedRefs)%nat) as [Hn|Hn]; [|done].
  rewrite (scan_pair_settings s1 s2) by done.
  destruct (scan_pair _ _ _ _ _ _ _ _) as [[st1 same]|e]; [|done].
  eapply (IH _ (advance_decreases sortedRefs i n same Hn)); eauto.
Qed.

Lemma sweep_settings s1 s2 ss stepIndex sortedBy sortedRefs st :
  Settings.fieldWeight s1 = Settings.fieldWeight s2 →
  Settings.markOriginal s1 = Settings.markOriginal s2 →
  Settings.dupeRef s1 = Settings.dupeRef s2 →
  sweep comparisons s1 ss stepIndex sortedBy sortedRefs st
  = sweep comparisons s2 ss stepIndex sortedBy sortedRefs st.
Proof.
  intros Hw Hm Hd. revert stepIndex sortedBy sortedRefs st.
  induction ss as [|s ss IH]; intros stepIndex sortedBy sortedRefs st; simpl; [done|].
  rewrite (scan_settings s1 s2) by done.
  destruct (scan _ _ _ _ _ _ _ _) as [st1|e]; [|done]. simpl. apply IH.
Qed.

(** The sweep of a run does not depend on the action. *)
Lemma run_sweep_set_action settings value input st :
  value ∈ ACTIONS.values →
  run_sweep comparisons mutator_registry strategies settings input = Ok st →
  run_sweep comparisons mutator_registry strategies (set_action value settings) input
  = Ok st.
Proof.
  intros Hvalue. unfold run_sweep.
  destruct (check_settings settings) eqn:Hcheck; [|done]. simpl.
  assert (check_settings (set_action value settings) = Ok ()) as ->.
  { unfold check_settings in *. cbn [Settings.action Settings.dupeRef set_action].
    rewrite (proj2 (existsb_eqb_elem_of _ _) Hvalue). cbn [negb].
    destruct (existsb (Nat.eqb (Settings.action settings)) ACTIONS.values); [|done].
    cbn [negb] in Hcheck.
    by destruct (existsb (Nat.eqb (Settings.dupeRef settings)) DUPEREF.values). }
  simpl. unfold check_strategy. simpl.
  destruct (strategies !! _) as [strat|]; [|done].
  destruct (steps strat) as [ss|]; [|done]. simpl.
  unfold validate. simpl.
  destruct (match Settings.validateStrategy settings with true => _ | false => _ end);
    [|done]. simpl.
  destruct (normalise _ _ _ _) as [rs|]; [|done]. simpl.
  by rewrite (sweep_settings (set_action value settings) settings).
Qed.

Lemma decorate_zip settings f (done_ rs : list (wref * jsnum)) (output : list record) :
  length rs = length output →
  decorate settings f (done_ ++ rs) (length done_) output
  = Ok (zip_with (fun r ref => <[Settings.actionField settings := f r ref]> (spread ref))
          rs output).
Proof.
  revert done_ output. induction rs as [|r rs IH]; intros done_ [|ref output] Hlen;
    simpl in Hlen; try done.
  simpl. rewrite lookup_app_r by done. rewrite Nat.sub_diag. simpl.
  specialize (IH (done_ ++ [r]) output). rewrite <- app_assoc in IH. simpl in IH.
  rewrite length_app in IH. simpl in IH. rewrite Nat.add_1_r in IH.
  by rewrite IH by lia.
Qed.

Lemma filter_kept_zip settings (done_ rs : list (wref * jsnum)) (output : list record) :
  length rs = length output →
  filter_kept settings (done_ ++ rs) (length done_) output
  = Ok (fst <$> List.filter (fun p => kept settings p.2) (zip output rs)).
Proof.
  revert done_ output. induction rs as [|r rs IH]; intros done_ [|ref output] Hlen;
    simpl in Hlen; try done.
  simpl. rewrite lookup_app_r by done. rewrite Nat.sub_diag. simpl.
  specialize (IH (done_ ++ [r]) output). rewrite <- app_assoc in IH. simpl in IH.
  rewrite length_app in IH. simpl in IH. rewrite Nat.add_1_r in IH.
  rewrite IH by lia. simpl. by destruct (kept settings r).
Qed.


Lemma thresholded settings (scored : list (wref * jsnum)) (input : list record) :
  length scored = length input →
  Forall (fun r => ∃ q, r.2 = Num q) scored →
  Forall2 (fun (o : outrecord) q =>
             ∃ ds, o !! Settings.actionField settings = Some (OStats (Num q) ds))
    (zip_with (fun r ref => <[Settings.actionField settings := stats_of r]> (spread ref))
       scored input)
    (map (fun r => number_of r.2) scored)
  ∧ zip_with (fun r ref => <[Settings.actionField settings := mark_of settings r ref]>
                             (spread ref)) scored input
    = zip_with (marked settings) input (map (fun r => number_of r.2) scored)
  ∧ fst <$> List.filter (fun p => kept settings p.2) (zip input scored)
    = below_threshold settings input (map (fun r => number_of r.2) scored).
Proof.
  intros Hlen Hnum. revert input Hlen.
  induction Hnum as [|r scored [q Hq] Hnum IH]; intros [|ref input] Hlen;
    simpl in Hlen; try done.
  destruct (IH input) as (H1 & H2 & H3); [lia|]. repeat split.
  - simpl. constructor; [|done]. exists (dupeOf_list r.1).
    rewrite lookup_insert_eq. unfold stats_of. by rewrite Hq.
  - simpl. rewrite H2. f_equal. unfold marked, mark_of. rewrite Hq. simpl.
    by destruct (Qle_bool _ _).
  - unfold below_threshold in *. cbn [zip zip_with map List.filter].
    unfold kept at 1. cbn [snd]. rewrite Hq. cbn [num_ltb number_of].
    destruct (Qle_bool _ _); cbn [negb fmap list_fmap fst]; by rewrite H3.
Qed.

(** MARK and DELETE follow the scores that STATS reports: the three
    actions share one sweep; MARK gives a record [markDupe] when its score
    is at or above the threshold and [markOk] otherwise, and DELETE returns,
    in the input's order, the records whose score is below the threshold. *)
Theorem mark_and_delete_follow_stats settings input outS :
  Settings.action settings = ACTIONS.STATS →
  run comparisons mutator_registry strategies settings input = Ok outS →
  ∃ qs,
    Forall2 (fun (o : outrecord) q =>
               ∃ ds, o !! Settings.actionField settings = Some (OStats (Num q) ds))
      outS qs
    ∧ run comparisons mutator_registry strategies
        (set_action ACTIONS.MARK settings) input
      = Ok (zip_with (marked settings) input qs)
    ∧ run comparisons mutator_registry strategies
        (set_action ACTIONS.DELETE settings) input
      = Ok (map spread (below_threshold settings input qs)).
Proof.
  intros Hstats. unfold run.
  destruct (run_sweep _ _ _ settings _) as [st|] eqn:Hst; [|done]. simpl.
  rewrite !(run_sweep_set_action settings _ input st) by (done || set_solver).
  simpl.
  destruct (aggregate (refs st)) as [scored|] eqn:Hscored; [|done]. simpl.
  destruct (aggregate_ok _ _ Hscored) as [Hlen Hagg].
  assert (length scored = length input) as Hlen'.
  { rewrite Hlen. by eapply run_sweep_length. }
  assert (Forall (fun r => ∃ q, r.2 = Num q) scored) as Hnum.
  { apply Forall_lookup. intros k r Hr.
    destruct (lookup_lt_is_Some_2 (refs st) k) as [w Hw].
    { rewrite <- Hlen. by eapply lookup_lt_Some. }
    destruct (Hagg _ _ Hw) as (l & Hl & Hr'). rewrite Hr' in Hr. injection Hr as <-.
    pose proof (proj1 (Forall_lookup _ _) (run_sweep_steps_wf _ _ _ _ _ _ Hst) _ _ Hw)
      as Hwf.
    cbv beta in Hwf. unfold steps_of in Hwf. rewrite Hl in Hwf.
    destruct (dedupe_score_wf _ _ Hwf) as (q & Hq & _). by exists q. }
  destruct (thresholded settings scored input Hlen' Hnum) as (H1 & H2 & H3).
  unfold dispatch. rewrite Hstats. simpl.
  rewrite (decorate_zip settings _ [] scored input Hlen'). intros [= <-].
  exists (map (fun r => number_of r.2) scored). split; [done|]. split.
  - rewrite (decorate_zip (set_action ACTIONS.MARK settings) _ [] scored input Hlen').
    f_equal. exact H2.
  - pose proof (filter_kept_zip (set_action ACTIONS.DELETE settings) [] scored input
                  Hlen') as Hfilter.
    simpl in Hfilter. simpl. rewrite Hfilter. simpl. do 2 f_equal. exact H3.
Qed.

End Actions.

(** ** Strings *)

Lemma jsstring_eqb_eq s t : jsstring_eqb s t = true ↔ s = t.
Proof.
  revert t. induction s as [|c s IH]; intros [|d t]; simpl; try done.
  rewrite andb_true_iff, N.eqb_eq, IH. split; [by intros [-> ->]|by intros [= -> ->]].
Qed.

Lemma jsstring_eqb_refl s : jsstring_eqb s s = true.
Proof. by apply jsstring_eqb_eq. Qed.

Lemma jsstring_eqb_sym s t : jsstring_eqb s t = jsstring_eqb t s.
Proof.
  destruct (jsstring_eqb s t) eqn:H1, (jsstring_eqb t s) eqn:H2; try done.
  - apply jsstring_eqb_eq in H1 as ->. by rewrite jsstring_eqb_refl in H2.
  - apply jsstring_eqb_eq in H2 as ->. by rewrite jsstring_eqb_refl in H1.
Qed.

(** ** The comparisons *)

Lemma loose_eq_sym a b : loose_eq a b = loose_eq b a.
Proof.
  destruct a as [[s|p xs]|], b as [[t|q ys]|]; simpl; try done;
    try apply jsstring_eqb_sym. apply Nat.eqb_sym.
Qed.

Lemma firstn_eq_prefix {A : Type} (s t : list A) :
  firstn (Nat.min (length s) (length t)) s = firstn (Nat.min (length s) (length t)) t
  ↔ s `prefix_of` t ∨ t `prefix_of` s.
Proof.
  split.
  - intros Heq. destruct (decide (length s ≤ length t)%nat) as [Hle|Hgt].
    + left. rewrite Nat.min_l in Heq by done. rewrite firstn_all in Heq.
      exists (drop (length s) t). rewrite Heq at 1. by rewrite take_drop.
    + right. rewrite Nat.min_r in Heq by lia. rewrite (firstn_all t) in Heq.
      exists (drop (length t) s). rewrite <- Heq at 1. by rewrite take_drop.
  - intros [[r ->]|[r ->]].
    + rewrite length_app, Nat.min_l by lia.
      by rewrite firstn_all, take_app_length.
    + rewrite length_app, Nat.min_r by lia.
      by rewrite firstn_all, take_app_length.
Qed.

(** [exactTruncate] on two strings is 1 exactly when one of them is a
    prefix of the other (the empty string matches every string), and 0
    otherwise; on anything but two strings it throws a [TypeError]. *)
Theorem exactTruncate_tests_prefix a b :
  (∀ s t, a = Some (FStr s) → b = Some (FStr t) →
     Comparisons.exactTruncate a b
     = Ok (if decide (s `prefix_of` t ∨ t `prefix_of` s)
           then SNum (Num 1) else SNum (Num 0)))
  ∧ ((∀ s t, ¬ (a = Some (FStr s) ∧ b = Some (FStr t))) →
     Comparisons.exactTruncate a b = Throw TypeError).
Proof.
  split.
  - intros s t -> ->. simpl. f_equal.
    destruct (jsstring_eqb _ _) eqn:Heq; case_decide as Hp; try done.
    + exfalso. apply Hp. apply firstn_eq_prefix. by apply jsstring_eqb_eq.
    + apply firstn_eq_prefix in Hp. apply jsstring_eqb_eq in Hp. congruence.
  - intros Hne. destruct a as [[s|p xs]|], b as [[t|q ys]|]; simpl; try done.
    exfalso. by eapply Hne.
Qed.

(** ** Omitted fields *)

Section Omitted.

Variable comparisons : string -> option comparison_handler.

Lemma min_over_le cs a b s fs minimum r cs' qm :
  to_number minimum = Num qm →
  min_over comparisons cs a b s fs minimum = Ok (r, cs') →
  ∃ qr, to_number r = Num qr ∧ (qr <= qm)%Q.
Proof.
  revert cs minimum qm. induction fs as [|field fs IH]; intros cs minimum qm Hm; simpl.
  { intros [= <- <-]. exists qm. split; [done|lra]. }
  destruct (field_score _ _ _ _ _ _) as [[x cs1]|]; [|done]. simpl.
  destruct (score_lt x minimum) eqn:Hlt.
  - unfold score_lt, num_ltb in Hlt. rewrite Hm in Hlt.
    destruct (to_number x) as [qx|] eqn:Hx; [|done].
    intros Hrest. destruct (IH _ _ _ Hx Hrest) as (qr & Hr & Hle).
    exists qr. split; [done|].
    assert (qx < qm)%Q; [|lra]. apply Qnot_le_lt. intros H.
    apply Qle_bool_iff in H. by rewrite H in Hlt.
  - by apply IH.
Qed.

(** Under MINIMUM, a pair of records one of which lacks a field of the
    step (the field is absent or the empty string) is no duplicate in that
    step, unless [skipOmitted] is off: when the comparison of the pair
    returns, its score is not above 0. *)
Theorem omitted_field_is_no_duplicate cs a b s fs field x cs' :
  fields s = Some fs →
  field ∈ fs →
  default true (skipOmitted s) = true →
  truthy (props a !! field) = false ∨ truthy (props b !! field) = false →
  compareViaStepMin comparisons cs a b s = Ok (x, cs') →
  score_gt x (SNum (Num 0)) = false.
Proof.
  intros Hfs Hin Hskip Hempty. unfold compareViaStepMin. rewrite Hfs.
  assert (∀ minimum qm cs0,
            to_number minimum = Num qm →
            min_over comparisons cs0 a b s fs minimum = Ok (x, cs') →
            ∃ qx, to_number x = Num qx ∧ (qx <= 0)%Q) as Hmin.
  { clear Hfs. induction fs as [|f fs IH]; intros minimum qm cs0 Hm; simpl.
    { by apply elem_of_nil in Hin. }
    apply elem_of_cons in Hin as [<-|Hin].
    - rewrite (omitted_field_scores_zero _ _ _ _ _ _ Hskip Hempty). simpl.
      destruct (score_lt (SNum (Num 0)) minimum) eqn:Hlt.
      + by apply (min_over_le _ _ _ _ _ _ _ _ 0%Q).
      + intros Hrest. destruct (min_over_le _ _ _ _ _ _ _ _ _ Hm Hrest) as (qr & Hr & Hle).
        exists qr. split; [done|].
        unfold score_lt, num_ltb in Hlt. rewrite Hm in Hlt. simpl in Hlt.
        apply negb_false_iff, Qle_bool_iff in Hlt. lra.
    - destruct (field_score _ _ _ _ _ _) as [[y cs1]|]; [|done]. simpl.
      destruct (score_lt y minimum) eqn:Hlt.
      + unfold score_lt, num_ltb in Hlt. rewrite Hm in Hlt.
        destruct (to_number y) as [qy|] eqn:Hy; [|done]. by eapply IH.
      + by eapply IH. }
  intros Hres. destruct (Hmin (SNum (Num 1)) 1%Q cs eq_refl Hres) as (qx & Hx & Hle).
  unfold score_gt, num_ltb. rewrite Hx. simpl.
  apply negb_false_iff, Qle_bool_iff. exact Hle.
Qed.

End Omitted.

(** ** [JSON.stringify] tells arrays of strings apart *)

Lemma hex_digit_inj d e :
  (d < 16)%N → (e < 16)%N → JSON.hex_digit d = JSON.hex_digit e → d = e.
Proof.
  unfold JSON.hex_digit. intros Hd He.
  destruct (N.ltb_spec d 10), (N.ltb_spec e 10); lia.
Qed.

Lemma nibbles c :
  (c < 65536)%N →
  c = (4096 * (N.shiftr c 12 mod 16) + 256 * (N.shiftr c 8 mod 16)
       + 16 * (N.shiftr c 4 mod 16) + c mod 16)%N.
Proof.
  intros Hc. rewrite !N.shiftr_div_pow2.
  change (2 ^ 12)%N with (16 * 16 * 16)%N. change (2 ^ 8)%N with (16 * 16)%N.
  change (2 ^ 4)%N with 16%N. rewrite <- !N.Div0.div_div.
  pose proof (N.div_mod' c 16) as H0.
  pose proof (N.div_mod' (c / 16) 16) as H1.
  pose proof (N.div_mod' (c / 16 / 16) 16) as H2.
  pose proof (N.div_mod' (c / 16 / 16 / 16) 16) as H3.
  pose proof (N.mod_lt c 16) as L0.
  pose proof (N.mod_lt (c / 16) 16) as L1.
  pose proof (N.mod_lt (c / 16 / 16) 16) as L2.
  pose proof (N.mod_lt (c / 16 / 16 / 16) 16) as L3.
  generalize dependent (c mod 16)%N. generalize dependent ((c / 16) mod 16)%N.
  generalize dependent ((c / 16 / 16) mod 16)%N.
  generalize dependent ((c / 16 / 16 / 16) mod 16)%N.
  generalize dependent (c / 16 / 16 / 16 / 16)%N.
  generalize dependent (c / 16 / 16 / 16)%N. generalize dependent (c / 16 / 16)%N.
  generalize dependent (c / 16)%N. intros. lia.
Qed.

Lemma unicode_escape_inj c d :
  (c < 65536)%N → (d < 65536)%N →
  JSON.unicode_escape c = JSON.unicode_escape d → c = d.
Proof.
  unfold JSON.unicode_escape. intros Hc Hd [= H3 H2 H1 H0].
  apply hex_digit_inj in H3, H2, H1, H0; try (apply N.mod_lt; lia).
  rewrite (nibbles c Hc), (nibbles d Hd). by rewrite H3, H2, H1, H0.
Qed.

Lemma unicode_escape_app_inj c d X Y :
  (c < 65536)%N → (d < 65536)%N →
  JSON.unicode_escape c ++ X = JSON.unicode_escape d ++ Y → c = d ∧ X = Y.
Proof.
  intros Hc Hd H. unfold JSON.unicode_escape in H. simpl in H.
  injection H as H3 H2 H1 H0 HXY. split; [|done].
  apply unicode_escape_inj; [done|done|]. unfold JSON.unicode_escape.
  by rewrite H3, H2, H1, H0.
Qed.

Lemma escaped_unit_bound c :
  N.ltb c 32 || JSON.is_lead c || JSON.is_trail c = true → (c < 65536)%N.
Proof.
  unfold JSON.is_lead, JSON.is_trail.
  destruct (N.ltb_spec c 32), (N.leb_spec 55296 c), (N.leb_spec c 56319),
    (N.leb_spec 56320 c), (N.leb_spec c 57343); simpl; intros; try done; lia.
Qed.

(** The escapes of single code units form a prefix code. *)
Lemma quote_unit_inj c d X Y :
  JSON.quote_unit c ++ X = JSON.quote_unit d ++ Y → c = d ∧ X = Y.
Proof.
  unfold JSON.quote_unit.
  change (lit "\b") with [92; 98]%N. change (lit "\t") with [92; 116]%N.
  change (lit "\n") with [92; 110]%N. change (lit "\f") with [92; 102]%N.
  change (lit "\r") with [92; 114]%N.
  repeat match goal with
         | |- context [if N.eqb ?a ?b then _ else _] => destruct (N.eqb_spec a b)
         end;
  repeat match goal with
         | |- context [if ?b then _ else _] => destruct b eqn:?
         end;
  try (cbn [app]; intros H; injection H; intros; subst; (done || lia)).
  all: try (intros [-> ->]%unicode_escape_app_inj; [done|by apply escaped_unit_bound..]).
  all: unfold JSON.unicode_escape; cbn [app]; intros H; injection H; intros; subst;
    try (done || lia).
Qed.

Lemma quote_unit_head c X h Z :
  JSON.quote_unit c ++ X = h :: Z → h ≠ 34%N ∧ JSON.is_lead h = false.
Proof.
  unfold JSON.quote_unit.
  change (lit "\b") with [92; 98]%N. change (lit "\t") with [92; 116]%N.
  change (lit "\n") with [92; 110]%N. change (lit "\f") with [92; 102]%N.
  change (lit "\r") with [92; 114]%N. unfold JSON.unicode_escape.
  repeat match goal with
         | |- context [if N.eqb ?a ?b then _ else _] => destruct (N.eqb_spec a b)
         end;
  repeat match goal with
         | |- context [if ?b then _ else _] => destruct b eqn:Hesc
         end;
  cbn [app]; intros [= <- _]; try done.
  split; [done|]. by apply orb_false_iff in Hesc as [[_ ?]%orb_false_iff _].
Qed.

(** The two shapes of [quote_body] on a non-empty string. *)
Lemma quote_body_cons c s :
  (∃ d s', s = d :: s' ∧ JSON.is_lead c = true ∧ JSON.is_trail d = true
           ∧ JSON.quote_body (c :: s) = c :: d :: JSON.quote_body s')
  ∨ JSON.quote_body (c :: s) = JSON.quote_unit c ++ JSON.quote_body s.
Proof.
  destruct s as [|d s']; simpl.
  - right. by rewrite app_nil_r.
  - destruct (JSON.is_lead c) eqn:Hc, (JSON.is_trail d) eqn:Hd; simpl;
      try by right.
    left. by exists d, s'.
Qed.

(** A quoted string ends at its closing quote: no quoted string is the
    start of another. *)
Lemma quote_body_inj n s t r1 r2 :
  (length s ≤ n)%nat →
  JSON.quote_body s ++ 34%N :: r1 = JSON.quote_body t ++ 34%N :: r2 →
  s = t ∧ r1 = r2.
Proof.
  revert s t. induction n as [|n IH]; intros s t Hn.
  - destruct s as [|c s]; [|simpl in Hn; lia].
    destruct t as [|c' t]; [simpl; by intros [= ->]|].
    change (JSON.quote_body [] ++ 34%N :: r1) with (34%N :: r1).
    intros H. exfalso.
    destruct (quote_body_cons c' t) as [(d' & t' & -> & Hc' & Hd' & Hq)|Hq].
    + rewrite Hq in H. injection H as <- _. done.
    + rewrite Hq, <- app_assoc in H. symmetry in H.
      by apply quote_unit_head in H as [? _].
  - destruct s as [|c s].
    { apply (IH [] t). simpl. lia. }
    destruct t as [|c' t].
    { change (JSON.quote_body [] ++ 34%N :: r2) with (34%N :: r2).
      intros H. exfalso.
      destruct (quote_body_cons c s) as [(d & s' & -> & Hc & Hd & Hq)|Hq].
      - rewrite Hq in H. cbn [app] in H. injection H as -> _. done.
      - rewrite Hq, <- app_assoc in H. by apply quote_unit_head in H as [? _]. }
    simpl in Hn.
    destruct (quote_body_cons c s) as [(d & s' & -> & Hc & Hd & Hq)|Hq],
      (quote_body_cons c' t) as [(d' & t' & -> & Hc' & Hd' & Hq')|Hq'];
      rewrite Hq, Hq'.
    + cbn [app]. intros H. injection H as <- <- H.
      destruct (IH s' t') as [-> ->]; [simpl in Hn; lia|done|done].
    + rewrite <- app_assoc. cbn [app]. intros H. symmetry in H.
      apply quote_unit_head in H as [_ H]. congruence.
    + rewrite <- app_assoc. cbn [app]. intros H.
      apply quote_unit_head in H as [_ H]. congruence.
    + rewrite <- !app_assoc. intros [<- H]%quote_unit_inj.
      destruct (IH s t) as [-> ->]; [lia|done|done].
Qed.

Lemma join_quote_cons x xs :
  join (lit ",") (map JSON.quote (x :: xs)) ++ [93%N]
  = 34%N :: JSON.quote_body x
    ++ 34%N :: match xs with
               | [] => [93%N]
               | _ :: _ => 44%N :: join (lit ",") (map JSON.quote xs) ++ [93%N]
               end.
Proof.
  destruct xs as [|y xs]; cbn [map join]; unfold JSON.quote at 1.
  - cbn [app]. by rewrite <- app_assoc.
  - change (lit ",") with [44%N]. cbn [app]. rewrite <- !app_assoc. done.
Qed.

Lemma join_quote_inj xs ys :
  join (lit ",") (map JSON.quote xs) ++ [93%N]
  = join (lit ",") (map JSON.quote ys) ++ [93%N] →
  xs = ys.
Proof.
  revert ys. induction xs as [|x xs IH]; intros [|y ys].
  - done.
  - rewrite join_quote_cons. simpl. discriminate.
  - rewrite join_quote_cons. simpl. discriminate.
  - rewrite !join_quote_cons. intros [= H].
    apply (quote_body_inj (length x)) in H as [-> H]; [|done].
    destruct xs as [|x2 xs], ys as [|y2 ys]; try done.
    injection H as H. f_equal. by apply IH.
Qed.

Lemma stringify_inj xs ys : JSON.stringify xs = JSON.stringify ys → xs = ys.
Proof.
  unfold JSON.stringify. change (lit "[") with [91%N]. change (lit "]") with [93%N].
  cbn [app]. intros [= H]. by apply join_quote_inj.
Qed.

(** On two arrays [exact] answers with the boolean [true] exactly when the
    arrays hold the same strings in the same order, whether or not they are
    one object; [exact] does not depend on the order of its arguments; on
    two strings it is 1 when they are the same string and 0 otherwise. *)
Theorem exact_compares_contents a b :
  Comparisons.exact a b = Comparisons.exact b a
  ∧ (∀ p xs q ys, a = Some (FArr p xs) → b = Some (FArr q ys) →
       Comparisons.exact a b = SBool (bool_decide (xs = ys)))
  ∧ (∀ s t, a = Some (FStr s) → b = Some (FStr t) →
       Comparisons.exact a b = if decide (s = t) then SNum (Num 1) else SNum (Num 0)).
Proof.
  repeat split.
  - destruct a as [[s|p xs]|], b as [[t|q ys]|]; simpl; try done;
      by rewrite jsstring_eqb_sym.
  - intros p xs q ys -> ->. simpl. f_equal.
    destruct (jsstring_eqb _ _) eqn:Heq; case_bool_decide as Hxy; try done.
    + exfalso. apply Hxy. by apply stringify_inj, jsstring_eqb_eq.
    + subst. by rewrite jsstring_eqb_refl in Heq.
  - intros s t -> ->. simpl. case_decide as Hst.
    + subst. by rewrite jsstring_eqb_refl.
    + destruct (jsstring_eqb s t) eqn:H; [|done]. by apply jsstring_eqb_eq in H.
Qed.

(** ** The order of strings *)

Lemma jsstring_ltb_irrefl s : jsstring_ltb s s = false.
Proof.
  induction s as [|c s IH]; simpl; [done|]. by rewrite N.ltb_irrefl.
Qed.

Lemma jsstring_ltb_trans s t u :
  jsstring_ltb s t = true → jsstring_ltb t u = true → jsstring_ltb s u = true.
Proof.
  revert t u. induction s as [|c s IH]; intros [|d t] [|e u]; simpl; try done.
  destruct (N.ltb_spec c d), (N.ltb_spec d c), (N.ltb_spec d e), (N.ltb_spec e d),
    (N.ltb_spec c e), (N.ltb_spec e c); try done; try lia.
  apply IH.
Qed.

Lemma jsstring_ltb_total s t :
  s = t ∨ jsstring_ltb s t = true ∨ jsstring_ltb t s = true.
Proof.
  revert t. induction s as [|c s IH]; intros [|d t]; simpl; auto.
  destruct (N.ltb_spec c d), (N.ltb_spec d c); auto; try lia.
  assert (c = d) as -> by lia. destruct (IH t) as [->|[?|?]]; auto.
Qed.

Lemma jsstring_ltb_asym s t :
  jsstring_ltb s t = true → jsstring_ltb t s = false.
Proof.
  intros Hst. destruct (jsstring_ltb t s) eqn:Hts; [|done].
  pose proof (jsstring_ltb_trans _ _ _ Hst Hts) as H.
  by rewrite jsstring_ltb_irrefl in H.
Qed.

(** ** [compareAscending] *)

Lemma rank_lt_irrefl r : ¬ rank_lt r r.
Proof. destruct r as [s|]; simpl; [|by intros []]. by rewrite jsstring_ltb_irrefl. Qed.

Lemma rank_lt_trans r1 r2 r3 : rank_lt r1 r2 → rank_lt r2 r3 → rank_lt r1 r3.
Proof.
  destruct r1 as [s|], r2 as [t|], r3 as [u|]; simpl; try done.
  apply jsstring_ltb_trans.
Qed.

Lemma compareAscending_spec x y :
  coherent x y →
  (Lodash.compareAscending x y = 0%Z ∧ sort_rank x = sort_rank y)
  ∨ (Lodash.compareAscending x y = (-1)%Z ∧ rank_lt (sort_rank x) (sort_rank y))
  ∨ (Lodash.compareAscending x y = 1%Z ∧ rank_lt (sort_rank y) (sort_rank x)).
Proof.
  unfold coherent, Lodash.compareAscending. intros Hco.
  destruct (strict_eq x y) eqn:Hse; [left; split; [done|by apply Hco]|].
  clear Hco. unfold Lodash.greater, rank_lt, sort_rank.
  destruct x as [u|], y as [v|]; cbn [defined negb orb fmap option_fmap option_map];
    try (by auto).
  destruct (jsstring_ltb_total (to_string u) (to_string v)) as [Heq|[Hlt|Hgt]].
  - rewrite Heq, jsstring_ltb_irrefl. cbn [orb]. by left.
  - rewrite Hlt, (jsstring_ltb_asym _ _ Hlt). cbn [orb]. right. by left.
  - rewrite Hgt. cbn [orb]. right. by right.
Qed.

Ltac rank_cases :=
  repeat match goal with
         | H : _ ∨ _ |- _ => destruct H as [H|H]
         | H : _ ∧ _ |- _ => destruct H as [? ?]
         end;
  try congruence;
  try (by repeat match goal with
                 | H : Lodash.compareAscending _ _ = _ |- _ => rewrite H; clear H
                 end);
  try (exfalso;
       repeat match goal with
              | H : sort_rank _ = sort_rank _ |- _ => rewrite H in *; clear H
              end;
       match goal with
       | H : rank_lt ?a ?a |- _ => exact (rank_lt_irrefl _ H)
       | H1 : rank_lt ?a ?b, H2 : rank_lt ?b ?a |- _ =>
           exact (rank_lt_irrefl _ (rank_lt_trans _ _ _ H1 H2))
       | H1 : rank_lt ?a ?b, H2 : rank_lt ?b ?c, H3 : rank_lt ?c ?a |- _ =>
           exact (rank_lt_irrefl _ (rank_lt_trans _ _ _ H1 (rank_lt_trans _ _ _ H2 H3)))
       end).

Lemma compareAscending_tie_l x y z :
  coherent x y → coherent y z → coherent x z →
  Lodash.compareAscending x y = 0%Z →
  Lodash.compareAscending x z = Lodash.compareAscending y z.
Proof.
  intros Hxy Hyz Hxz H0.
  apply compareAscending_spec in Hxy, Hyz, Hxz. rank_cases.
Qed.

Lemma compareAscending_tie_r x y z :
  coherent x y → coherent y z → coherent x z →
  Lodash.compareAscending y z = 0%Z →
  Lodash.compareAscending x z = Lodash.compareAscending x y.
Proof.
  intros Hxy Hyz Hxz H0.
  apply compareAscending_spec in Hxy, Hyz, Hxz. rank_cases.
Qed.

Lemma compareAscending_trans x y z :
  coherent x y → coherent y z → coherent x z →
  Lodash.compareAscending x y = (-1)%Z → Lodash.compareAscending y z = (-1)%Z →
  Lodash.compareAscending x z = (-1)%Z.
Proof.
  intros Hxy Hyz Hxz H1 H2.
  apply compareAscending_spec in Hxy, Hyz, Hxz. rank_cases.
Qed.

Lemma compareAscending_flip x y :
  coherent x y → coherent y x →
  Lodash.compareAscending y x = (- Lodash.compareAscending x y)%Z.
Proof.
  intros Hxy Hyx.
  apply compareAscending_spec in Hxy, Hyx. rank_cases.
Qed.

Lemma compareAscending_range x y :
  coherent x y →
  Lodash.compareAscending x y = 0%Z ∨ Lodash.compareAscending x y = (-1)%Z
  ∨ Lodash.compareAscending x y = 1%Z.
Proof. intros Hxy. apply compareAscending_spec in Hxy. tauto. Qed.

(** ** [compareMultiple] and the sort *)

Lemma compareMultiple_flip X Y i j :
  Forall2 coherent X Y → Forall2 coherent Y X →
  Lodash.compareMultiple Y X j i = (- Lodash.compareMultiple X Y i j)%Z.
Proof.
  intros HXY. revert i j. induction HXY as [|x y X Y Hxy HXY IH]; intros i j HYX; simpl.
  { lia. }
  inversion HYX as [|? ? ? ? Hyx HYX']; subst.
  rewrite (compareAscending_flip x y Hxy Hyx).
  destruct (compareAscending_range x y Hxy) as [-> | [-> | ->]]; simpl; [by apply IH|done..].
Qed.

Lemma compareMultiple_trans X Y Z i j k :
  Forall2 coherent X Y → Forall2 coherent Y Z → Forall2 coherent X Z →
  (Lodash.compareMultiple X Y i j ≤ 0)%Z →
  (Lodash.compareMultiple Y Z j k ≤ 0)%Z →
  (Lodash.compareMultiple X Z i k ≤ 0)%Z.
Proof.
  intros HXY. revert Z i j k.
  induction HXY as [|x y X Y Hxy HXY IH]; intros Z i j k HYZ HXZ.
  { inversion HYZ; subst. simpl. lia. }
  inversion HYZ as [|? z ? Z' Hyz HYZ']; subst.
  inversion HXZ as [|? ? ? ? Hxz HXZ']; subst. simpl.
  destruct (compareAscending_range x y Hxy) as [Hv1|[Hv1|Hv1]];
    destruct (compareAscending_range y z Hyz) as [Hv2|[Hv2|Hv2]];
    rewrite Hv1, Hv2; simpl; try lia.
  - rewrite (compareAscending_tie_l x y z) by done. rewrite Hv2. simpl. by apply IH.
  - rewrite (compareAscending_tie_l x y z) by done. rewrite Hv2. simpl. lia.
  - rewrite (compareAscending_tie_r x y z) by done. rewrite Hv1. simpl. lia.
  - rewrite (compareAscending_trans x y z) by done. simpl. lia.
Qed.

(** With no tie left by the criteria, only an element itself compares 0. *)
Lemma compareMultiple_zero X Y i j :
  Lodash.compareMultiple X Y i j = 0%Z → i = j.
Proof.
  revert Y. induction X as [|x X IH]; intros [|y Y]; simpl; try lia.
  destruct (Z.eqb_spec (Lodash.compareAscending x y) 0); [apply IH|done].
Qed.

Section Sorting.

(** The elements that are sorted: any two of them have coherent
    criteria. *)
Variable good : list jsval * nat → Prop.
Hypothesis good_coherent : ∀ a b, good a → good b → Forall2 coherent a.1 b.1.

Local Abbreviation before := (fun a b => (Lodash.comparer a b ≤ 0)%Z).

Lemma insert_by_sorted x l :
  good x → Forall good l →
  StronglySorted before l → StronglySorted before (Lodash.insert_by x l).
Proof.
  intros Hx Hl Hsorted. induction Hsorted as [|y l Hsorted IH Hy]; simpl.
  { repeat constructor. }
  inversion Hl as [|? ? Hgy Hgl]; subst.
  destruct (Z.leb_spec (Lodash.comparer x y) 0) as [Hle|Hgt].
  - constructor; [by constructor|]. constructor; [done|].
    apply Forall_forall. intros z Hz.
    pose proof (proj1 (Forall_forall _ _) Hy z Hz) as Hyz.
    pose proof (proj1 (Forall_forall _ _) Hgl z Hz) as Hgz.
    unfold Lodash.comparer in *.
    apply (compareMultiple_trans x.1 y.1 z.1 x.2 y.2 z.2); eauto.
  - constructor; [by apply IH|].
    rewrite insert_by_perm. constructor; [|done].
    unfold Lodash.comparer in *.
    rewrite (compareMultiple_flip x.1 y.1) by eauto. lia.
Qed.

Lemma baseSortBy_sorted l :
  Forall good l → StronglySorted before (Lodash.baseSortBy l).
Proof.
  unfold Lodash.baseSortBy. induction 1 as [|x l Hx Hl IH]; simpl; [constructor|].
  apply insert_by_sorted; [done| |done].
  change (foldr Lodash.insert_by [] l) with (Lodash.baseSortBy l).
  by rewrite baseSortBy_perm.
Qed.

End Sorting.

Lemma StronglySorted_lookup_lt {A : Type} (R : A → A → Prop) (l : list A) i j a b :
  StronglySorted R l → (i < j)%nat → l !! i = Some a → l !! j = Some b → R a b.
Proof.
  intros Hl. revert i j a. induction Hl as [|x l Hl IH Hx]; intros i j a Hij; [done|].
  destruct i as [|i], j as [|j]; try lia; simpl.
  - intros [= <-] Hb. apply (proj1 (Forall_forall _ _) Hx).
    by eapply list_elem_of_lookup_2.
  - apply IH. lia.
Qed.

Lemma compareMultiple_sorts_before X Y p q :
  Forall2 coherent X Y →
  (Lodash.compareMultiple X Y p q < 0)%Z → sorts_before X Y p q.
Proof.
  induction 1 as [|x y X Y Hxy HXY IH]; simpl; [lia|].
  destruct (compareAscending_spec x y Hxy) as [[-> Heq]|[[-> Hlt]|[-> Hgt]]]; simpl.
  - intros Hrest. right. split; [done|]. by apply IH.
  - intros _. by left.
  - lia.
Qed.

(** [_.sortBy] sorts: it returns the positions of the working records,
    each once, and of any two positions the one returned first sorts
    before the other. *)
Theorem sortBy_sorts rs key :
  (∀ w w', w ∈ rs → w' ∈ rs →
     Forall2 coherent (Lodash.criteria key w) (Lodash.criteria key w')) →
  Lodash.sortBy rs key ≡ₚ seq 0 (length rs)
  ∧ ∀ i j p q a b,
      (i < j)%nat →
      Lodash.sortBy rs key !! i = Some p → Lodash.sortBy rs key !! j = Some q →
      rs !! p = Some a → rs !! q = Some b →
      sorts_before (Lodash.criteria key a) (Lodash.criteria key b) p q.
Proof.
  intros Hco. split; [apply sortBy_perm|].
  intros i j p q a b Hij Hp Hq Ha Hb.
  set (good := fun e : list jsval * nat =>
         ∃ w, rs !! e.2 = Some w ∧ e.1 = Lodash.criteria key w).
  assert (∀ e1 e2, good e1 → good e2 → Forall2 coherent e1.1 e2.1) as Hgood.
  { intros e1 e2 (w1 & Hw1 & ->) (w2 & Hw2 & ->).
    apply Hco; by eapply list_elem_of_lookup_2. }
  set (l := imap (fun i w => (Lodash.criteria key w, i)) rs).
  assert (Forall good l) as Hl.
  { apply Forall_lookup. intros k e He. subst l.
    rewrite list_lookup_imap in He.
    destruct (rs !! k) as [w|] eqn:Hw; [|done]. injection He as <-. by exists w. }
  pose proof (baseSortBy_sorted good Hgood l Hl) as Hsorted.
  assert (Forall good (Lodash.baseSortBy l)) as Hl' by (by rewrite baseSortBy_perm).
  unfold Lodash.sortBy in Hp, Hq. fold l in Hp, Hq.
  rewrite list_lookup_fmap in Hp, Hq.
  destruct (Lodash.baseSortBy l !! i) as [ea|] eqn:Hea; [|done].
  destruct (Lodash.baseSortBy l !! j) as [eb|] eqn:Heb; [|done].
  injection Hp as <-. injection Hq as <-.
  pose proof (StronglySorted_lookup_lt _ _ _ _ _ _ Hsorted Hij Hea Heb) as Hle.
  destruct (proj1 (Forall_lookup _ _) Hl' _ _ Hea) as (wa & Hwa & Hca).
  destruct (proj1 (Forall_lookup _ _) Hl' _ _ Heb) as (wb & Hwb & Hcb).
  assert (wa = a) as -> by congruence. assert (wb = b) as -> by congruence.
  apply compareMultiple_sorts_before.
  { apply Hco; by eapply list_elem_of_lookup_2. }
  unfold Lodash.comparer in Hle. rewrite Hca, Hcb in Hle.
  assert (Lodash.compareMultiple (Lodash.criteria key a) (Lodash.criteria key b)
            ea.2 eb.2 ≠ 0%Z); [|lia].
  intros Hzero%compareMultiple_zero.
  assert (i = j); [|lia].
  eapply (NoDup_lookup _ _ _ _ (sortBy_NoDup rs key));
    unfold Lodash.sortBy; fold l; rewrite list_lookup_fmap.
  - by rewrite Hea.
  - rewrite Heb. simpl. by rewrite Hzero.
Qed.

(** ** The mutators that replace runs *)

Lemma replace_runs_filter keep in_run s :
  Mutators.replace_runs keep [] in_run s = List.filter keep s.
Proof.
  revert in_run. induction s as [|c s IH]; intros in_run; simpl; [done|].
  destruct (keep c); [by rewrite IH|]. destruct in_run; simpl; apply IH.
Qed.

Lemma filter_filter_same {A : Type} (p : A → bool) (l : list A) :
  List.filter p (List.filter p l) = List.filter p l.
Proof.
  induction l as [|x l IH]; simpl; [done|].
  destruct (p x) eqn:Hp; simpl; [by rewrite Hp, IH|done].
Qed.

(** [numericOnly] keeps the digits of a string, in their order, and
    [noSpace] keeps what is not white space; applied twice, each gives
    what it gives applied once; on an array each throws a [TypeError]. *)
Theorem numericOnly_and_noSpace_filter s :
  Mutators.numericOnly (FStr s) = Ok (FStr (List.filter Mutators.is_digit s))
  ∧ Mutators.noSpace (FStr s)
    = Ok (FStr (List.filter (fun c => negb (Mutators.is_space c)) s))
  ∧ (Mutators.numericOnly (FStr s) ≫= Mutators.numericOnly)
    = Mutators.numericOnly (FStr s)
  ∧ (Mutators.noSpace (FStr s) ≫= Mutators.noSpace) = Mutators.noSpace (FStr s)
  ∧ ∀ p xs, Mutators.numericOnly (FArr p xs) = Throw TypeError
            ∧ Mutators.noSpace (FArr p xs) = Throw TypeError.
Proof.
  unfold Mutators.numericOnly, Mutators.noSpace. rewrite !replace_runs_filter.
  repeat split; simpl; by rewrite ?replace_runs_filter, ?filter_filter_same.
Qed.

Local Abbreviation alnum :=
  (fun c => Mutators.is_digit c || Mutators.is_alpha c || Mutators.is_space c).

Lemma replace_runs_kept keep rep in_run s :
  Forall (fun c => keep c = true) rep →
  Forall (fun c => keep c = true) (Mutators.replace_runs keep rep in_run s).
Proof.
  intros Hrep. revert in_run. induction s as [|c s IH]; intros in_run; simpl; [done|].
  destruct (keep c) eqn:Hc; [by constructor|].
  destruct in_run; [apply IH|]. apply Forall_app. split; [done|apply IH].
Qed.

Lemma replace_runs_id keep rep in_run s :
  Forall (fun c => keep c = true) s →
  Mutators.replace_runs keep rep in_run s = s.
Proof.
  intros Hs. revert in_run. induction Hs as [|c s Hc Hs IH]; intros in_run; simpl; [done|].
  by rewrite Hc, IH.
Qed.

Lemma replace_runs_length keep rep in_run s :
  (length rep ≤ 1)%nat →
  (length (Mutators.replace_runs keep rep in_run s) ≤ length s)%nat.
Proof.
  intros Hrep. revert in_run. induction s as [|c s IH]; intros in_run; simpl; [done|].
  destruct (keep c); simpl.
  - specialize (IH false). lia.
  - destruct in_run.
    + specialize (IH true). lia.
    + rewrite length_app. specialize (IH true). lia.
Qed.

(** [alphaNumericOnly] leaves only digits, ASCII letters and white space,
    never makes a string longer, leaves a string of such characters as it
    is, and so gives, applied twice, what it gives applied once. *)
Theorem alphaNumericOnly_cleans s :
  ∃ t,
    Mutators.alphaNumericOnly (FStr s) = Ok (FStr t)
    ∧ Forall (fun c => alnum c = true) t
    ∧ (length t ≤ length s)%nat
    ∧ (Forall (fun c => alnum c = true) s → t = s)
    ∧ Mutators.alphaNumericOnly (FStr t) = Ok (FStr t).
Proof.
  unfold Mutators.alphaNumericOnly. eexists. split; [done|].
  assert (Forall (fun c => alnum c = true) (lit " ")) as Hrep by (by repeat constructor).
  repeat split.
  - by apply replace_runs_kept.
  - by apply replace_runs_length.
  - intros Hs. by apply replace_runs_id.
  - do 2 f_equal. apply replace_runs_id. by apply replace_runs_kept.
Qed.

(** ** [doiRewrite] *)

Lemma starts_with_app p s :
  starts_with p s = true ↔ ∃ r, s = p ++ r.
Proof.
  revert s. induction p as [|c p IH]; intros s; simpl.
  { split; [by exists s|done]. }
  destruct s as [|d s].
  { split; [done|]. by intros [r ?]. }
  rewrite andb_true_iff, N.eqb_eq, IH. split.
  - intros [-> [r ->]]. by exists r.
  - intros [r [= -> ->]]. split; [done|]. by exists r.
Qed.

Lemma looks_like_doi_url_scheme u :
  Mutators.looks_like_doi_url u = true →
  (∃ r, u = lit "https://" ++ r) ∨ (∃ r, u = lit "http://" ++ r).
Proof.
  unfold Mutators.looks_like_doi_url.
  intros [[r ->]%starts_with_app Hrest]%andb_true_iff.
  change (skipn 4 (lit "http" ++ r)) with r in Hrest.
  destruct r as [|c r]; [done|].
  assert (∀ t, Mutators.doi_after_scheme t = true → ∃ r', t = lit "://" ++ r') as Hafter.
  { intros t [[r' ->]%starts_with_app _]%andb_true_iff.
    exists (lit "doi" ++ r'). done. }
  destruct (N.eqb_spec c 115) as [->|Hc].
  - apply Hafter in Hrest as [r' ->]. left. by exists r'.
  - apply Hafter in Hrest as [r' Hr']. right. exists r'. by rewrite Hr'.
Qed.

(** What [doiRewrite] returns is the empty string or begins with
    [https://], and [doiRewrite] leaves it as it is. *)
Theorem doiRewrite_gives_https v ref out :
  Mutators.doiRewrite v ref = Ok out →
  (out = FStr [] ∨ ∃ r, to_string out = lit "https://" ++ r)
  ∧ Mutators.doiRewrite out ref = Ok out.
Proof.
  assert (∀ r, Mutators.doiRewrite (FStr (lit "https://" ++ r)) ref
               = Ok (FStr (lit "https://" ++ r))) as Hfix by done.
  unfold Mutators.doiRewrite at 1.
  destruct (truthy (Some v)) eqn:Hv.
  - destruct (starts_with (lit "https://") (to_string v)) eqn:Hs.
    + intros [= <-]. split.
      * right. by apply starts_with_app.
      * unfold Mutators.doiRewrite. by rewrite Hv, Hs.
    + destruct (starts_with (lit "http://") (to_string v)) eqn:Hh.
      * destruct v as [s|]; [|done]. intros [= <-].
        apply starts_with_app in Hh as [r Hr]. simpl in Hr. subst s.
        change (Mutators.upgrade_scheme (lit "http://" ++ r))
          with (lit "https://" ++ r).
        split; [|apply Hfix]. right. by exists r.
      * intros [= <-]. split; [|apply Hfix]. right. by eexists.
  - destruct v as [[|c s]|]; try done.
    destruct ref as [rec|]; [|done].
    destruct (rec !! "urls") as [[u|p us]|] eqn:Hurls; [done| |].
    + destruct (find Mutators.looks_like_doi_url us) as [found|] eqn:Hfound.
      * intros [= <-]. apply find_some in Hfound as [_ Hlooks].
        apply looks_like_doi_url_scheme in Hlooks as [[r ->]|[r ->]].
        -- change (Mutators.upgrade_scheme (lit "https://" ++ r))
             with (lit "https://" ++ r).
           split; [|apply Hfix]. right. by exists r.
        -- change (Mutators.upgrade_scheme (lit "http://" ++ r))
             with (lit "https://" ++ r).
           split; [|apply Hfix]. right. by exists r.
      * intros [= <-]. split; [by left|].
        unfold Mutators.doiRewrite. simpl. by rewrite Hurls, Hfound.
    + simpl. intros [= <-]. split; [by left|].
      unfold Mutators.doiRewrite. simpl. by rewrite Hurls.
Qed.

(** ** [consistentPageNumbering] *)

Lemma span_spec p s a r :
  Mutators.span p s = (a, r) →
  s = a ++ r ∧ Forall (fun c => p c = true) a
  ∧ match r with [] => True | c :: _ => p c = false end.
Proof.
  revert a r. induction s as [|c s IH]; intros a r; simpl.
  { by intros [= <- <-]. }
  destruct (p c) eqn:Hc.
  - destruct (Mutators.span p s) as [a' r'] eqn:Hs. intros [= <- <-].
    destruct (IH a' r' eq_refl) as (-> & Ha & Hr). repeat split; [by constructor|done].
  - intros [= <- <-]. by repeat split.
Qed.

Lemma span_app p a r :
  Forall (fun c => p c = true) a →
  match r with [] => True | c :: _ => p c = false end →
  Mutators.span p (a ++ r) = (a, r).
Proof.
  intros Ha Hr. induction Ha as [|c a Hc Ha IH]; simpl.
  - destruct r as [|c r]; [done|]. simpl. by rewrite Hr.
  - by rewrite Hc, IH.
Qed.

Lemma page_groups_shape v from to :
  Mutators.page_groups v = Some (from, to) →
  page_number from ∧ ∀ t, to = Some t → page_number t.
Proof.
  unfold Mutators.page_groups.
  destruct (Mutators.span Mutators.is_digit v) as [from' r1] eqn:H1.
  apply span_spec in H1 as (_ & Hfrom & _).
  destruct from' as [|c from']; [done|].
  destruct (Mutators.span Mutators.is_space r1) as [ws r2].
  destruct r2 as [|c2 r2].
  { intros [= <- <-]. split; [done|]. by intros. }
  destruct (Mutators.skip_dashes (c2 :: r2)) as [k r3].
  destruct k as [|k]; [done|].
  destruct (Mutators.span Mutators.is_digit r3) as [to' r4] eqn:H4.
  apply span_spec in H4 as (_ & Hto & _).
  destruct to' as [|d to']; [done|].
  destruct (Mutators.span Mutators.is_space r4) as [ws' r5].
  destruct r5; [|done]. intros [= <- <-]. split; [done|]. by intros t [= <-].
Qed.

Lemma page_groups_single from :
  page_number from → Mutators.page_groups from = Some (from, None).
Proof.
  intros [Hne Hdigits]. unfold Mutators.page_groups.
  rewrite <- (app_nil_r from) at 1. rewrite span_app by done.
  destruct from; [done|]. done.
Qed.

Lemma page_groups_range from to :
  page_number from → page_number to →
  Mutators.page_groups (from ++ lit "-" ++ to) = Some (from, Some to).
Proof.
  intros [Hne Hdigits] [Hne' Hdigits']. unfold Mutators.page_groups.
  change (lit "-" ++ to) with (45%N :: to).
  rewrite span_app by done.
  destruct from as [|c from]; [done|].
  change (Mutators.span Mutators.is_space (45%N :: to)) with ([] : jsstring, 45%N :: to).
  destruct to as [|d to]; [done|].
  inversion Hdigits' as [|? ? Hd Hto]; subst.
  assert (Mutators.skip_dashes (45%N :: d :: to) = (1%nat, d :: to)) as ->.
  { cbn [Mutators.skip_dashes]. change (Mutators.is_dash 45) with true.
    assert (Mutators.is_dash d = false ∧ N.eqb d 55299 = false) as [Hdash Hsur].
    { unfold Mutators.is_digit in Hd. apply andb_true_iff in Hd as [H1%N.leb_le H2%N.leb_le].
      unfold Mutators.is_dash.
      repeat match goal with
             | |- context [N.eqb ?a ?b] => destruct (N.eqb_spec a b); [lia|]
             | |- context [N.leb ?a ?b] => destruct (N.leb_spec a b); [lia|]
             end.
      done. }
    destruct to as [|e to]; simpl; rewrite Hdash; [done|]. by rewrite Hsur. }
  rewrite <- (app_nil_r (d :: to)) at 1. rewrite span_app by done. done.
Qed.

(** What [consistentPageNumbering] returns is the empty string, one page
    number, or two page numbers joined by a hyphen, the second at least as
    long as the first; and [consistentPageNumbering] leaves it as it is. *)
Theorem consistentPageNumbering_normal_form v :
  ∃ out,
    Mutators.consistentPageNumbering v = Ok (FStr out)
    ∧ (out = []
       ∨ page_number out
       ∨ ∃ from to, out = from ++ lit "-" ++ to
                    ∧ page_number from ∧ page_number to
                    ∧ (length from ≤ length to)%nat)
    ∧ Mutators.consistentPageNumbering (FStr out) = Ok (FStr out).
Proof.
  unfold Mutators.consistentPageNumbering at 1.
  destruct (Mutators.page_groups (to_string v)) as [[from [to|]]|] eqn:Hgroups.
  - destruct (page_groups_shape _ _ _ Hgroups) as [Hfrom Hto].
    specialize (Hto to eq_refl).
    set (to' := firstn (length from - length to) from ++ to).
    assert (page_number to') as Hto'.
    { split.
      - subst to'. destruct Hto as [Hne _]. intros [_ ?]%app_eq_nil. done.
      - subst to'. apply Forall_app. split; [|apply Hto].
        apply Forall_take, Hfrom. }
    assert (length from ≤ length to')%nat as Hlen.
    { subst to'. rewrite length_app, length_take. lia. }
    exists (from ++ lit "-" ++ to'). split; [done|]. split.
    + right. right. by exists from, to'.
    + unfold Mutators.consistentPageNumbering. cbn [to_string].
      rewrite page_groups_range by done.
      replace (length from - length to')%nat with 0%nat by lia. done.
  - destruct (page_groups_shape _ _ _ Hgroups) as [Hfrom _].
    exists from. split; [done|]. split; [by right; left|].
    unfold Mutators.consistentPageNumbering. cbn [to_string].
    by rewrite page_groups_single.
  - exists []. split; [done|]. split; [by left|done].
Qed.

(** ** The working record *)

Section Normalise.

Variable mutator_registry : string -> option mutator_handler.

Lemma mapValues_elem ms original mutated field spec :
  mapValues mutator_registry ms original = Ok mutated →
  (field, spec) ∈ ms →
  ∃ v, reduce_mutators mutator_registry (castArray spec)
         (raw_value original field) original = Ok v
       ∧ (field, v) ∈ mutated.
Proof.
  revert mutated. induction ms as [|[f sp] ms IH]; intros mutated; simpl.
  { by intros _ ?%elem_of_nil. }
  destruct (reduce_mutators _ (castArray sp) _ _) as [v|] eqn:Hv; [|done]. simpl.
  destruct (mapValues _ _ _) as [rest|]; [|done]. simpl.
  intros [= <-] [[= <- <-]|Hin]%elem_of_cons.
  - exists v. split; [done|by left].
  - destruct (IH rest eq_refl Hin) as (v' & Hv' & Hin'). exists v'. split; [done|by right].
Qed.

(** The fields of a working record: a field that the strategy's
    [mutators] name holds what its mutators, applied from left to right,
    make of the record's value (of the empty string, when the record has no
    such field or an empty one), so it is always there; every other field is
    the record's own. *)
Theorem working_record_fields strat index original w :
  NoDup (default [] (mutators strat)).*1 →
  working mutator_registry strat index original = Ok w →
  (∀ field spec,
     (field, spec) ∈ default [] (mutators strat) →
     ∃ v, reduce_mutators mutator_registry (castArray spec)
            (raw_value original field) original = Ok v
          ∧ props w !! field = Some v)
  ∧ (∀ field,
       field ∉ (default [] (mutators strat)).*1 →
       props w !! field = original !! field).
Proof.
  intros Hnodup. unfold working.
  destruct (mapValues _ _ _) as [mutated|] eqn:Hm; [|done]. simpl.
  intros [= <-]. simpl.
  pose proof (mapValues_keys _ _ _ _ Hm) as Hkeys. split.
  - intros field spec Hin.
    destruct (mapValues_elem _ _ _ _ _ Hm Hin) as (v & Hv & Hin').
    exists v. split; [done|]. apply lookup_union_Some_l.
    apply elem_of_list_to_map; [by rewrite Hkeys|done].
  - intros field Hout. apply lookup_union_r.
    apply not_elem_of_list_to_map_1. by rewrite Hkeys.
Qed.

End Normalise.

(** ** Records next to each other in the sorted order *)

Section Props.

Variable comparisons : string -> option comparison_handler.

(** The comparison of two working records reads their fields only. *)
Lemma field_score_props cs a b a' b' s field :
  props a' = props a → props b' = props b →
  field_score comparisons cs a' b' s field = field_score comparisons cs a b s field.
Proof. intros Ha Hb. unfold field_score. by rewrite Ha, Hb. Qed.

Lemma min_over_props cs a b a' b' s fs minimum :
  props a' = props a → props b' = props b →
  min_over comparisons cs a' b' s fs minimum = min_over comparisons cs a b s fs minimum.
Proof.
  intros Ha Hb. revert cs minimum. induction fs as [|f fs IH]; intros cs minimum; simpl;
    [done|].
  rewrite (field_score_props cs a b a' b') by done.
  destruct (field_score _ _ _ _ _ _) as [[x cs1]|]; [|done]. simpl. apply IH.
Qed.

Lemma reduce_over_props cs a b a' b' s fs res :
  props a' = props a → props b' = props b →
  reduce_over comparisons cs a' b' s fs res = reduce_over comparisons cs a b s fs res.
Proof.
  intros Ha Hb. revert cs res. induction fs as [|f fs IH]; intros cs res; simpl; [done|].
  rewrite (field_score_props cs a b a' b') by done.
  destruct (field_score _ _ _ _ _ _) as [[x cs1]|]; [|done]. simpl. apply IH.
Qed.

Lemma compareViaStep_props settings cs a b a' b' s :
  props a' = props a → props b' = props b →
  compareViaStep comparisons settings cs a' b' s
  = compareViaStep comparisons settings cs a b s.
Proof.
  intros Ha Hb. unfold compareViaStep, compareViaStepMin, compareViaStepAvg.
  destruct (fields s) as [fs|]; [|done].
  by rewrite (min_over_props _ a b a' b'), (reduce_over_props _ a b a' b').
Qed.

End Props.

Section Adjacent.

Variable comparisons : string -> option comparison_handler.
Variable settings : Settings.t.
Variable s : step.
Variable stepIndex : nat.
Variable sortedRefs : list nat.

Local Abbreviation len := (length sortedRefs).

Lemma score_ge_gt x y :
  score_gt x (SNum (Num 0)) = true → score_ge y x = true →
  score_gt y (SNum (Num 0)) = true.
Proof.
  intros (qx & Hx & Hpos)%score_gt_zero. unfold score_ge, num_leb. rewrite Hx.
  destruct (to_number y) as [qy|] eqn:Hy; [|done]. rewrite Qle_bool_iff. intros Hle.
  apply score_gt_zero. exists qy. split; [done|lra].
Qed.

(** The pair of a record and its successor in the sorted order is
    compared: from any cursors at or before it, the scan reaches it. *)
Lemma scan_reaches_adjacent p st i n st' :
  (S p < len)%nat →
  (i < p ∧ (n = S i ∨ n < len) ∧ i < n ∨ i = p ∧ n = S p)%nat →
  scan comparisons settings s stepIndex sortedRefs st i n = Ok st' →
  ∃ cur cur' same,
    scan_pair comparisons settings s stepIndex sortedRefs cur p (S p) = Ok (cur', same)
    ∧ identity_of <$> refs cur = identity_of <$> refs st
    ∧ (Forall (fun w => steps_wf settings (steps_of w)) (refs st) →
       Forall (fun w => steps_wf settings (steps_of w)) (refs cur))
    ∧ entries_grow stepIndex (refs cur') (refs st').
Proof.
  intros Hp.
  remember (cursor_measure len i n) as m eqn:Hm.
  revert st i n Hm. induction (lt_wf m) as [m _ IH]. intros st i n -> Hcur.
  rewrite scan_once. destruct (decide (n < len)%nat) as [Hn|Hn]; [|lia].
  destruct (scan_pair _ _ _ _ _ _ _ _) as [[st1 same]|e] eqn:Hpair; [|done].
  intros Hscan.
  destruct Hcur as [(Hip & Hshape & Hin)|[-> ->]].
  - destruct (IH _ (advance_decreases sortedRefs i n same Hn) st1
                (advance len i n same).1 (advance len i n same).2 eq_refl)
      as (cur & cur' & same' & Hpair' & Hid & Hwf & Hgrow); [|done|].
    { unfold advance. destruct same; [case_decide|]; simpl; lia. }
    destruct (scan_pair_ok _ _ _ _ _ _ _ _ _ _ Hpair)
      as (? & ? & ? & ? & ? & _ & _ & _ & _ & _ & _ & Hid1 & _).
    exists cur, cur', same'. split; [done|]. split; [by rewrite Hid|].
    split; [|done]. intros Hst. apply Hwf. by eapply scan_pair_steps_wf.
  - exists st, st1, same. split; [done|]. split; [done|]. split; [done|].
    by eapply scan_entries_grow.
Qed.


Lemma get_entry_elem rs pos k e :
  get_entry rs pos k = Some e → ∃ w, rs !! pos = Some w ∧ Some e ∈ steps_of w.
Proof.
  unfold get_entry, sparse_get. destruct (rs !! pos) as [w|]; [|done]. simpl.
  destruct (steps_of w !! k) as [o|] eqn:Hk; [|done]. simpl. intros ->.
  exists w. split; [done|]. by eapply list_elem_of_lookup_2.
Qed.

Lemma get_entry_written rs pos k e :
  Forall (fun w => steps_wf settings (steps_of w)) rs →
  get_entry rs pos k = Some e → written_entry settings e.
Proof.
  intros Hwf (w & Hw & He)%get_entry_elem.
  by apply (proj1 (Forall_lookup _ _) Hwf _ _ Hw).
Qed.

(** A hit on a record's successor is recorded.  When the comparison of
    the record at a sorted position with the record at the next position
    scores above 0, the scan leaves the latter with an entry for the step
    whose score is at least that; unless [markOriginal] is set, the entry
    names a duplicate. *)
Theorem hit_on_successor_is_recorded p pa pb a b x st st' :
  scan comparisons settings s stepIndex sortedRefs st 0 1 = Ok st' →
  Forall (fun w => steps_wf settings (steps_of w)) (refs st) →
  sortedRefs !! p = Some pa → sortedRefs !! S p = Some pb →
  refs st !! pa = Some a → refs st !! pb = Some b →
  (∀ cs, ∃ cs', compareViaStep comparisons settings cs a b s = Ok (x, cs')) →
  score_gt x (SNum (Num 0)) = true →
  ∃ e,
    get_entry (refs st') pb stepIndex = Some e
    ∧ score_ge (score e) x = true
    ∧ (Settings.markOriginal settings = false → is_Some (dupeOf e)).
Proof.
  intros Hscan Hwf Hpa Hpb Ha Hb Hcmp Hgt.
  assert (S p < len)%nat as Hp by (by eapply lookup_lt_Some).
  destruct (scan_reaches_adjacent p st 0 1 st' Hp) as
    (cur & cur' & same & Hpair & Hid & Hwfcur & Hgrow); [lia|done|].
  specialize (Hwfcur Hwf).
  destruct (scan_pair_refs _ _ _ _ _ _ _ _ _ _ Hpair)
    as (pa' & a' & pb' & b' & x' & Hpa' & Ha' & Hpb' & Hb' & Hcmp' & _ & Hcases).
  assert (pa' = pa) as -> by congruence. assert (pb' = pb) as -> by congruence.
  destruct (lookup_identity _ _ _ _ Hid Ha') as (a0 & Ha0 & Hida).
  destruct (lookup_identity _ _ _ _ Hid Hb') as (b0 & Hb0 & Hidb).
  assert (a0 = a) as -> by congruence. assert (b0 = b) as -> by congruence.
  assert (x' = x) as ->.
  { rewrite (compareViaStep_props _ _ _ a b a' b') in Hcmp'.
    - destruct (Hcmp (calls cur)) as [cs' Hx]. congruence.
    - unfold identity_of in Hida. congruence.
    - unfold identity_of in Hidb. congruence. }
  destruct (proj1 (score_gt_zero x) Hgt) as (qx & Hqx & Hpos).
  assert (score_ge x x = true) as Hxx.
  { unfold score_ge, num_leb. rewrite Hqx. apply Qle_bool_iff. lra. }
  assert (∃ e, get_entry (refs cur') pb stepIndex = Some e
               ∧ score_ge (score e) x = true) as (e & He & Hge).
  { destruct Hcases as [[Hno _]|(_ & _ & _ & rs1 & Hrs1 & Hrs2)]; [congruence|].
    assert (length rs1 = length (refs cur)
            ∧ Forall (fun w => steps_wf settings (steps_of w)) rs1) as [Hlen1 Hwf1].
    { destruct Hrs1 as [->|[_ ->]]; [done|]. split; [apply length_set_entry|].
      apply steps_wf_set_entry; [|done]. unfold written_entry, anchor_entry. simpl.
      by destruct (Settings.markOriginal settings). }
    destruct Hrs2 as [[-> (old & Hold & Hlow)]|[-> _]].
    - exists old. split; [done|].
      destruct (written_entry_nonneg _ _ (get_entry_written _ _ _ _ Hwf1 Hold))
        as (qo & Hqo & _).
      unfold score_ge, num_leb in *. rewrite Hqx, Hqo in *.
      apply Qle_bool_iff. destruct (Qlt_le_dec qo qx) as [Hlt|Hle]; [|done].
      exfalso. assert (Qle_bool qo qx = true); [|congruence].
      apply Qle_bool_iff. lra.
    - exists (link_entry settings x a'). split; [|done].
      rewrite get_entry_set_entry.
      + case_decide as Hc; [done|]. exfalso. by apply Hc.
      + rewrite Hlen1. by eapply lookup_lt_Some. }
  destruct (proj2 Hgrow _ _ He) as (e' & He' & Hrel).
  assert (score_ge (score e') x = true) as Hge'.
  { destruct Hrel as [->|Hrel]; [done|]. by eapply score_ge_trans. }
  exists e'. split; [done|]. split; [done|]. intros Hmark.
  pose proof (scan_steps_wf _ _ _ _ _ _ _ _ _ Hscan Hwf) as Hwf'.
  pose proof (get_entry_written _ _ _ _ Hwf' He') as Hwritten.
  unfold written_entry in Hwritten. rewrite Hmark in Hwritten.
  destruct (dupeOf e') as [d|]; [by eexists|].
  pose proof (score_ge_gt _ _ Hgt Hge') as Hpos'. by rewrite Hwritten in Hpos'.
Qed.

End Adjacent.

(** ** [stripHtmlTags] *)

Lemma strip_tags_sublist in_tag s : strip_tags in_tag s `sublist_of` s.
Proof.
  revert in_tag. induction s as [|c s IH]; intros in_tag; simpl; [done|].
  destruct in_tag; [apply sublist_cons, IH|].
  destruct (N.eqb c 60 && opens_tag s); [apply sublist_cons, IH|apply sublist_skip, IH].
Qed.

Lemma existsb_sublist {A : Type} (p : A → bool) (l1 l2 : list A) :
  l1 `sublist_of` l2 → existsb p l2 = false → existsb p l1 = false.
Proof.
  induction 1 as [|x l1 l2 Hsub IH|x l1 l2 Hsub IH]; simpl; [done| |].
  - intros [-> ?]%orb_false_iff. by rewrite IH.
  - intros [_ ?]%orb_false_iff. by apply IH.
Qed.

Lemma opens_tag_strip s :
  opens_tag s = false → opens_tag (strip_tags false s) = false.
Proof.
  assert (∀ t, existsb (N.eqb 62) t = false → opens_tag t = false) as Hno.
  { intros [|e t] Ht; [done|]. unfold opens_tag. by rewrite Ht, andb_false_r. }
  destruct s as [|d s]; [done|]. unfold opens_tag at 1.
  destruct (N.eqb_spec d 62) as [->|Hd]; cbn [negb andb].
  - intros _. change (strip_tags false (62%N :: s)) with (62%N :: strip_tags false s).
    unfold opens_tag. by rewrite N.eqb_refl.
  - intros Hs. apply Hno.
    by apply (existsb_sublist _ _ _ (strip_tags_sublist false (d :: s))).
Qed.

Lemma strip_tags_idem in_tag s :
  strip_tags false (strip_tags in_tag s) = strip_tags in_tag s.
Proof.
  revert in_tag. induction s as [|c s IH]; intros in_tag; simpl; [done|].
  destruct in_tag; [apply IH|].
  destruct (N.eqb c 60 && opens_tag s) eqn:Hopen; [apply IH|]. simpl.
  rewrite IH.
  destruct (N.eqb c 60) eqn:Hc; [|done]. simpl in *.
  by rewrite (opens_tag_strip s Hopen).
Qed.

Lemma strip_tags_id s :
  existsb (N.eqb 60) s = false → strip_tags false s = s.
Proof.
  induction s as [|c s IH]; [done|]. cbn [existsb strip_tags].
  intros [Hc Hs]%orb_false_iff. rewrite N.eqb_sym in Hc. rewrite Hc. cbn [andb].
  by rewrite IH.
Qed.

(** [stripHtmlTags] only removes: what it returns is a subsequence of the
    string; it leaves no tag behind (applied to its result it changes
    nothing); a string without [<] comes back as it is; an array makes it
    throw a [TypeError]. *)
Theorem stripHtmlTags_removes_tags v :
  (∀ s, v = FStr s →
     ∃ t, stripHtmlTags v = Ok (FStr t)
          ∧ t `sublist_of` s
          ∧ stripHtmlTags (FStr t) = Ok (FStr t)
          ∧ (existsb (N.eqb 60) s = false → t = s))
  ∧ (∀ p xs, v = FArr p xs → stripHtmlTags v = Throw TypeError).
Proof.
  split.
  - intros s ->. exists (strip_tags false s). split; [done|].
    split; [apply strip_tags_sublist|]. split.
    + simpl. by rewrite strip_tags_idem.
    + apply strip_tags_id.
  - by intros p xs ->.
Qed.

(** ** [removeEnclosingBrackets] *)

Section TrimFacts.

Variable unicodeToArray : jsstring -> list jsstring.

Local Abbreviation brackets := (stringToArray unicodeToArray (lit "()[]{}")).

Lemma among_brackets c : among brackets [c] = is_bracket c.
Proof.
  unfold among. change brackets with [[40]; [41]; [91]; [93]; [123]; [125]]%N.
  unfold is_bracket. simpl. rewrite !andb_true_r, orb_false_r. by rewrite !orb_assoc.
Qed.

Local Abbreviation units := (fmap (fun c : N => [c])).

Lemma charsStartIndex_units s :
  let k := charsStartIndex (units s) brackets in
  (k ≤ length s)%nat
  ∧ Forall (fun c => is_bracket c = true) (take k s)
  ∧ ∀ c, s !! k = Some c → is_bracket c = false.
Proof.
  induction s as [|c s IH]; [done|]. cbn [fmap list_fmap charsStartIndex].
  rewrite among_brackets. destruct (is_bracket c) eqn:Hc.
  - destruct IH as (Hk & Hall & Hnext). cbn zeta. repeat split.
    + simpl. lia.
    + by constructor.
    + exact Hnext.
  - cbn zeta. repeat split; [simpl; lia|done|]. by intros ? [= <-].
Qed.

Lemma concat_units (s : jsstring) : List.concat (units s) = s.
Proof. induction s as [|c s IH]; [done|]. cbn. by f_equal. Qed.

Lemma trim_plain s :
  hasUnicode s = false →
  trim unicodeToArray s (lit "()[]{}")
  = take (length s - charsStartIndex (units (reverse s)) brackets
          - charsStartIndex (units s) brackets)
      (drop (charsStartIndex (units s) brackets) s).
Proof.
  intros Hplain.
  assert (stringToArray unicodeToArray s = units s) as Hsym.
  { unfold stringToArray. by rewrite Hplain. }
  unfold trim. destruct s as [|c s'] eqn:Hs; [done|]. rewrite <- Hs in *.
  rewrite Hsym. unfold charsEnd.
  rewrite <- fmap_reverse, !length_fmap, <- fmap_drop, <- fmap_take.
  apply concat_units.
Qed.

(** On a string without the code units that make lodash split by symbol,
    [removeEnclosingBrackets] removes the brackets at the two ends and
    nothing else: the string is a run of brackets, the result, and a run of
    brackets; the result neither begins nor ends with a bracket, so the
    mutator leaves it as it is. *)
Theorem removeEnclosingBrackets_trims_both_ends s :
  hasUnicode s = false →
  ∃ l m r,
    s = l ++ m ++ r
    ∧ removeEnclosingBrackets unicodeToArray (FStr s) = Ok (FStr m)
    ∧ Forall (fun c => is_bracket c = true) l
    ∧ Forall (fun c => is_bracket c = true) r
    ∧ (∀ c, head m = Some c → is_bracket c = false)
    ∧ (∀ c, last m = Some c → is_bracket c = false).
Proof.
  intros Hplain. unfold removeEnclosingBrackets. cbn [to_string].
  rewrite (trim_plain s Hplain).
  destruct (charsStartIndex_units s) as (Hk & Hl & Hnext).
  destruct (charsStartIndex_units (reverse s)) as (Hk' & Hr & Hprev).
  rewrite length_reverse in Hk'.
  set (k := charsStartIndex (units s) brackets) in *.
  set (k' := charsStartIndex (units (reverse s)) brackets) in *.
  destruct (decide (k = length s)) as [Hfull|Hpart].
  - assert (k' = length s) as Hfull'.
    { destruct (decide (k' = length s)) as [?|Hne]; [done|]. exfalso.
      destruct (lookup_lt_is_Some_2 (reverse s) k') as [c Hc];
        [rewrite length_reverse; lia|].
      specialize (Hprev c Hc). apply reverse_lookup_Some in Hc as [Hc _].
      rewrite Hfull, firstn_all in Hl.
      pose proof (proj1 (Forall_lookup _ _) Hl _ _ Hc). congruence. }
    exists s, [], []. rewrite app_nil_r. repeat split; try done.
    + rewrite Hfull', Nat.sub_diag. done.
    + by rewrite Hfull, firstn_all in Hl.
  - destruct (lookup_lt_is_Some_2 s k) as [c Hc]; [lia|].
    pose proof (Hnext c Hc) as Hcb.
    assert (k' < length s)%nat as Hlt'.
    { destruct (decide (k' = length s)) as [Hfull'|?]; [|lia]. exfalso.
      rewrite Hfull', <- (length_reverse s), firstn_all in Hr.
      rewrite Forall_reverse in Hr.
      pose proof (proj1 (Forall_lookup _ _) Hr _ _ Hc). congruence. }
    destruct (lookup_lt_is_Some_2 (reverse s) k') as [d Hd];
      [rewrite length_reverse; lia|].
    pose proof (Hprev d Hd) as Hdb. apply reverse_lookup_Some in Hd as [Hd _].
    assert (k ≤ length s - S k')%nat as Horder.
    { destruct (decide (k ≤ length s - S k')%nat) as [?|Hgt]; [done|]. exfalso.
      assert (take k s !! (length s - S k')%nat = Some d) as Hin.
      { rewrite lookup_take_lt by lia. done. }
      pose proof (proj1 (Forall_lookup _ _) Hl _ _ Hin). congruence. }
    exists (take k s), (take (length s - k' - k) (drop k s)), (drop (length s - k') s).
    repeat split; try done.
    + rewrite <- (take_drop k s) at 1. f_equal.
      rewrite <- (take_drop (length s - k' - k) (drop k s)) at 1. f_equal.
      rewrite drop_drop. f_equal. lia.
    + rewrite take_reverse, Forall_reverse in Hr. exact Hr.
    + intros c'. rewrite head_lookup, lookup_take_lt by lia.
      rewrite lookup_drop, Nat.add_0_r, Hc. by intros [= <-].
    + intros c'. rewrite last_lookup, length_take, length_drop.
      rewrite lookup_take_lt by lia. rewrite lookup_drop.
      replace (k + Init.Nat.pred ((length s - k' - k) `min` (length s - k)))%nat
        with (length s - S k')%nat by lia.
      rewrite Hd. by intros [= <-].
Qed.

End TrimFacts.

(** ** Pairs and handler calls *)

Section Calls.

Variable comparisons : string -> option comparison_handler.
Variable settings : Settings.t.

Lemma field_score_calls cs a b s field x cs' :
  field_score comparisons cs a b s field = Ok (x, cs') →
  (cs ≤ cs' ≤ S cs)%nat.
Proof.
  unfold field_score. destruct (_ && _); [intros [= _ <-]; lia|].
  destruct (handler_of _ _) as [h|]; [|done]. simpl.
  destruct (h _ _ _); [|done]. simpl. intros [= _ <-]. lia.
Qed.

Lemma min_over_calls cs a b s fs minimum x cs' :
  min_over comparisons cs a b s fs minimum = Ok (x, cs') →
  (cs ≤ cs' ≤ cs + length fs)%nat.
Proof.
  revert cs minimum. induction fs as [|f fs IH]; intros cs minimum; simpl.
  { intros [= _ <-]. lia. }
  destruct (field_score _ _ _ _ _ _) as [[y cs1]|] eqn:Hf; [|done]. simpl.
  intros Hrest. apply IH in Hrest. apply field_score_calls in Hf. lia.
Qed.

Lemma reduce_over_calls cs a b s fs res x cs' :
  reduce_over comparisons cs a b s fs res = Ok (x, cs') →
  (cs ≤ cs' ≤ cs + length fs)%nat.
Proof.
  revert cs res. induction fs as [|f fs IH]; intros cs res; simpl.
  { intros [= _ <-]. lia. }
  destruct (field_score _ _ _ _ _ _) as [[y cs1]|] eqn:Hf; [|done]. simpl.
  intros Hrest. apply IH in Hrest. apply field_score_calls in Hf. lia.
Qed.

Lemma compareViaStep_calls cs a b s fs x cs' :
  fields s = Some fs →
  compareViaStep comparisons settings cs a b s = Ok (x, cs') →
  (cs ≤ cs' ≤ cs + length fs)%nat.
Proof.
  intros Hfs. unfold compareViaStep, compareViaStepMin, compareViaStepAvg. rewrite Hfs.
  destruct (Nat.eqb _ _); [apply min_over_calls|].
  destruct (reduce_over _ _ _ _ _ _ _) as [[y cs1]|] eqn:Hr; [|done]. simpl.
  intros [= _ <-]. by eapply reduce_over_calls.
Qed.

(** The scan of one step over [len] sorted records compares at least
    [len - 1] pairs and at most [len * (len - 1) / 2], and calls the
    comparison handler at most once for each field of each pair. *)
Theorem scan_compares_between_linear_and_quadratic s stepIndex sortedRefs fs st st' :
  fields s = Some fs →
  scan comparisons settings s stepIndex sortedRefs st 0 1 = Ok st' →
  let len := length sortedRefs in
  (pairs st + (len - 1) ≤ pairs st')%nat
  ∧ (2 * pairs st' ≤ 2 * pairs st + len * (len - 1))%nat
  ∧ (calls st ≤ calls st')%nat
  ∧ (calls st' ≤ calls st + (pairs st' - pairs st) * length fs)%nat.
Proof.
  intros Hfs Hscan len.
  destruct (scan_pairs_bounds _ _ _ _ _ _ _ Hscan) as [Hlow Hup].
  split; [done|]. split; [done|].
  destruct (scan_invariant comparisons settings s stepIndex sortedRefs
              (fun cur _ _ =>
                 (pairs st ≤ pairs cur)%nat ∧ (calls st ≤ calls cur)%nat
                 ∧ (calls cur ≤ calls st + (pairs cur - pairs st) * length fs)%nat))
    with (st := st) (i := 0%nat) (n := 1%nat) (st' := st')
    as (_ & _ & (_ & H1 & H2) & _); try done.
  - intros cur i n cur' same (Hp & Hc1 & Hc2) _ Hpair.
    destruct (scan_pair_ok _ _ _ _ _ _ _ _ _ _ Hpair)
      as (? & a & ? & b & x & _ & _ & _ & _ & Hcmp & Hpairs & _).
    apply (compareViaStep_calls _ _ _ _ fs) in Hcmp; [|done].
    rewrite Hpairs. split; [lia|]. split; [lia|].
    replace (S (pairs cur) - pairs st)%nat with (S (pairs cur - pairs st)) by lia.
    simpl. lia.
  - split; [lia|]. split; [lia|]. lia.
Qed.

(** The scan of a step writes that step's entries only: every working
    record keeps its fields, its [index] and its [recNumber]; the entries
    of the other steps stay as they are; an entry of the step is never
    removed, and when the scan replaces it, the new score is at least the
    old. *)
Theorem scan_writes_its_step_only s stepIndex sortedRefs st i n st' :
  scan comparisons settings s stepIndex sortedRefs st i n = Ok st' →
  identity_of <$> refs st' = identity_of <$> refs st
  ∧ (∀ pos k, k ≠ stepIndex →
       get_entry (refs st') pos k = get_entry (refs st) pos k)
  ∧ (∀ pos e,
       get_entry (refs st) pos stepIndex = Some e →
       ∃ e', get_entry (refs st') pos stepIndex = Some e'
             ∧ (e' = e ∨ score_ge (score e') (score e) = true)).
Proof.
  intros Hscan. split; [by eapply scan_identity|].
  exact (scan_entries_grow _ _ _ _ _ _ _ _ _ Hscan).
Qed.

End Calls.

(** ** What [validateStrategy] decides *)

(** [validateStrategy] returns [true] on the strategies that pass every
    check and on no other; what it returns otherwise is a list of errors
    that is not empty; and it throws only when [steps] is missing. *)
Theorem validateStrategy_decides s :
  (validateStrategy s = Ok VTrue ↔ passes s)
  ∧ (∀ errs, validateStrategy s = Ok (VErrors errs) → errs ≠ [] ∧ ¬ passes s)
  ∧ (∀ e, validateStrategy s = Throw e → e = TypeError ∧ steps s = None).
Proof.
  split; [apply validateStrategy_true|]. split.
  - intros errs Hv. split.
    + intros ->. unfold validateStrategy in Hv.
      destruct (steps s); [|done]. injection Hv as Hv. by destruct (_ ++ _).
    + intros Hp%validateStrategy_true. congruence.
  - intros e. unfold validateStrategy. destruct (steps s); [done|].
    by intros [= <-].
Qed.

(** ** When [run] returns *)

Section RunReturns.

Variable comparisons : string -> option comparison_handler.
Variable mutator_registry : string -> option mutator_handler.
Variable strategies : gmap string strategy.
Variable settings : Settings.t.

(** What STATS returns, record by record. *)
Lemma run_stats_records input out :
  Settings.action settings = ACTIONS.STATS →
  run comparisons mutator_registry strategies settings input = Ok out →
  length out = length input
  ∧ ∀ k ref,
      input !! k = Some ref →
      ∃ q ds,
        out !! k
        = Some (<[Settings.actionField settings := OStats (Num q) ds]> (spread ref))
        ∧ (0 <= q)%Q
        ∧ (Settings.markOriginal settings = false → ((0 < q)%Q ↔ ds ≠ [])).
Proof.
  intros Haction. unfold run.
  destruct (run_sweep _ _ _ _ _) as [st|] eqn:Hst; [|done]. simpl.
  destruct (aggregate (refs st)) as [scored|] eqn:Hscored; [|done]. simpl.
  unfold dispatch. rewrite Haction. simpl. intros Hout.
  destruct (decorate_ok _ _ _ _ _ _ Hout) as [Hlen Hall]. split; [done|].
  intros k ref Hk.
  destruct (Hall _ _ Hk) as (r & Hr & Ho'). simpl in Hr. rewrite Ho'.
  destruct (aggregate_ok _ _ Hscored) as [_ Hagg].
  destruct (lookup_lt_is_Some_2 (refs st) k) as [w Hw].
  { rewrite <- (proj1 (aggregate_ok _ _ Hscored)). by eapply lookup_lt_Some. }
  destruct (Hagg _ _ Hw) as (l & Hl & Hr'). rewrite Hr' in Hr. injection Hr as <-.
  pose proof (proj1 (Forall_lookup _ _) (run_sweep_steps_wf _ _ _ _ _ _ Hst) _ _ Hw)
    as Hwf.
  assert (steps_of w = l) as Hsteps by (unfold steps_of; by rewrite Hl).
  cbv beta in Hwf. rewrite Hsteps in Hwf.
  destruct (dedupe_score_wf _ _ Hwf) as (q & Hq & Hq0 & Hiff).
  exists q, (dupeOf_list w). unfold stats_of. simpl.
  rewrite Hq. split; [done|]. split; [done|]. intros Hmark.
  destruct (dupeOf_list_spec w) as (Hsound & Hcomplete & _).
  rewrite Hiff. split.
  - intros (e & He & Hgt).
    destruct (dupeOf e) as [d|] eqn:Hd.
    + rewrite <- Hsteps in He. destruct (Hcomplete e d He Hd) as (d' & Hd' & _).
      intros Hnil. rewrite Hnil in Hd'. by apply elem_of_nil in Hd'.
    + pose proof (proj2 Hwf e He) as Hwr. unfold written_entry in Hwr.
      rewrite Hd, Hmark in Hwr. rewrite Hwr in Hgt. done.
  - intros Hne. destruct (dupeOf_list w) as [|d ds] eqn:Hds; [done|].
    destruct (Hsound d) as (e & He & Hd); [by left|].
    exists e. rewrite <- Hsteps. split; [done|].
    rewrite Hsteps in He. pose proof (proj2 Hwf e He) as Hwr.
    unfold written_entry in Hwr. by rewrite Hd in Hwr.
Qed.

(** When [run] returns: the settings are valid, the strategy is
    registered and passes validation (or validation is off), no record and
    no mutated field is named [dedupe], the mutators return on the input
    and no step can make a comparison throw. *)
Lemma run_returns input strat ss rs :
  Settings.action settings ∈ ACTIONS.values →
  Settings.dupeRef settings ∈ DUPEREF.values →
  strategies !! Settings.strategy settings = Some strat →
  steps strat = Some ss →
  (Settings.validateStrategy settings = true → validateStrategy strat = Ok VTrue) →
  Forall (fun ref : record => ref !! "dedupe" = None) input →
  "dedupe" ∉ (default [] (mutators strat)).*1 →
  normalise mutator_registry strat 0 input = Ok rs →
  Forall (never_throws comparisons) ss →
  ∃ out, run comparisons mutator_registry strategies settings input = Ok out.
Proof.
  intros Ha Hd Hstrat Hss Hv Hinput Hmut Hrs Hsteps. unfold run.
  rewrite (run_sweep_unfold _ _ _ _ input strat ss Ha Hd Hstrat Hss Hv), Hrs. simpl.
  pose proof (normalise_steps _ _ _ _ _ Hinput Hmut Hrs) as Hplain.
  destruct (sweep_returns comparisons settings ss 0 None []
              {| refs := rs; calls := 0; pairs := 0 |} Hsteps) as [st Hst];
    [done|done|].
  rewrite Hst. simpl.
  destruct (aggregate_returns (refs st)) as [scored Hscored].
  { by eapply sweep_keeps_steps. }
  rewrite Hscored. simpl.
  assert (0 + length input ≤ length scored)%nat as Hlen.
  { rewrite (proj1 (aggregate_ok _ _ Hscored)).
    apply sweep_identity in Hst. simpl in Hst.
    rewrite <- (length_fmap identity_of (refs st)), Hst, length_fmap.
    by rewrite (length_normalise _ _ _ _ _ Hrs). }
  unfold dispatch.
  destruct (decorate_returns settings (fun r _ => stats_of r) _ _ _ Hlen) as [o1 ->].
  destruct (decorate_returns settings (mark_of settings) _ _ _ Hlen) as [o2 ->].
  destruct (filter_kept_returns settings _ _ _ Hlen) as [ks ->]. simpl.
  repeat destruct (Nat.eqb _ _); by eexists.
Qed.

End RunReturns.

(** ** The Bramer strategy *)

Section Bramer.

Variable jaroWinklerDistance : jsval -> jsval -> result jsscore.
Variable random_draw : nat -> Q.
Variable mutator_registry : string -> option mutator_handler.

Local Abbreviation registry :=
  (Comparisons.builtin jaroWinklerDistance random_draw).

Lemma exact_never_throws fs key : never_throws registry (Strategies.exact_on fs key).
Proof.
  split; [by eexists|]. eexists. split; [reflexivity|]. intros; by eexists.
Qed.

(** The Bramer strategy passes validation, and none of its eight steps can
    make a comparison throw: with it, [run] returns on every input whose
    records have no field named [dedupe] and on which its mutators
    return; under STATS and MARK the output has one record for each record
    of the input. *)
Theorem bramer_runs settings strategies input rs :
  Settings.strategy settings = "bramer" →
  strategies !! "bramer" = Some Strategies.bramer →
  Settings.action settings ∈ ACTIONS.values →
  Settings.dupeRef settings ∈ DUPEREF.values →
  Forall (fun ref : record => ref !! "dedupe" = None) input →
  normalise mutator_registry Strategies.bramer 0 input = Ok rs →
  validateStrategy Strategies.bramer = Ok VTrue
  ∧ ∃ out,
      run registry mutator_registry strategies settings input = Ok out
      ∧ (Settings.action settings ≠ ACTIONS.DELETE → length out = length input).
Proof.
  intros Hname Hstrat Ha Hd Hinput Hrs. split; [reflexivity|].
  destruct (run_returns registry mutator_registry strategies settings input
              Strategies.bramer
              (default [] (steps Strategies.bramer)) rs) as [out Hout]; try done.
  - by rewrite Hname.
  - simpl. intros H. repeat (apply elem_of_cons in H as [H|H]; [done|]).
    by apply elem_of_nil in H.
  - simpl. repeat constructor; apply exact_never_throws.
  - exists out. split; [done|]. intros Hnd.
    unfold run in Hout.
    destruct (run_sweep _ _ _ _ _) as [st|]; [|done]. simpl in Hout.
    destruct (aggregate (refs st)) as [scored|]; [|done]. simpl in Hout.
    unfold dispatch in Hout.
    destruct (Nat.eqb_spec (Settings.action settings) ACTIONS.STATS) as [?|Hns];
      [by apply decorate_ok in Hout as [? _]|].
    destruct (Nat.eqb_spec (Settings.action settings) ACTIONS.MARK) as [?|Hnm];
      [by apply decorate_ok in Hout as [? _]|].
    exfalso. unfold ACTIONS.values in Ha.
    repeat (apply elem_of_cons in Ha as [Ha|Ha]; [done|]).
    by apply elem_of_nil in Ha.
Qed.

End Bramer.

(** ** The scores of STATS *)

Section StatsScores.

Variable comparisons : string -> option comparison_handler.
Variable mutator_registry : string -> option mutator_handler.
Variable strategies : gmap string strategy.
Variable settings : Settings.t.

(** Under STATS every output record carries a score that is a number at or
    above 0, never [NaN]; and, unless [markOriginal] is set, the score is
    above 0 exactly when the record's [dupeOf] list is not empty. *)
Theorem stats_score_is_nonnegative input out :
  Settings.action settings = ACTIONS.STATS →
  run comparisons mutator_registry strategies settings input = Ok out →
  length out = length input
  ∧ ∀ k o,
      out !! k = Some o →
      ∃ q ds,
        o !! Settings.actionField settings = Some (OStats (Num q) ds)
        ∧ (0 <= q)%Q
        ∧ (Settings.markOriginal settings = false → ((0 < q)%Q ↔ ds ≠ [])).
Proof.
  intros Haction Hout.
  destruct (run_stats_records _ _ _ _ _ _ Haction Hout) as [Hlen Hall].
  split; [done|]. intros k o Ho.
  destruct (lookup_lt_is_Some_2 input k) as [ref Hk].
  { rewrite <- Hlen. by eapply lookup_lt_Some. }
  destruct (Hall k ref Hk) as (q & ds & Ho' & Hq & Hiff).
  rewrite Ho' in Ho. injection Ho as <-. exists q, ds.
  by rewrite lookup_insert_eq.
Qed.

End StatsScores.

(** ** The analysis *)

Lemma count_total equals_number refs index st ref st' :
  Analysis.count equals_number refs index st ref = inr st' →
  counted_total st'
  = (counted_total st + if Analysis.counted ref then 1 else 0)%nat.
Proof.
  unfold Analysis.count, Analysis.counted, Analysis.above, Analysis.below,
    Analysis.guarded, counted_total.
  destruct (Analysis.score_of ref) as [e|x]; cbn [Analysis.bind].
  - destruct (Analysis.is_duplicate ref), (Analysis.no_caption ref);
      cbn [Analysis.bind]; try done.
    destruct (Analysis.result_is_dupe ref); [done|]. intros [= <-]. lia.
  - destruct (Analysis.is_duplicate ref), (Analysis.no_caption ref),
      (num_ltb (Num Analysis.threshold) x), (num_ltb x (Num Analysis.threshold));
      cbn [Analysis.bind orb andb];
      try (destruct (Analysis.look_up _ _ _ _) as [e'|[]]; cbn [Analysis.bind]);
      try destruct (Analysis.result_is_dupe ref);
      try done; intros [= <-]; simpl; lia.
Qed.

Lemma tally_from_total equals_number refs rest index st st' :
  Analysis.tally_from equals_number refs rest index st = inr st' →
  counted_total st'
  = (counted_total st + length (List.filter Analysis.counted rest))%nat.
Proof.
  revert index st. induction rest as [|ref rest IH]; intros index st; simpl.
  { intros [= <-]. lia. }
  destruct (Analysis.count _ _ _ _ _) as [e|st1] eqn:Hcount; [done|]. simpl.
  intros Hrest. rewrite (IH _ _ Hrest), (count_total _ _ _ _ _ _ Hcount).
  destruct (Analysis.counted ref); simpl; lia.
Qed.

Lemma ratio_bounds a b : (a ≤ b)%nat → (0 <= Analysis.ratio a b <= 1)%Q.
Proof.
  intros Hab. unfold Analysis.ratio. destruct b as [|b]; [lra|].
  assert (0 < inject_Z (Z.of_nat (S b)))%Q as Hb.
  { change 0%Q with (inject_Z 0). rewrite <- Zlt_Qlt. lia. }
  assert (0 <= inject_Z (Z.of_nat a))%Q as Ha.
  { change 0%Q with (inject_Z 0). rewrite <- Zle_Qle. lia. }
  assert (inject_Z (Z.of_nat a) <= inject_Z (Z.of_nat (S b)))%Q as Hle.
  { rewrite <- Zle_Qle. lia. }
  split.
  - apply Qle_shift_div_l; [done|]. lra.
  - apply Qle_shift_div_r; [done|]. lra.
Qed.

(** On references that all carry the [result] of STATS, nothing in the
    analysis throws. *)
Lemma find_names_returns equals_number index refs :
  Forall (fun ref => ∃ x ds, Analysis.result ref = Some (OStats x ds)) refs →
  Analysis.find_names equals_number index refs = inr tt.
Proof.
  induction 1 as [|ref refs (x & ds & Hres) _ IH]; [done|]. simpl.
  unfold Analysis.names, Analysis.dupeOf_of. rewrite Hres. simpl.
  by destruct (match head ds with Some _ => _ | None => _ end).
Qed.

Lemma count_returns equals_number refs index st ref :
  Forall (fun ref => ∃ x ds, Analysis.result ref = Some (OStats x ds)) refs →
  (∃ x ds, Analysis.result ref = Some (OStats x ds)) →
  ∃ st', Analysis.count equals_number refs index st ref = inr st'.
Proof.
  intros Hrefs (x & ds & Hres).
  unfold Analysis.count, Analysis.above, Analysis.below, Analysis.guarded,
    Analysis.look_up, Analysis.score_of, Analysis.dupeOf_of,
    Analysis.result_is_dupe.
  rewrite Hres, (find_names_returns _ _ _ Hrefs). cbn [Analysis.bind].
  destruct (Analysis.is_duplicate ref), (Analysis.no_caption ref),
    (num_ltb (Num Analysis.threshold) x), (num_ltb x (Num Analysis.threshold));
    cbn [Analysis.bind]; try (by eexists).
  all: destruct (default false (Analysis.refid_truthy <$> head ds)); by eexists.
Qed.

Lemma tally_from_returns equals_number refs rest index st :
  Forall (fun ref => ∃ x ds, Analysis.result ref = Some (OStats x ds)) refs →
  Forall (fun ref => ∃ x ds, Analysis.result ref = Some (OStats x ds)) rest →
  ∃ st', Analysis.tally_from equals_number refs rest index st = inr st'.
Proof.
  intros Hrefs Hrest. revert index st.
  induction Hrest as [|ref rest Href _ IH]; intros index st; simpl; [by eexists|].
  destruct (count_returns equals_number refs index st ref Hrefs Href) as [st1 ->].
  simpl. apply IH.
Qed.

Section AnalysisRun.

Variable comparisons : string -> option comparison_handler.
Variable mutator_registry : string -> option mutator_handler.
Variable strategies : gmap string strategy.

(** What the analysis reads off the output of its run: every reference
    has a [result], whose score is a number at or above 0. *)
Lemma analysis_reads_run strategy input out :
  run comparisons mutator_registry strategies (Analysis.settings strategy) input
  = Ok out →
  length out = length input
  ∧ Forall (fun ref => ∃ q ds, Analysis.result ref = Some (OStats (Num q) ds)
                               ∧ (0 <= q)%Q)
      (Analysis.read <$> out).
Proof.
  intros Hout.
  destruct (run_stats_records _ _ _ (Analysis.settings strategy) _ _ eq_refl Hout)
    as [Hlen Hall].
  split; [done|]. apply Forall_fmap, Forall_lookup. intros k o Ho.
  destruct (lookup_lt_is_Some_2 input k) as [ref Hk].
  { rewrite <- Hlen. by eapply lookup_lt_Some. }
  destruct (Hall k ref Hk) as (q & ds & Ho' & Hq & _).
  rewrite Ho' in Ho. injection Ho as <-. exists q, ds. split; [|done].
  unfold Analysis.read. simpl. apply lookup_insert_eq.
Qed.

End AnalysisRun.

(** The analysis counts a reference at most once, and counts exactly the
    references it can tell duplicate or not (the caption is [Duplicate] or
    empty) whose score lies on one side of the threshold: a reference whose
    score is the threshold is counted in none of the four; accuracy,
    precision and recall lie between 0 and 1.  And over the output of its
    run the analysis does not throw: every reference has a [result], whose
    score is a number at or above 0. *)
Theorem analysis_counts_each_reference_once :
  (∀ equals_number refs st,
     Analysis.tally equals_number refs = inr st →
     counted_total st = length (List.filter Analysis.counted refs)
     ∧ (counted_total st ≤ length refs)%nat
     ∧ (∀ ref, ref ∈ refs →
          Analysis.score_of ref = inr (Num Analysis.threshold) →
          Analysis.counted ref = false)
     ∧ (0 <= Analysis.accuracy st <= 1)%Q
     ∧ (0 <= Analysis.precision st <= 1)%Q
     ∧ (0 <= Analysis.recall st <= 1)%Q)
  ∧ (∀ equals_number comparisons mutator_registry strategies strategy input out,
       run comparisons mutator_registry strategies (Analysis.settings strategy) input
       = Ok out →
       let refs := Analysis.read <$> out in
       length refs = length input
       ∧ Forall (fun ref => ∃ q ds, Analysis.result ref = Some (OStats (Num q) ds)
                                    ∧ (0 <= q)%Q) refs
       ∧ ∃ st, Analysis.tally equals_number refs = inr st).
Proof.
  split.
  - intros equals_number refs st Htally.
    pose proof (tally_from_total _ _ _ _ _ _ Htally) as Htotal.
    change (counted_total
              {| Analysis.nonDupeCorrect := 0; Analysis.nonDupeWrong := 0;
                 Analysis.dupeCorrect := 0; Analysis.dupeWrong := 0 |})
      with 0%nat in Htotal.
    split; [by rewrite Htotal|]. split.
    { rewrite Htotal. pose proof (filter_length Analysis.counted refs). lia. }
    split.
    { intros ref _ Hscore. unfold Analysis.counted. rewrite Hscore. simpl.
      replace (Qle_bool Analysis.threshold Analysis.threshold) with true; [|done].
      by rewrite andb_false_r. }
    unfold Analysis.accuracy, Analysis.precision, Analysis.recall.
    repeat split; apply ratio_bounds; lia.
  - intros equals_number comparisons mutator_registry strategies strategy input out
      Hout refs.
    destruct (analysis_reads_run _ _ _ _ _ _ Hout) as [Hlen Hall].
    split; [subst refs; by rewrite length_fmap|]. split; [done|].
    apply tally_from_returns;
      (eapply Forall_impl; [exact Hall|]; intros ref (q & ds & Hres & _); by eexists _, _).
Qed.

(** ** [deburr] *)

(** The letters of the table are at or above 192, and what the table puts
    in their place is below 128. *)
Lemma deburredLetters_codes :
  Forall (fun row : string * list N =>
            Forall (fun c => (192 <= c)%N) row.2
            ∧ Forall (fun d => (d < 128)%N) (lit row.1))
    Mutators.deburredLetters.
Proof.
  apply Forall_forall. intros row Hrow.
  repeat (apply elem_of_cons in Hrow as [->|Hrow];
          [split; apply Forall_forall; intros c Hc;
           repeat (apply elem_of_cons in Hc as [->|Hc]; [vm_compute; congruence|]);
           by apply elem_of_nil in Hc|]).
  by apply elem_of_nil in Hrow.
Qed.

Lemma deburrLetter_cases c :
  Mutators.deburrLetter c = [c]
  ∨ ((192 <= c)%N ∧ Forall (fun d => (d < 128)%N) (Mutators.deburrLetter c)).
Proof.
  unfold Mutators.deburrLetter.
  destruct (find _ _) as [row|] eqn:Hfind; [right|by left].
  apply find_some in Hfind as [Hrow Hc].
  apply list_elem_of_In in Hrow.
  pose proof deburredLetters_codes as Hcodes.
  rewrite Forall_forall in Hcodes. destruct (Hcodes row Hrow) as [Hfrom Hto].
  split; [|exact Hto].
  apply existsb_exists in Hc as (c' & Hin & Heq).
  apply N.eqb_eq in Heq as <-.
  rewrite Forall_forall in Hfrom. apply Hfrom. by apply list_elem_of_In.
Qed.

Lemma deburrLetter_low c : (c < 192)%N → Mutators.deburrLetter c = [c].
Proof.
  intros Hc. destruct (deburrLetter_cases c) as [H|[H _]]; [exact H|lia].
Qed.

Lemma is_combo_mark_low c : (c < 192)%N → Mutators.is_combo_mark c = false.
Proof.
  intros Hc. unfold Mutators.is_combo_mark.
  repeat (apply orb_false_intro); apply andb_false_iff; left; apply N.leb_gt; lia.
Qed.

Lemma deburr_units_app s t : deburr_units (s ++ t) = deburr_units s ++ deburr_units t.
Proof.
  unfold deburr_units. by rewrite flat_map_app, List.filter_app.
Qed.

Lemma deburr_units_fixed s :
  Forall (fun c => Mutators.deburrLetter c = [c] ∧ Mutators.is_combo_mark c = false) s →
  deburr_units s = s.
Proof.
  induction 1 as [|c s [Hl Hm] _ IH]; [reflexivity|].
  change (c :: s) with ([c] ++ s). rewrite deburr_units_app, IH. f_equal.
  unfold deburr_units. cbn [flat_map]. rewrite Hl. cbn. by rewrite Hm.
Qed.

Lemma deburr_units_stable s :
  Forall (fun c => Mutators.deburrLetter c = [c] ∧ Mutators.is_combo_mark c = false)
    (deburr_units s).
Proof.
  induction s as [|c s IH]; [constructor|].
  change (c :: s) with ([c] ++ s). rewrite deburr_units_app.
  apply Forall_app. split; [|exact IH].
  unfold deburr_units. cbn [flat_map]. rewrite app_nil_r.
  apply Forall_forall. intros d Hd.
  apply list_elem_of_In, filter_In in Hd as [Hd Hmark].
  apply negb_true_iff in Hmark. split; [|exact Hmark].
  destruct (deburrLetter_cases c) as [Heq|[_ Hlow]].
  - rewrite Heq in Hd. destruct Hd as [<-|[]]. exact Heq.
  - rewrite Forall_forall in Hlow. apply deburrLetter_low.
    apply list_elem_of_In in Hd. specialize (Hlow d Hd). lia.
Qed.

(** [deburr] always returns a string; the string holds no combining mark
    and no letter of the table, so [deburr] leaves it as it is; and a
    string of code units below 192 (ASCII among them) comes back
    unchanged. *)
Theorem deburr_is_idempotent v :
  ∃ t,
    Mutators.deburr v = Ok (FStr t)
    ∧ Forall (fun c => Mutators.is_combo_mark c = false
                       ∧ Mutators.deburrLetter c = [c]) t
    ∧ Mutators.deburr (FStr t) = Ok (FStr t)
    ∧ (∀ s, v = FStr s → Forall (fun c => (c < 192)%N) s → t = s).
Proof.
  exists (deburr_units (to_string v)).
  pose proof (deburr_units_stable (to_string v)) as Hstable.
  split; [reflexivity|]. split; [|split].
  - eapply Forall_impl; [exact Hstable|]. by intros c [? ?].
  - unfold Mutators.deburr. cbn [to_string].
    change (List.filter _ (flat_map _ ?s)) with (deburr_units s).
    by rewrite (deburr_units_fixed _ Hstable).
  - intros s -> Hs. cbn [to_string]. apply deburr_units_fixed.
    eapply Forall_impl; [exact Hs|]. intros c Hc. cbv beta in Hc.
    split; [by apply deburrLetter_low|by apply is_combo_mark_low].
Qed.

(** ** The score under MINIMUM *)

Section MinimumBound.

Variable comparisons : string -> option comparison_handler.
Variable settings : Settings.t.

Hypothesis minimum : Settings.fieldWeight settings = FIELDWEIGHT.MINIMUM.

Lemma score_lt_bounded x y m :
  score_lt x y = true → to_number y = Num m → (m <= 1)%Q →
  ∃ q, to_number x = Num q ∧ (q <= 1)%Q.
Proof.
  unfold score_lt. intros Hlt Hy Hm. rewrite Hy in Hlt.
  destruct (to_number x) as [q|]; [|done]. exists q. split; [done|].
  simpl in Hlt. apply negb_true_iff in Hlt.
  destruct (Qlt_le_dec q m) as [?|Hle]; [lra|].
  apply Qle_bool_iff in Hle. congruence.
Qed.

Lemma min_over_bounded cs a b s fs least x cs' :
  min_over comparisons cs a b s fs least = Ok (x, cs') →
  (∃ m, to_number least = Num m ∧ (m <= 1)%Q) →
  ∃ q, to_number x = Num q ∧ (q <= 1)%Q.
Proof.
  revert cs least. induction fs as [|f fs IH]; intros cs least; simpl.
  { by intros [= <- <-]. }
  destruct (field_score _ _ _ _ _ _) as [[y cs1]|]; [|done]. simpl.
  intros Hrest (m & Hm & Hm1). apply (IH _ _ Hrest).
  destruct (score_lt y least) eqn:Hlt; [|by exists m].
  by eapply score_lt_bounded.
Qed.

Lemma compareViaStep_bounded cs a b s x cs' :
  compareViaStep comparisons settings cs a b s = Ok (x, cs') →
  ∃ q, to_number x = Num q ∧ (q <= 1)%Q.
Proof.
  unfold compareViaStep, compareViaStepMin. rewrite minimum. simpl.
  destruct (fields s) as [fs|]; [|done].
  intros H. apply (min_over_bounded _ _ _ _ _ _ _ _ H).
  exists 1%Q. split; [done|lra].
Qed.

Lemma steps_bounded_set_entry rs pos k v :
  (∃ q, to_number (score v) = Num q ∧ (q <= 1)%Q) →
  Forall (fun w => steps_bounded (steps_of w)) rs →
  Forall (fun w => steps_bounded (steps_of w)) (set_entry rs pos k v).
Proof.
  intros Hv Hrs. unfold set_entry. apply Forall_lookup. intros j w.
  destruct (decide (pos = j)) as [<-|Hne].
  - rewrite list_lookup_alter_eq. destruct (rs !! pos) as [w0|] eqn:Hw0; [|done].
    intros [= <-]. unfold steps_of at 1. simpl.
    pose proof (proj1 (Forall_lookup _ _) Hrs _ _ Hw0) as Hall.
    intros e [->|He]%elem_of_sparse_set; [done|by apply Hall].
  - rewrite list_lookup_alter_ne by done. intros Hw.
    by eapply (proj1 (Forall_lookup _ _) Hrs).
Qed.

Lemma scan_pair_bounded s stepIndex sortedRefs st i n st' same :
  scan_pair comparisons settings s stepIndex sortedRefs st i n = Ok (st', same) →
  Forall (fun w => steps_bounded (steps_of w)) (refs st) →
  Forall (fun w => steps_bounded (steps_of w)) (refs st').
Proof.
  intros Hpair Hrs.
  destruct (scan_pair_refs _ _ _ _ _ _ _ _ _ _ Hpair)
    as (pi & a & pn & b & x & _ & _ & _ & _ & Hcmp & _ & Hcases).
  apply compareViaStep_bounded in Hcmp.
  destruct Hcases as [[_ ->]|(_ & _ & _ & rs1 & Hrs1 & Hrs2)]; [done|].
  assert (Forall (fun w => steps_bounded (steps_of w)) rs1) as Hb1.
  { destruct Hrs1 as [->|[_ ->]]; [done|]. apply steps_bounded_set_entry; [|done].
    unfold anchor_entry. simpl.
    destruct (Settings.markOriginal settings); [done|].
    exists 0%Q. split; [done|lra]. }
  destruct Hrs2 as [[-> _]|[-> _]]; [done|].
  by apply steps_bounded_set_entry.
Qed.

Lemma scan_bounded s stepIndex sortedRefs st i n st' :
  scan comparisons settings s stepIndex sortedRefs st i n = Ok st' →
  Forall (fun w => steps_bounded (steps_of w)) (refs st) →
  Forall (fun w => steps_bounded (steps_of w)) (refs st').
Proof.
  intros Hscan Hrs.
  destruct (scan_invariant comparisons settings s stepIndex sortedRefs
              (fun cur _ _ => Forall (fun w => steps_bounded (steps_of w)) (refs cur)))
    with (st := st) (i := i) (n := n) (st' := st') as (_ & _ & H & _); try done.
  intros cur i0 n0 cur' same Hcur _ Hpair. by eapply scan_pair_bounded.
Qed.

Lemma sweep_bounded ss stepIndex sortedBy sortedRefs st st' :
  sweep comparisons settings ss stepIndex sortedBy sortedRefs st = Ok st' →
  Forall (fun w => steps_bounded (steps_of w)) (refs st) →
  Forall (fun w => steps_bounded (steps_of w)) (refs st').
Proof.
  revert stepIndex sortedBy sortedRefs st.
  induction ss as [|s ss IH]; intros stepIndex sortedBy sortedRefs st; simpl.
  { by intros [= <-]. }
  destruct (scan _ _ _ _ _ _ _ _) as [st1|e] eqn:Hscan; [|done]. simpl.
  intros Hrest Hsteps. eapply IH; [done|]. by eapply scan_bounded.
Qed.

End MinimumBound.

(** What [_.sum] makes of scores that are numbers at or below 1: a number
    that is at most, for every score, one more than where it starts. *)
Lemma sum_bounded (xs : list (option jsscore)) (res : option jsscore) (q0 : Q) :
  (∀ c, Some c ∈ xs → ∃ q, to_number c = Num q ∧ (q <= 1)%Q) →
  match res with
  | Some r => to_number r = Num q0
  | None => (0 <= q0)%Q
  end →
  ∀ r',
    fold_left
      (fun res current =>
         match current, res with
         | None, _ => res
         | Some c, None => Some c
         | Some c, Some r => Some (SNum (num_add (to_number r) (to_number c)))
         end) xs res = Some r' →
    ∃ q', to_number r' = Num q'
          ∧ (q' <= q0 + inject_Z (Z.of_nat (length xs)))%Q.
Proof.
  revert res q0. induction xs as [|[c|] xs IH]; intros res q0 Hxs Hres r'; simpl.
  - intros ->. exists q0. split; [done|]. change (inject_Z (Z.of_nat 0)) with 0%Q. lra.
  - destruct (Hxs c) as (qc & Hqc & Hqc1); [by left|].
    assert (∀ c', Some c' ∈ xs → ∃ q, to_number c' = Num q ∧ (q <= 1)%Q) as Hxs'.
    { intros c' Hc'. apply Hxs. by right. }
    assert (inject_Z (Z.of_nat (S (length xs)))
            == 1 + inject_Z (Z.of_nat (length xs)))%Q as Hlen.
    { rewrite Nat2Z.inj_succ, <- Z.add_1_l, inject_Z_plus. reflexivity. }
    destruct res as [r|].
    + intros Hfold.
      destruct (IH (Some (SNum (num_add (to_number r) (to_number c)))) (q0 + qc)%Q
                  Hxs') with (r' := r') as (q' & Hq' & Hle).
      { simpl. by rewrite Hres, Hqc. }
      { exact Hfold. }
      exists q'. split; [done|]. rewrite Hlen. lra.
    + intros Hfold.
      destruct (IH (Some c) qc Hxs' Hqc r' Hfold) as (q' & Hq' & Hle).
      exists q'. split; [done|]. rewrite Hlen. lra.
  - assert (∀ c', Some c' ∈ xs → ∃ q, to_number c' = Num q ∧ (q <= 1)%Q) as Hxs'.
    { intros c' Hc'. apply Hxs. by right. }
    assert (inject_Z (Z.of_nat (S (length xs)))
            == 1 + inject_Z (Z.of_nat (length xs)))%Q as Hlen.
    { rewrite Nat2Z.inj_succ, <- Z.add_1_l, inject_Z_plus. reflexivity. }
    intros Hfold. destruct (IH res q0 Hxs' Hres r' Hfold) as (q' & Hq' & Hle).
    exists q'. split; [done|]. rewrite Hlen. lra.
Qed.

Lemma dedupe_score_bounded l q :
  steps_bounded l → dedupe_score l = Num q → (q <= 1)%Q.
Proof.
  intros Hall. destruct l as [|o l].
  { simpl. intros [= <-]. lra. }
  unfold dedupe_score, sum.
  pose proof (sum_bounded (map (fmap score) (o :: l)) None 0) as Hsum.
  destruct (fold_left _ _ None) as [x|]; [|done].
  destruct (Hsum) with (r' := x) as (q' & Hq' & Hle); [| |done|].
  { intros c (o' & Hc & Ho')%list_elem_of_fmap. destruct o' as [e|]; [|done].
    injection Hc as ->. by apply Hall. }
  { lra. }
  rewrite Hq'. simpl. intros [= <-].
  rewrite length_map in Hle. cbn [length] in Hle.
  assert (0 < inject_Z (Z.of_nat (S (length l))))%Q as Hlen.
  { change 0%Q with (inject_Z 0). rewrite <- Zlt_Qlt. lia. }
  apply Qle_shift_div_r; [done|]. lra.
Qed.

Section MinimumRun.

Variable comparisons : string -> option comparison_handler.
Variable mutator_registry : string -> option mutator_handler.
Variable strategies : gmap string strategy.
Variable settings : Settings.t.

Lemma run_sweep_bounded input st :
  Settings.fieldWeight settings = FIELDWEIGHT.MINIMUM →
  run_sweep comparisons mutator_registry strategies settings input = Ok st →
  Forall (fun w => steps_bounded (steps_of w)) (refs st).
Proof.
  intros Hmin. unfold run_sweep.
  destruct (check_settings _); [|done]. simpl.
  destruct (check_strategy _ _) as [[strat ss]|]; [|done]. simpl.
  destruct (validate _ _); [|done]. simpl.
  destruct (normalise _ _ _ _) as [rs|] eqn:Hrs; [|done]. simpl.
  intros Hsweep. eapply sweep_bounded; [done|done|]. simpl.
  eapply Forall_impl; [by eapply normalise_fresh|].
  intros w ->. intros e He. by apply elem_of_nil in He.
Qed.

(** Under MINIMUM the score that STATS reports lies between 0 and 1,
    whatever the comparison handlers return: a step's minimum starts at 1
    and only goes down, and only a score above 0 is written. *)
Theorem minimum_score_is_between_0_and_1 input out :
  Settings.fieldWeight settings = FIELDWEIGHT.MINIMUM →
  Settings.action settings = ACTIONS.STATS →
  run comparisons mutator_registry strategies settings input = Ok out →
  ∀ k o,
    out !! k = Some o →
    ∃ q ds,
      o !! Settings.actionField settings = Some (OStats (Num q) ds)
      ∧ (0 <= q <= 1)%Q.
Proof.
  intros Hmin Haction Hout k o Ho.
  destruct (run_stats_records _ _ _ _ _ _ Haction Hout) as [Hlen Hall].
  destruct (lookup_lt_is_Some_2 input k) as [ref Hk].
  { rewrite <- Hlen. by eapply lookup_lt_Some. }
  destruct (Hall k ref Hk) as (q & ds & Ho' & Hq & _).
  rewrite Ho' in Ho. injection Ho as <-. exists q, ds.
  rewrite lookup_insert_eq. split; [done|]. split; [done|].
  revert Hout Ho'. unfold run.
  destruct (run_sweep _ _ _ _ _) as [st|] eqn:Hst; [|done]. simpl.
  destruct (aggregate (refs st)) as [scored|] eqn:Hscored; [|done]. simpl.
  unfold dispatch. rewrite Haction. simpl. intros Hout Ho'.
  destruct (decorate_ok _ _ _ _ _ _ Hout) as [_ Hdec].
  destruct (Hdec _ _ Hk) as (r & Hr & Ho''). simpl in Hr.
  destruct (aggregate_ok _ _ Hscored) as [Hlen' Hagg].
  destruct (lookup_lt_is_Some_2 (refs st) k) as [w Hw].
  { rewrite <- Hlen'. by eapply lookup_lt_Some. }
  destruct (Hagg _ _ Hw) as (l & Hl & Hr'). rewrite Hr' in Hr. injection Hr as <-.
  pose proof (proj1 (Forall_lookup _ _) (run_sweep_bounded _ _ Hmin Hst) _ _ Hw) as Hb.
  assert (steps_of w = l) as Hsteps by (unfold steps_of; by rewrite Hl).
  cbv beta in Hb. rewrite Hsteps in Hb.
  rewrite Ho'' in Ho'. injection Ho' as Heq.
  apply (f_equal (fun m => m !! Settings.actionField settings)) in Heq.
  rewrite !lookup_insert_eq in Heq. unfold stats_of in Heq. simpl in Heq.
  injection Heq as Hscore _.
  by eapply dedupe_score_bounded.
Qed.

End MinimumRun.

(** ** The registry of the source *)

(** [Dedupe.mutators] holds the handlers of [Mutators.builtin] under their
    names, so what [run] returns with the latter it returns with the
    former. *)
Lemma mutators_extends_builtin up lo ua name h :
  Mutators.builtin name = Some h → Dedupe.mutators up lo ua name = Some h.
Proof.
  unfold Dedupe.mutators. intros Hb.
  repeat match goal with
         | |- context [String.eqb name ?x] =>
             destruct (String.eqb_spec name x) as [->|_];
             [vm_compute in Hb; discriminate Hb|]
         end.
  exact Hb.
Qed.

Section Registries.

Variable small large : string -> option mutator_handler.
Hypothesis extends : ∀ name h, small name = Some h → large name = Some h.

Lemma reduce_mutators_extends names value original v :
  reduce_mutators small names value original = Ok v →
  reduce_mutators large names value original = Ok v.
Proof.
  revert value. induction names as [|name names IH]; intros value; simpl; [done|].
  destruct (small name) as [h|] eqn:Hsmall; [|done].
  rewrite (extends _ _ Hsmall).
  destruct (h value (Some original)) as [value'|]; [|done]. simpl. apply IH.
Qed.

Lemma mapValues_extends ms original mutated :
  mapValues small ms original = Ok mutated →
  mapValues large ms original = Ok mutated.
Proof.
  revert mutated. induction ms as [|[field spec] ms IH]; intros mutated; simpl; [done|].
  destruct (reduce_mutators small _ _ _) as [v|] eqn:Hv; [|done].
  rewrite (reduce_mutators_extends _ _ _ _ Hv). simpl.
  destruct (mapValues small ms original) as [rest|] eqn:Hrest; [|done].
  by rewrite (IH rest eq_refl).
Qed.

Lemma normalise_extends strat index input rs :
  normalise small strat index input = Ok rs →
  normalise large strat index input = Ok rs.
Proof.
  revert index rs. induction input as [|original input IH]; intros index rs; simpl;
    [done|].
  unfold working.
  destruct (mapValues small _ original) as [mutated|] eqn:Hm; [|done].
  rewrite (mapValues_extends _ _ _ Hm). simpl.
  destruct (normalise small strat (S index) input) as [ws|] eqn:Hws; [|done].
  by rewrite (IH _ _ Hws).
Qed.

Lemma run_extends comparisons strategies settings input out :
  run comparisons small strategies settings input = Ok out →
  run comparisons large strategies settings input = Ok out.
Proof.
  unfold run, run_sweep.
  destruct (check_settings _); [|done]. simpl.
  destruct (check_strategy _ _) as [[strat ss]|]; [|done]. simpl.
  destruct (validate _ _); [|done]. simpl.
  destruct (normalise small _ _ _) as [rs|] eqn:Hrs; [|done].
  by rewrite (normalise_extends _ _ _ _ Hrs).
Qed.

End Registries.

(** The expectations of the repository's tests for [authorRewrite],
    [authorRewriteSingle], [noCase], [removeEnclosingBrackets] and
    [stripHtmlTags] hold, and each of the five is registered under its
    name. *)
Theorem author_mutators_pass_the_tests up lo ua :
  let through name (v : string) :=
    h ← default (Throw TypeError) (Ok <$> Dedupe.mutators up lo ua name);
    h (FStr (lit v)) None in
  let gives (r : result fieldval) (v : string) := r = Ok (FStr (lit v)) in
  gives (through "authorRewrite" "Bill Gates") "B. Gates"
  ∧ gives (through "authorRewrite" "William Henry Gates") "W. Gates"
  ∧ gives (through "authorRewrite" "Bill Gates, Steven Anthony Balmer")
      "B. Gates, S. Balmer"
  ∧ gives (through "authorRewrite" "B Gates, S Balmer") "B. Gates, S. Balmer"
  ∧ gives (through "authorRewrite" "Gates B., Balmer S.") "B. Gates, S. Balmer"
  ∧ gives (through "authorRewrite" "Gates B, Balmer S") "B. Gates, S. Balmer"
  ∧ gives (through "authorRewrite" "Gates BH, Balmer SF") "B. Gates, S. Balmer"
  ∧ gives (through "authorRewrite" "W H Gates, S F Balmer") "W. Gates, S. Balmer"
  ∧ gives (through "authorRewrite" "William Henry Gates, Steven F. Balmer")
      "W. Gates, S. Balmer"
  ∧ gives (through "authorRewrite" "Gates, B; Balmer S") "B. Gates, S. Balmer"
  ∧ gives (through "authorRewrite" "Gates, Bill; Balmer Steven")
      "B. Gates, S. Balmer"
  ∧ gives (through "authorRewrite" "Gates, B. H; Balmer S F.")
      "B. Gates, S. Balmer"
  ∧ gives (through "authorRewrite" "Gates, B. H.; Balmer S. F.")
      "B. Gates, S. Balmer"
  ∧ gives (through "authorRewriteSingle" "Bill Gates") "B. Gates"
  ∧ gives (through "authorRewriteSingle" "William Henry Gates") "W. Gates"
  ∧ gives (through "authorRewriteSingle" "B Gates") "B. Gates"
  ∧ gives (through "authorRewriteSingle" "Gates B.") "B. Gates"
  ∧ gives (through "authorRewriteSingle" "Gates B") "B. Gates"
  ∧ gives (through "authorRewriteSingle" "Gates BH") "B. Gates"
  ∧ gives (through "authorRewriteSingle" "W H Gates") "W. Gates"
  ∧ gives (through "authorRewriteSingle" "Gates, B") "B. Gates"
  ∧ gives (through "authorRewriteSingle" "Gates, Bill") "B. Gates"
  ∧ gives (through "authorRewriteSingle" "Gates, B. H") "B. Gates"
  ∧ gives (through "authorRewriteSingle" "Gates, B. H.") "B. Gates"
  ∧ gives (through "authorRewriteSingle" "Gates, B. H. M") "B. Gates"
  ∧ gives (through "authorRewriteSingle" "De Arruda, L. H. F") "L. De Arruda"
  ∧ gives (through "authorRewriteSingle" "de Arruda, L. H. F") "L. De Arruda"
  ∧ gives (through "noCase" "Hello World") "hello world"
  ∧ gives (through "removeEnclosingBrackets" "(One)") "One"
  ∧ gives (through "stripHtmlTags" "CO<sup>2</sup>") "CO2".
Proof.
  intros through gives. unfold through, gives.
  repeat split; vm_compute; reflexivity.
Qed.

(** ** Instances *)



(** The Bramer strategy over one paper as two libraries hold it, with the
    mutators of the source: whatever the case mappings beyond ASCII and the
    symbol splitting are (the input does not reach them), the strategy's
    mutators return; the strategy is valid and the run returns two
    records. *)
Lemma bramer_runs_witness :
  let input := [Examples.gates_a; Examples.gates_b] in
  ∃ rs,
    (∀ up lo ua,
       normalise (Dedupe.mutators up lo ua) Strategies.bramer 0 input = Ok rs)
    ∧ validateStrategy Strategies.bramer = Ok VTrue
    ∧ ∃ out,
        run Examples.registry Examples.mutators Examples.bramer_catalog
          Examples.with_bramer input = Ok out
        ∧ (ACTIONS.STATS ≠ ACTIONS.DELETE → length out = 2%nat).
Proof.
  intros input. eexists. split.
  { intros up lo ua. vm_compute. reflexivity. }
  refine (bramer_runs (fun _ _ => Ok (SNum (Num 0))) (fun _ => 0%Q)
            Examples.mutators Examples.with_bramer Examples.bramer_catalog
            input _ _ _ _ _ _ _).
  - reflexivity.
  - vm_compute. reflexivity.
  - apply list_elem_of_here.
  - apply list_elem_of_here.
  - repeat constructor; vm_compute; reflexivity.
  - vm_compute. reflexivity.
Defined.

(** Under MARK with the threshold at 1/2, the second paper, whose final
    score is 1/2, is marked as a duplicate. *)
Lemma threshold_is_inclusive_witness :
  ∃ out,
    run Examples.registry Mutators.builtin Examples.catalog Examples.marking
      [Examples.paper_a; Examples.paper_b] = Ok out
    ∧ out !! 1%nat
      = Some (<["dedupe" := OMark (lit "DUPE")]> (spread Examples.paper_b)).
Proof.
  eexists. split; [vm_compute; reflexivity|].
  refine (proj1 (threshold_is_inclusive Examples.registry Mutators.builtin
                   Examples.catalog Examples.marking
                   [Examples.paper_a; Examples.paper_b] _ _ 1%nat _ _
                   Examples.paper_b (1 # 2) _ _ _ _ _ _ _) eq_refl).
  - vm_compute. reflexivity.
  - vm_compute. reflexivity.
  - vm_compute. reflexivity.
  - reflexivity.
  - reflexivity.
  - vm_compute. reflexivity.
  - reflexivity.
Defined.

(** The default settings and the two-step strategy on the empty input. *)
Lemma run_on_empty_input_witness :
  run_sweep Examples.registry Mutators.builtin Examples.catalog Settings.default []
  = Ok {| refs := []; calls := 0; pairs := 0 |}
  ∧ run Examples.registry Mutators.builtin Examples.catalog Settings.default []
    = Ok [].
Proof.
  refine (run_on_empty_input Examples.registry Mutators.builtin Examples.catalog
            Settings.default Examples.doi_then_title _ _ _ _ _ _).
  - apply list_elem_of_here.
  - apply list_elem_of_here.
  - vm_compute. reflexivity.
  - reflexivity.
  - intros _. vm_compute. reflexivity.
Defined.

(** The default settings (STATS) on the two papers: the run returns, and
    its output lists the two papers in the order of the input. *)
Lemma run_keeps_order_witness :
  ∃ out,
    run Examples.registry Mutators.builtin Examples.catalog Settings.default
      [Examples.paper_a; Examples.paper_b] = Ok out
    ∧ length out = 2%nat
    ∧ ∀ k ref,
        [Examples.paper_a; Examples.paper_b] !! k = Some ref →
        ∃ v, out !! k = Some (<["dedupe" := v]> (spread ref)).
Proof.
  pose proof (run_keeps_order Examples.registry Mutators.builtin Examples.catalog
                Settings.default [Examples.paper_a; Examples.paper_b])
    as [Hshape Hreturns].
  edestruct (Hreturns Examples.doi_then_title)
    as [out Hout].
  - apply list_elem_of_here.
  - apply list_elem_of_here.
  - vm_compute. reflexivity.
  - reflexivity.
  - intros _. vm_compute. reflexivity.
  - repeat constructor; vm_compute; reflexivity.
  - apply not_elem_of_cons. split; [discriminate|apply not_elem_of_nil].
  - vm_compute. reflexivity.
  - repeat constructor; try (by eexists).
    all: eexists; split; [reflexivity|]; intros; by eexists.
  - exists out. split; [exact Hout|]. apply (Hshape out Hout). by left.
Defined.
(** The default settings with a strategy whose list of steps is empty: the
    run throws the error that lists what validation found. *)
Lemma run_reports_validation_errors_witness :
  ∃ errs,
    errs ≠ []
    ∧ validateStrategy Examples.stepless = Ok (VErrors errs)
    ∧ run Examples.registry Mutators.builtin Examples.stepless_catalog
        Settings.default [Examples.paper_a]
      = Throw (Error ("Invalid strategy - " +:+ String.concat ", " errs)).
Proof.
  refine (run_reports_validation_errors Examples.registry Mutators.builtin
            Examples.stepless_catalog Settings.default Examples.stepless []
            [Examples.paper_a] _ _ _ _ _ _).
  - apply list_elem_of_here.
  - apply list_elem_of_here.
  - vm_compute. reflexivity.
  - reflexivity.
  - reflexivity.
  - intros (_ & _ & _ & s0 & ss & Hsteps & _). discriminate Hsteps.
Defined.

(** One paper under the two-step strategy: no pair is compared, and the
    paper comes back with a score of 0. *)
Lemma nothing_to_compare_witness :
  ∃ rs,
    normalise Mutators.builtin Examples.doi_then_title 0 [Examples.paper_a] = Ok rs
    ∧ run_sweep Examples.registry Mutators.builtin Examples.catalog
        Settings.default [Examples.paper_a]
      = Ok {| refs := rs; calls := 0; pairs := 0 |}
    ∧ run Examples.registry Mutators.builtin Examples.catalog
        Settings.default [Examples.paper_a]
      = Ok [<["dedupe" := OStats (Num 0) []]> (spread Examples.paper_a)].
Proof.
  eexists. split; [vm_compute; reflexivity|].
  epose proof (nothing_to_compare Examples.registry Mutators.builtin
                 Examples.catalog Settings.default Examples.doi_then_title
                 _ [Examples.paper_a] _
                 (list_elem_of_here _ _) (list_elem_of_here _ _)) as H.
  destruct H as [Hsweep Hrun].
  - vm_compute. reflexivity.
  - reflexivity.
  - intros _. vm_compute. reflexivity.
  - vm_compute. reflexivity.
  - left. simpl. lia.
  - split; [exact Hsweep|]. apply Hrun.
    + reflexivity.
    + repeat constructor; vm_compute; reflexivity.
    + apply not_elem_of_cons. split; [discriminate|apply not_elem_of_nil].
Defined.

(** A reference with a field named [dedupe], next to a paper, under the
    default settings: the run throws a TypeError. *)
Lemma run_throws_on_dedupe_field_witness :
  run Examples.registry Mutators.builtin Examples.catalog Settings.default
    [Examples.paper_a; Examples.tagged] = Throw TypeError.
Proof.
  refine (run_throws_on_dedupe_field Examples.registry Mutators.builtin
            Examples.catalog Settings.default Examples.doi_then_title
            _ [Examples.paper_a; Examples.tagged] _ Examples.tagged
            _ _ _ _ _ _ _ _ _).
  - apply list_elem_of_here.
  - apply list_elem_of_here.
  - vm_compute. reflexivity.
  - reflexivity.
  - intros _. vm_compute. reflexivity.
  - vm_compute. reflexivity.
  - repeat constructor; try (by eexists).
    all: eexists; split; [reflexivity|]; intros; by eexists.
  - apply list_elem_of_further, list_elem_of_here.
  - eexists. vm_compute. reflexivity.
Defined.

(** The two papers under the default settings: what MARK and DELETE return
    is read off the scores that STATS returns. *)
Lemma mark_and_delete_follow_stats_witness :
  ∃ outS,
    run Examples.registry Mutators.builtin Examples.catalog Settings.default
      [Examples.paper_a; Examples.paper_b] = Ok outS
    ∧ ∃ qs,
        Forall2 (fun (o : outrecord) q =>
                   ∃ ds, o !! "dedupe" = Some (OStats (Num q) ds)) outS qs
        ∧ run Examples.registry Mutators.builtin Examples.catalog
            (set_action ACTIONS.MARK Settings.default)
            [Examples.paper_a; Examples.paper_b]
          = Ok (zip_with (marked Settings.default)
                  [Examples.paper_a; Examples.paper_b] qs)
        ∧ run Examples.registry Mutators.builtin Examples.catalog
            (set_action ACTIONS.DELETE Settings.default)
            [Examples.paper_a; Examples.paper_b]
          = Ok (map spread (below_threshold Settings.default
                              [Examples.paper_a; Examples.paper_b] qs)).
Proof.
  eexists. split; [vm_compute; reflexivity|].
  refine (mark_and_delete_follow_stats Examples.registry Mutators.builtin
            Examples.catalog Settings.default
            [Examples.paper_a; Examples.paper_b] _ _ _).
  - reflexivity.
  - vm_compute. reflexivity.
Defined.

(** A step over title and year, and two references that agree on the title
    and have no year: the minimum over the fields is 0. *)
Lemma omitted_field_is_no_duplicate_witness :
  let a := Examples.plain 0 Examples.paper_a in
  let b := Examples.plain 1 Examples.paper_b in
  ∃ x cs',
    compareViaStepMin Examples.registry 0 a b Examples.title_and_year = Ok (x, cs')
    ∧ score_gt x (SNum (Num 0)) = false.
Proof.
  intros a b. eexists _, _. split; [vm_compute; reflexivity|].
  refine (omitted_field_is_no_duplicate Examples.registry 0 a b
            Examples.title_and_year ["title"; "year"] "year" _ _ _ _ _ _ _).
  - reflexivity.
  - apply list_elem_of_further, list_elem_of_here.
  - reflexivity.
  - left. vm_compute. reflexivity.
  - vm_compute. reflexivity.
Defined.

(** Three references sorted by title: the result is a permutation of the
    indices, in the order of the titles. *)
Lemma sortBy_sorts_witness :
  let rs := [Examples.plain 0 Examples.gamma; Examples.plain 1 Examples.alpha;
             Examples.plain 2 Examples.beta] in
  let key := Some (SortField "title") in
  Lodash.sortBy rs key ≡ₚ seq 0 3
  ∧ ∀ i j p q a b,
      (i < j)%nat →
      Lodash.sortBy rs key !! i = Some p →
      Lodash.sortBy rs key !! j = Some q →
      rs !! p = Some a → rs !! q = Some b →
      sorts_before (Lodash.criteria key a) (Lodash.criteria key b) p q.
Proof.
  intros rs key. refine (sortBy_sorts rs key _).
  intros w w' Hw Hw'.
  repeat (apply elem_of_cons in Hw as [->|Hw]);
    try (by apply elem_of_nil in Hw);
    repeat (apply elem_of_cons in Hw' as [->|Hw']);
    try (by apply elem_of_nil in Hw');
    repeat constructor; intros H; vm_compute in H |- *;
    (discriminate H || reflexivity).
Defined.

(** A bare DOI becomes a URL under https://doi.org/, and rewriting that
    URL again changes nothing. *)
Lemma doiRewrite_gives_https_witness :
  let out := FStr (lit "https://doi.org/10.1000/182") in
  (out = FStr [] ∨ ∃ r, to_string out = lit "https://" ++ r)
  ∧ Mutators.doiRewrite out None = Ok out.
Proof.
  intros out.
  refine (doiRewrite_gives_https (FStr (lit "10.1000/182")) None out _).
  vm_compute. reflexivity.
Defined.

(** The working record of a paper under the two-step strategy: its DOI is
    the rewritten one, and every other field is the paper's own. *)
Lemma working_record_fields_witness :
  ∃ w,
    working Mutators.builtin Examples.doi_then_title 0 Examples.paper_a = Ok w
    ∧ (∀ field spec,
         (field, spec) ∈ [("doi", MutOne "doiRewrite")] →
         ∃ v, reduce_mutators Mutators.builtin (castArray spec)
                (raw_value Examples.paper_a field) Examples.paper_a = Ok v
              ∧ props w !! field = Some v)
    ∧ ∀ field, field ∉ ["doi"] → props w !! field = Examples.paper_a !! field.
Proof.
  eexists. split; [vm_compute; reflexivity|].
  refine (working_record_fields Mutators.builtin Examples.doi_then_title 0
            Examples.paper_a _ _ _).
  - repeat constructor. apply not_elem_of_nil.
  - vm_compute. reflexivity.
Defined.

(** The title step over the two papers: the second paper, which follows
    the first in the sorted order and equals it on the title, ends with an
    entry of score 1 that names a duplicate. *)
Lemma hit_on_successor_is_recorded_witness :
  let s := Examples.by_title in
  let sorted := Lodash.sortBy (refs Examples.two_papers) (sort s) in
  ∃ st' e,
    scan Examples.registry Settings.default s 0 sorted Examples.two_papers 0 1
    = Ok st'
    ∧ get_entry (refs st') 1 0 = Some e
    ∧ score_ge (score e) (SNum (Num 1)) = true
    ∧ is_Some (dupeOf e).
Proof.
  intros s sorted.
  assert (∃ st', scan Examples.registry Settings.default s 0 sorted
                   Examples.two_papers 0 1 = Ok st') as [st' Hscan]
    by (eexists; vm_compute; reflexivity).
  destruct (hit_on_successor_is_recorded Examples.registry Settings.default s 0
              sorted 0 0 1 (Examples.plain 0 Examples.paper_a)
              (Examples.plain 1 Examples.paper_b) (SNum (Num 1))
              Examples.two_papers st' Hscan)
    as (e & Hget & Hscore & Hdupe).
  - repeat constructor; intros e He; by apply elem_of_nil in He.
  - vm_compute. reflexivity.
  - vm_compute. reflexivity.
  - reflexivity.
  - reflexivity.
  - intros cs. exists (S cs). vm_compute. reflexivity.
  - reflexivity.
  - exists st', e. split; [exact Hscan|]. split; [exact Hget|].
    split; [exact Hscore|]. apply Hdupe. reflexivity.
Defined.

(** The string (One) loses its two brackets. *)
Lemma removeEnclosingBrackets_trims_both_ends_witness :
  let split_units := fun s : jsstring => (fun c => [c]) <$> s in
  ∃ l m r,
    lit "(One)" = l ++ m ++ r
    ∧ removeEnclosingBrackets split_units (FStr (lit "(One)")) = Ok (FStr m)
    ∧ Forall (fun c => is_bracket c = true) l
    ∧ Forall (fun c => is_bracket c = true) r
    ∧ (∀ c, head m = Some c → is_bracket c = false)
    ∧ (∀ c, last m = Some c → is_bracket c = false).
Proof.
  intros split_units.
  refine (removeEnclosingBrackets_trims_both_ends split_units (lit "(One)") _).
  vm_compute. reflexivity.
Defined.

(** The title step over three references with three titles: two or three
    pairs are compared, with at most one call of the comparison each. *)
Lemma scan_compares_between_linear_and_quadratic_witness :
  let s := Examples.by_title in
  let sorted := Lodash.sortBy (refs Examples.three_titles) (sort s) in
  ∃ st',
    scan Examples.registry Settings.default s 0 sorted Examples.three_titles 0 1
    = Ok st'
    ∧ (0 + (3 - 1) ≤ pairs st')%nat
    ∧ (2 * pairs st' ≤ 2 * 0 + 3 * (3 - 1))%nat
    ∧ (0 ≤ calls st' ≤ 0 + (pairs st' - 0) * 1)%nat.
Proof.
  intros s sorted. eexists. split; [vm_compute; reflexivity|].
  refine (scan_compares_between_linear_and_quadratic Examples.registry
            Settings.default s 0 sorted ["title"] Examples.three_titles _ _ _).
  - reflexivity.
  - vm_compute. reflexivity.
Defined.

(** The title step, run as step 1 over the two papers: the records keep
    their identity, and no entry of step 0 appears. *)
Lemma scan_writes_its_step_only_witness :
  let s := Examples.by_title in
  let sorted := Lodash.sortBy (refs Examples.two_papers) (sort s) in
  ∃ st',
    scan Examples.registry Settings.default s 1 sorted Examples.two_papers 0 1
    = Ok st'
    ∧ identity_of <$> refs st' = identity_of <$> refs Examples.two_papers
    ∧ (∀ pos k, k ≠ 1%nat →
         get_entry (refs st') pos k = get_entry (refs Examples.two_papers) pos k)
    ∧ ∀ pos e,
        get_entry (refs Examples.two_papers) pos 1 = Some e →
        ∃ e', get_entry (refs st') pos 1 = Some e'
              ∧ (e' = e ∨ score_ge (score e') (score e) = true).
Proof.
  intros s sorted. eexists. split; [vm_compute; reflexivity|].
  refine (scan_writes_its_step_only Examples.registry Settings.default s 1
            sorted Examples.two_papers 0 1 _ _).
  vm_compute. reflexivity.
Defined.

(** The two papers under the default settings: two records come back, each
    with a score that is not negative. *)
Lemma stats_score_is_nonnegative_witness :
  ∃ out,
    run Examples.registry Mutators.builtin Examples.catalog Settings.default
      [Examples.paper_a; Examples.paper_b] = Ok out
    ∧ length out = 2%nat
    ∧ ∀ k o,
        out !! k = Some o →
        ∃ q ds,
          o !! "dedupe" = Some (OStats (Num q) ds)
          ∧ (0 <= q)%Q
          ∧ (false = false → (0 < q)%Q ↔ ds ≠ []).
Proof.
  eexists. split; [vm_compute; reflexivity|].
  refine (stats_score_is_nonnegative Examples.registry Mutators.builtin
            Examples.catalog Settings.default
            [Examples.paper_a; Examples.paper_b] _ _ _).
  - reflexivity.
  - vm_compute. reflexivity.
Defined.

(** The two papers under the default settings, which weigh by MINIMUM:
    every score lies between 0 and 1. *)
Lemma minimum_score_is_between_0_and_1_witness :
  ∃ out,
    run Examples.registry Mutators.builtin Examples.catalog Settings.default
      [Examples.paper_a; Examples.paper_b] = Ok out
    ∧ ∀ k o,
        out !! k = Some o →
        ∃ q ds,
          o !! "dedupe" = Some (OStats (Num q) ds) ∧ (0 <= q <= 1)%Q.
Proof.
  eexists. split; [vm_compute; reflexivity|].
  refine (minimum_score_is_between_0_and_1 Examples.registry Mutators.builtin
            Examples.catalog Settings.default
            [Examples.paper_a; Examples.paper_b] _ _ _ _).
  - reflexivity.
  - reflexivity.
  - vm_compute. reflexivity.
Defined.
